(** * Image stitcher: a shallow embedding of [stitcher.py]

    The development follows the layout of the Python module.  Part I embeds
    the data model and the operations of the stitching engine; Part II states
    and proves the properties of the engine.

    Conventions of the embedding:
    - Python exceptions are values of [exn]; a fallible computation returns
      a [result], and code that mutates [self] threads the object explicitly.
    - [uint8] channel values and Python integers are [Z]; indices are [nat]
      where the source only ever produces non-negative indices, and [Z] for
      the predecessor array, whose entries may be the negative sentinel.
    - floating point coordinates are idealised as rationals ([Q]).
    - the OpenCV / NumPy / SciPy primitives the module calls are external to
      the repository.  The numerical ones (homography estimation, point
      transformation, warping, matrix product) are taken as an interface;
      the combinatorial ones (connected components, shortest paths,
      depth-first order) are given executable reference models. *)

From Stdlib Require Import ZArith QArith Qround String Lia Lqa.
From stdpp Require Import base option list gmap strings sorting.

Local Open Scope string_scope.
Local Open Scope list_scope.
Local Open Scope nat_scope.

(** ** Part I.  The embedding *)

(** *** Exceptions and results *)

Inductive exn : Type :=
| ValueError (msg : string)
| NameError (msg : string)
| KeyError (key : nat * nat)
| IndexError
| AssertionError
| OverflowError
| TypeError.

Inductive result (A : Type) : Type :=
| Ok (a : A)
| Raise (e : exn).
Arguments Ok {A} a.
Arguments Raise {A} e.

(** The outcome of a loop that is run with a bound on its iterations. *)
Inductive outcome (A : Type) : Type :=
| Done (a : A)
| Failed (e : exn)
| OutOfFuel.
Arguments Done {A} a.
Arguments Failed {A} e.
Arguments OutOfFuel {A}.

Definition bind {A B : Type} (r : result A) (k : A -> result B) : result B :=
  match r with
  | Ok a => k a
  | Raise e => Raise e
  end.

Notation "x <-! r ; k" := (bind r (fun x => k))
  (at level 100, r at next level, k at level 200, right associativity).

Definition is_ok {A : Type} (r : result A) : bool :=
  match r with Ok _ => true | Raise _ => false end.

(** [l[i]] for a Python list and a non-negative index. *)
Definition getitem {A : Type} (l : list A) (i : nat) : result A :=
  match l !! i with
  | Some a => Ok a
  | None => Raise IndexError
  end.

(** [l[i]] for a Python list and a signed index: a negative index counts
    from the end, anything outside [-len, len) raises [IndexError]. *)
Definition py_index {A : Type} (l : list A) (i : Z) : result (nat * A) :=
  let n := Z.of_nat (length l) in
  let j := if (i <? 0)%Z then (n + i)%Z else i in
  if (j <? 0)%Z then Raise IndexError
  else match l !! Z.to_nat j with
       | Some a => Ok (Z.to_nat j, a)
       | None => Raise IndexError
       end.

(** Sequencing of a fallible action over a list, left to right. *)
Fixpoint traverse {A B : Type} (f : A -> result B) (l : list A)
  : result (list B) :=
  match l with
  | [] => Ok []
  | a :: l' => b <-! f a; bs <-! traverse f l'; Ok (b :: bs)
  end.

(** *** Objects with dynamic attributes ([update_defaults], lines 25-30) *)

(** The Python values that occur as attribute values of a stitcher. *)
Local Unset Elimination Schemes.
Inductive pyval : Type :=
| PNone
| PBool (b : bool)
| PInt (z : Z)
| PFloat (q : Q)
| PStr (s : string)
| PList (l : list pyval)
| PDict (d : list (pyval * pyval)).
Local Set Elimination Schemes.

(** An object: the name of its class and its attribute dictionary.
    [hasattr] is a lookup in the dictionary, [setattr] an insertion. *)
Record pyobj : Type := PyObj {
  class_name : string;
  attrs : gmap string pyval
}.

Definition hasattr (obj : pyobj) (k : string) : bool :=
  bool_decide (is_Some (attrs obj !! k)).

Definition setattr (obj : pyobj) (k : string) (v : pyval) : pyobj :=
  PyObj (class_name obj) (<[k := v]> (attrs obj)).

Definition no_attribute_msg (cls k : string) : string :=
  "Class '" +:+ cls +:+ "' does not have an attribute '" +:+ k +:+ "'".

(** [update_defaults obj kwargs]: the keyword arguments are visited in the
    order of the dictionary; the object is threaded through, so the state
    it has when the exception is raised is part of the outcome. *)
Fixpoint update_defaults (obj : pyobj) (kwargs : list (string * pyval))
  : pyobj * result unit :=
  match kwargs with
  | [] => (obj, Ok tt)
  | (k, v) :: rest =>
      if hasattr obj k
      then update_defaults (setattr obj k v) rest
      else (obj, Raise (NameError (no_attribute_msg (class_name obj) k)))
  end.

(** The attributes [ImageStitcher.__init__] assigns before it looks at the
    keyword arguments (lines 110-117). *)
Definition default_attrs : gmap string pyval :=
  <["debug" := PBool false]>
  (<["_current_edge_matrix" := PNone]>
  (<["_center" := PNone]>
  (<["matches_threshold" := PInt 10]>
  (<["ratio_threshold" := PFloat (7 # 10)]>
  (<["_images" := PList []]>
  (<["_matches" := PDict []]> ∅)))))).

Definition default_object : pyobj := PyObj "ImageStitcher" default_attrs.

(** The constructor of [ImageStitcher], called with keyword arguments
    (lines 109-119). *)
Definition ImageStitcher_init (kwargs : list (string * pyval))
  : pyobj * result unit :=
  update_defaults default_object kwargs.

(** *** Images and match records *)

(** An RGBA pixel: four [uint8] channels. *)
Record pixel : Type := Pixel {
  red : Z;
  green : Z;
  blue : Z;
  alpha : Z
}.

(** A pixel buffer of shape [(rows, cols, 4)], stored row by row. *)
Abbreviation buffer := (list (list pixel)).

Definition rows (b : buffer) : nat := length b.
Definition cols (b : buffer) : nat :=
  match b with
  | [] => 0
  | r :: _ => length r
  end.

(** A buffer is rectangular with the given shape. *)
Definition has_shape (b : buffer) (h w : nat) : Prop :=
  length b = h /\ Forall (fun r => length r = w) b.

Definition point : Type := (Q * Q)%type.

(** Comparisons of rationals are decided on the cross products. *)
#[global] Instance Qlt_decision (x y : Q) : Decision (x < y)%Q :=
  decide (Qnum x * QDen y < Qnum y * QDen x)%Z.
#[global] Instance Qle_decision (x y : Q) : Decision (x <= y)%Q :=
  decide (Qnum x * QDen y <= Qnum y * QDen x)%Z.

(** [cv2.DMatch]: indices into the keypoints of the query and of the train
    image, and the descriptor distance. *)
Record DMatch : Type := {
  queryIdx : nat;
  trainIdx : nat;
  distance : Q
}.

(** The SciPy routines whose result depends on tie-breaking inside the
    library: the predecessor array of Dijkstra's algorithm and the
    permutation that sorts an array. *)
Class GraphPrimitives : Type := {
  (** [csgraph.dijkstra(g, directed=False, indices=c,
      return_predecessors=True)[1]] *)
  dijkstra_predecessors : forall (shape : nat) (weights : gmap (nat * nat) Z),
      nat -> list Z;
  (** [np.argsort(a)] *)
  argsort : list Z -> list nat
}.

(** The numerical collaborators: descriptors, the matrix type with its
    product, and the OpenCV primitives the engine calls. *)
Class VisionPrimitives : Type := {
  descriptors : Type;
  matrix : Type;
  (** [np.identity(3)] *)
  identity3 : matrix;
  (** [A.dot(B)] *)
  dot : matrix -> matrix -> matrix;
  (** [np.array([[1, 0, tx], [0, 1, ty], [0, 0, 1]])] *)
  translation : Z -> Z -> matrix;
  (** [feature_finder.detectAndCompute(image, None)] *)
  detectAndCompute : buffer -> list point * descriptors;
  (** [matcher.knnMatch(a, b, k=2)]: the two nearest candidates per query *)
  knnMatch : descriptors -> descriptors -> list (DMatch * DMatch);
  (** [cv2.findHomography(src, dst, cv2.RANSAC, 2.)]: the matrix and the
      sum of the inlier mask *)
  findHomography : list point -> list point -> matrix * nat;
  (** [cv2.perspectiveTransform(np.array([pts]), H)]: a batch of point lists *)
  perspectiveTransform : list point -> matrix -> list (list point);
  (** [cv2.warpPerspective(image, H, (width, height), flags=INTER_LINEAR)] *)
  warpPerspective : buffer -> matrix -> Z * Z -> buffer
}.

(** [_StitchImage] (lines 90-105), after [find_features] has run. *)
Record StitchImage `{VisionPrimitives} : Type := {
  image : buffer;
  kp : list point;
  feat : descriptors;
  name : string
}.

(** [scipy.sparse.csr_matrix((values, (rows, cols)), shape=(n, n))]: the
    stored entries by position. *)
Record sparse : Type := Sparse {
  shape : nat;
  entries : gmap (nat * nat) Z
}.

(** [ImageStitcher]: the attributes of a session (lines 110-117). *)
Record ImageStitcher `{VisionPrimitives} : Type := {
  _matches : gmap (nat * nat) (list DMatch);
  _images : list StitchImage;
  ratio_threshold : Q;
  matches_threshold : nat;
  _center : option nat;
  _current_edge_matrix : option sparse;
  debug : bool
}.

(** *** NumPy helpers *)

(** The index of the first element that no other element beats, where
    [better x y] says that [x] beats the current best [y]: [np.argmax]
    and [np.argmin] return the first occurrence of the extreme value.
    (On an empty array NumPy raises; every call below is on an array with
    one entry per image of a non-empty session.) *)
Fixpoint argbest_from {A : Type} (better : A -> A -> bool) (l : list A)
  (i best_i : nat) (best : A) : nat :=
  match l with
  | [] => best_i
  | x :: l' =>
      if better x best
      then argbest_from better l' (S i) i x
      else argbest_from better l' (S i) best_i best
  end.

Definition argbest {A : Type} (better : A -> A -> bool) (l : list A) : nat :=
  match l with
  | [] => 0
  | x :: l' => argbest_from better l' 1 0 x
  end.

(** [np.argmax] on an array of counts. *)
Definition argmax (l : list nat) : nat :=
  argbest (fun x best => bool_decide (best < x)) l.

(** [np.bincount(groups)]: entry [l] counts the occurrences of [l]. *)
Definition bincount (groups : list nat) : list nat :=
  match groups with
  | [] => []
  | _ => (fun l => length (filter (fun g => g = l) groups))
           <$> seq 0 (S (max_list groups))
  end.

(** [np.where(groups != v)[0]]: the positions, in increasing order. *)
Definition where_ne (groups : list nat) (v : nat) : list nat :=
  filter (fun i => groups !! i <> Some v) (seq 0 (length groups)).

(** [max(...)] over a generator of lengths. *)
Definition py_max (l : list nat) : result nat :=
  match l with
  | [] => Raise (ValueError "max() arg is an empty sequence")
  | _ => Ok (max_list l)
  end.

(** *** Reference models of the [scipy.sparse.csgraph] routines *)

(** The endpoints of the stored entries. *)
Definition edges (g : sparse) : list (nat * nat) :=
  (map_to_list (entries g)).*1.

(** Two nodes are adjacent in the undirected graph when an entry is
    stored for them in either orientation. *)
Definition adjacent (g : sparse) (i j : nat) : Prop :=
  is_Some (entries g !! (i, j)) \/ is_Some (entries g !! (j, i)).

(** One union step: the two classes of the endpoints of an edge are
    merged under the smaller of their two representatives. *)
Definition merge (reps : list nat) (e : nat * nat) : list nat :=
  match reps !! e.1, reps !! e.2 with
  | Some a, Some b =>
      (fun r => if decide (r = a `max` b) then a `min` b else r) <$> reps
  | _, _ => reps
  end.

(** For every node, the least node of its connected component. *)
Definition representatives (g : sparse) : list nat :=
  foldl merge (seq 0 (shape g)) (edges g).

(** [csgraph.connected_components(g, directed=False)]: the number of
    components and the label of every node.  SciPy scans the nodes in
    increasing order and gives the next free label to the component of
    the first node that has none, so the labels number the components by
    their least node. *)
Definition connected_components (g : sparse) : nat * list nat :=
  let reps := representatives g in
  let roots := filter (fun r => reps !! r = Some r) (seq 0 (shape g)) in
  (length roots, (fun r => length (filter (fun x => x < r) roots)) <$> reps).

(** Path lengths: a finite length or [np.inf]. *)
Inductive dist : Type :=
| Fin (d : Z)
| Inf.

#[global] Instance dist_eq_dec : EqDecision dist.
Proof. solve_decision. Defined.

Definition dist_add (a b : dist) : dist :=
  match a, b with
  | Fin x, Fin y => Fin (x + y)
  | _, _ => Inf
  end.

Definition dist_leb (a b : dist) : bool :=
  match a, b with
  | _, Inf => true
  | Inf, Fin _ => false
  | Fin x, Fin y => (x <=? y)%Z
  end.

Definition dist_ltb (a b : dist) : bool := negb (dist_leb b a).

Definition dist_min (a b : dist) : dist := if dist_leb a b then a else b.
Definition dist_max (a b : dist) : dist := if dist_leb a b then b else a.

(** The length of the direct connection between two nodes of the
    undirected graph. *)
Definition direct (g : sparse) (i j : nat) : dist :=
  if decide (i = j) then Fin 0
  else match entries g !! (i, j), entries g !! (j, i) with
       | Some a, Some b => Fin (a `min` b)
       | Some a, None => Fin a
       | None, Some b => Fin b
       | None, None => Inf
       end.

Definition entry (d : list (list dist)) (i j : nat) : dist :=
  default Inf (d !! i ≫= fun row => row !! j).

(** One round of Floyd-Warshall: paths may now pass through node [k]. *)
Definition relax (d : list (list dist)) (k : nat) : list (list dist) :=
  imap (fun i row =>
          imap (fun j dij => dist_min dij (dist_add (entry d i k) (entry d k j)))
               row) d.

(** [csgraph.shortest_path(g, directed=False)]: the matrix of the lengths
    of the shortest paths between all pairs of nodes. *)
Definition shortest_path (g : sparse) : list (list dist) :=
  let n := shape g in
  foldl relax ((fun i => direct g i <$> seq 0 n) <$> seq 0 n) (seq 0 n).

(** [row.max()] *)
Definition np_max (row : list dist) : dist :=
  match row with
  | [] => Fin 0
  | x :: l => foldl dist_max x l
  end.

(** [np.argmin] on an array of path lengths. *)
Definition argmin (l : list dist) : nat :=
  argbest (fun x best => dist_ltb x best) l.

Section Engine.
Context `{VP : VisionPrimitives}.

(** The session that [ImageStitcher()] builds. *)
Definition new_session : ImageStitcher := {|
  _matches := ∅;
  _images := [];
  ratio_threshold := 7 # 10;
  matches_threshold := 10;
  _center := None;
  _current_edge_matrix := None;
  debug := false
|}.

Definition set_matches (s : ImageStitcher) (m : gmap (nat * nat) (list DMatch))
  : ImageStitcher :=
  {| _matches := m; _images := _images s;
     ratio_threshold := ratio_threshold s;
     matches_threshold := matches_threshold s;
     _center := _center s;
     _current_edge_matrix := _current_edge_matrix s;
     debug := debug s |}.

Definition set_images (s : ImageStitcher) (l : list StitchImage)
  : ImageStitcher :=
  {| _matches := _matches s; _images := l;
     ratio_threshold := ratio_threshold s;
     matches_threshold := matches_threshold s;
     _center := _center s;
     _current_edge_matrix := _current_edge_matrix s;
     debug := debug s |}.

Definition set_center (s : ImageStitcher) (c : option nat) : ImageStitcher :=
  {| _matches := _matches s; _images := _images s;
     ratio_threshold := ratio_threshold s;
     matches_threshold := matches_threshold s;
     _center := c;
     _current_edge_matrix := _current_edge_matrix s;
     debug := debug s |}.

Definition set_current_edge_matrix (s : ImageStitcher) (m : option sparse)
  : ImageStitcher :=
  {| _matches := _matches s; _images := _images s;
     ratio_threshold := ratio_threshold s;
     matches_threshold := matches_threshold s;
     _center := _center s;
     _current_edge_matrix := m;
     debug := debug s |}.

(** [_match_features] (lines 333-351): the ratio test over the candidate
    pairs, then the threshold on the number of good matches.  The debug
    plot has no effect on the result. *)
Definition _match_features (s : ImageStitcher) (src dst : StitchImage)
  : option (list DMatch) :=
  let matches := knnMatch (feat src) (feat dst) in
  let good :=
    (fun ij : DMatch * DMatch => fst ij) <$>
      filter (fun ij : DMatch * DMatch =>
                (distance (fst ij) < ratio_threshold s * distance (snd ij))%Q)
             matches in
  if decide (matches_threshold s <= length good) then Some good else None.

(** The loop of [add_image] over the earlier images (lines 134-137). *)
Fixpoint match_against (s : ImageStitcher) (img : StitchImage) (idx : nat)
  (others : list (nat * StitchImage)) (m : gmap (nat * nat) (list DMatch))
  : gmap (nat * nat) (list DMatch) :=
  match others with
  | [] => m
  | (oidx, other) :: rest =>
      let m' := match _match_features s img other with
                | Some good => <[(idx, oidx) := good]> m
                | None => m
                end in
      match_against s img idx rest m'
  end.

(** [add_image] (lines 121-137) for a pixel buffer that is already RGBA
    and a given name. *)
Definition add_image (s : ImageStitcher) (pixels : buffer) (nm : string)
  : ImageStitcher :=
  let '(k, f) := detectAndCompute pixels in
  let img := {| image := pixels; kp := k; feat := f; name := nm |} in
  let idx := length (_images s) in
  let s1 := set_images s (_images s ++ [img]) in
  set_matches s1
    (match_against s1 img idx (imap (fun i o => (i, o)) (_images s))
       (_matches s1)).

End Engine.

(** *** Geometry ([image_corners], [fitting_rectangle], lines 33-59) *)

(** [image_corners(arr)]: the corners in the row/column convention of
    the source, [arr.shape] being [(rows, cols, 4)]. *)
Definition image_corners (arr : buffer) : list point :=
  let s0 := inject_Z (Z.of_nat (rows arr)) in
  let s1 := inject_Z (Z.of_nat (cols arr)) in
  [(0%Q, 0%Q); (0%Q, s1); (s0, s1); (s0, 0%Q)].

(** The running extremes of [fitting_rectangle]; [None] is the initial
    infinity of the matching sign. *)
Record extent : Type := Extent {
  ext_left : option Q;
  ext_right : option Q;
  ext_top : option Q;
  ext_bottom : option Q
}.

(** [x < bound], where the bound starts at [float('inf')]. *)
Definition below (x : Q) (bound : option Q) : bool :=
  match bound with
  | None => true
  | Some b => bool_decide (x < b)%Q
  end.

(** [x > bound], where the bound starts at [float('-inf')]. *)
Definition above (x : Q) (bound : option Q) : bool :=
  match bound with
  | None => true
  | Some b => bool_decide (b < x)%Q
  end.

(** The body of the loop over the points (lines 46-54). *)
Definition extend (e : extent) (p : point) : extent :=
  let '(x, y) := p in
  {| ext_left := if below x (ext_left e) then Some x else ext_left e;
     ext_right := if above x (ext_right e) then Some x else ext_right e;
     ext_top := if below y (ext_top e) then Some y else ext_top e;
     ext_bottom := if above y (ext_bottom e) then Some y else ext_bottom e |}.

(** [fitting_rectangle] on the given points: [((left, top), (width, height))].
    Without a point the extremes stay infinite and [math.floor] raises. *)
Definition fitting_rectangle (points : list point)
  : result ((Z * Z) * (Z * Z)) :=
  let e := foldl extend (Extent None None None None) points in
  match ext_left e, ext_right e, ext_top e, ext_bottom e with
  | Some l, Some r, Some t, Some b =>
      let left := Qfloor l in
      let top := Qfloor t in
      let width := Qceiling (r - inject_Z left) in
      let height := Qceiling (b - inject_Z top) in
      Ok ((left, top), (width, height))
  | _, _, _, _ => Raise OverflowError
  end.

(** *** Compositing ([paste_image], lines 62-75) *)

(** [cv2.add] on [uint8]: the sum saturates at 255. *)
Definition saturating_add (a b : Z) : Z := Z.min 255 (a + b).

(** One pixel of [paste_image].  [cv2.bitwise_and(dest, dest, mask=mask)]
    keeps the destination pixel where the mask [255 - alpha] is not zero
    and yields zero in every channel where it is; [cv2.add] then adds the
    source pixel channel by channel. *)
Definition paste_pixel (dest src : pixel) : pixel :=
  let mask := (255 - alpha src)%Z in
  let dest_bg := if (mask =? 0)%Z then Pixel 0 0 0 0 else dest in
  Pixel (saturating_add (red dest_bg) (red src))
        (saturating_add (green dest_bg) (green src))
        (saturating_add (blue dest_bg) (blue src))
        (saturating_add (alpha dest_bg) (alpha src)).

(** The bounds of the NumPy slice [a[start:stop]] on an axis of length
    [len]: a negative bound counts from the end, and both are clipped to
    the axis. *)
Definition slice_bound (len : nat) (i : Z) : nat :=
  let j := if (i <? 0)%Z then (i + Z.of_nat len)%Z else i in
  Z.to_nat (Z.min (Z.max j 0) (Z.of_nat len)).

Definition pixel_at (b : buffer) (r c : nat) : option pixel :=
  b !! r ≫= fun row => row !! c.

(** [paste_image(base, img, shift)]: the destination slice is taken
    without bounds checking, the assertion compares its shape with that
    of the pasted buffer, and the blended block is written back. *)
Definition paste_image (base img : buffer) (shift : Z * Z) : result buffer :=
  let h := rows img in
  let w := cols img in
  let '(x, y) := shift in
  let r0 := slice_bound (rows base) y in
  let r1 := slice_bound (rows base) (y + Z.of_nat h) in
  let c0 := slice_bound (cols base) x in
  let c1 := slice_bound (cols base) (x + Z.of_nat w) in
  if decide (r1 - r0 = h /\ c1 - c0 = w)
  then Ok (imap (fun r row =>
                   if decide (r0 <= r < r1)
                   then imap (fun c d =>
                                if decide (c0 <= c < c1)
                                then match pixel_at img (r - r0) (c - c0) with
                                     | Some p => paste_pixel d p
                                     | None => d
                                     end
                                else d) row
                   else row) base)
  else Raise AssertionError.

(** [np.zeros((height, width, 4), dtype=np.uint8)] *)
Definition zeros (height width : Z) : result buffer :=
  if decide (height < 0 \/ width < 0)%Z
  then Raise (ValueError "negative dimensions are not allowed")
  else Ok (replicate (Z.to_nat height)
             (replicate (Z.to_nat width) (Pixel 0 0 0 0))).

(** *** The session operations ([ImageStitcher], lines 139-331) *)

Section Stitching.
Context `{VP : VisionPrimitives} `{GP : GraphPrimitives}.

(** A method of the session: it may update [self] and it may raise. *)
Definition action (A : Type) : Type :=
  ImageStitcher -> ImageStitcher * result A.

Definition ret {A : Type} (a : A) : action A := fun s => (s, Ok a).
Definition throw {A : Type} (e : exn) : action A := fun s => (s, Raise e).
Definition lift {A : Type} (r : result A) : action A := fun s => (s, r).
Definition read {A : Type} (f : ImageStitcher -> A) : action A :=
  fun s => (s, Ok (f s)).
Definition write (f : ImageStitcher -> ImageStitcher) : action unit :=
  fun s => (f s, Ok tt).

Definition and_then {A B : Type} (m : action A) (k : A -> action B)
  : action B :=
  fun s =>
    match m s with
    | (s', Ok a) => k a s'
    | (s', Raise e) => (s', Raise e)
    end.

Notation "x <- m ;; k" := (and_then m (fun x => k))
  (at level 100, m at next level, k at level 200, right associativity).

(** [csr_matrix((values, (rows, cols)), shape=(n, n))]: SciPy rejects a
    position outside the shape. *)
Definition csr_matrix (values : gmap (nat * nat) Z) (n : nat) : result sparse :=
  if decide (map_Forall (fun (k : nat * nat) (_ : Z) => k.1 < n /\ k.2 < n)
               values)
  then Ok (Sparse n values)
  else Raise (ValueError "row index exceeds matrix dimensions").

(** Lines 322-329 of [_edge_matrix]: the weights of a fresh matrix. *)
Definition build_edge_matrix (s : ImageStitcher) : result sparse :=
  longest <-! py_max (length <$> (map_to_list (_matches s)).*2);
  let base := (Z.of_nat longest + 1)%Z in
  csr_matrix ((fun v : list DMatch => (base - Z.of_nat (length v))%Z)
                <$> _matches s)
             (length (_images s)).

(** The property [_edge_matrix] (lines 314-331). *)
Definition _edge_matrix : action sparse :=
  fun s =>
    if decide (length (_images s) = 0)
    then (s, Raise (ValueError "Must have at least one image!"))
    else
      let rebuild :=
        match build_edge_matrix s with
        | Ok m => (set_current_edge_matrix s (Some m), Ok m)
        | Raise e => (s, Raise e)
        end in
      match _current_edge_matrix s with
      | Some current =>
          if decide (shape current = length (_images s))
          then (s, Ok current)
          else rebuild
      | None => rebuild
      end.

Definition could_not_be_stitched (names : list string) : string :=
  "Image(s) " +:+ String.concat "," names +:+ " could not be stitched".

(** [validate] (lines 186-192). *)
Definition validate : action unit :=
  g <- _edge_matrix ;;
  let '(cc, groups) := connected_components g in
  if decide (cc = 1) then ret tt
  else
    let most_common := argmax (bincount groups) in
    images <- read _images ;;
    names <- lift (traverse (fun img => im <-! getitem images img; Ok (name im))
                     (where_ne groups most_common)) ;;
    throw (ValueError (could_not_be_stitched names)).

(** [_find_center] (lines 304-312); the last debug line reads
    [self._images[center]]. *)
Definition _find_center : action nat :=
  g <- _edge_matrix ;;
  let center := argmin (np_max <$> shortest_path g) in
  images <- read _images ;;
  _ <- lift (getitem images center) ;;
  ret center.

(** The property [center] (lines 139-143) and its setter (145-147). *)
Definition center : action nat :=
  cached <- read _center ;;
  match cached with
  | Some c => ret c
  | None =>
      c <- _find_center ;;
      _ <- write (fun s => set_center s (Some c)) ;;
      ret c
  end.

Definition center_setter (val : nat) : action unit :=
  write (fun s => set_center s (Some val)).

(** [_get_match] (lines 269-272). *)
Definition _get_match (s : ImageStitcher) (src_idx dst_idx : nat)
  : result (list DMatch) :=
  match _matches s !! (src_idx, dst_idx) with
  | Some m => Ok m
  | None =>
      match _matches s !! (dst_idx, src_idx) with
      | Some m => Ok m
      | None => Raise (KeyError (dst_idx, src_idx))
      end
  end.

(** The two point arrays that [_find_homography] hands to the estimator
    (lines 282-296): the roles are exchanged before the keypoints are
    read and the two arrays are exchanged back afterwards. *)
Definition homography_points (src dst : StitchImage) (matches : list DMatch)
  (swap : bool) : result (list point * list point) :=
  let '(src1, dst1) := if swap then (dst, src) else (src, dst) in
  src_data <-! traverse (fun i => getitem (kp src1) (queryIdx i)) matches;
  dst_data <-! traverse (fun i => getitem (kp dst1) (trainIdx i)) matches;
  Ok (if swap then (dst_data, src_data) else (src_data, dst_data)).

(** [_find_homography] (lines 274-302). *)
Definition _find_homography (src dst : StitchImage) (matches : list DMatch)
  (swap : bool) : result matrix :=
  pts <-! homography_points src dst matches swap;
  let '(H, status_sum) := findHomography pts.1 pts.2 in
  if decide (status_sum = 0)
  then Raise (ValueError
                "Critical error finding homography - this should not happen")
  else Ok H.

(** The body of the first loop of [_calculate_total_homographies]
    (lines 237-246) for one entry of the predecessor array. *)
Definition next_homography (s : ImageStitcher) (c src_idx : nat) (dst_idx : Z)
  : result matrix :=
  if decide ((dst_idx < 0)%Z \/ src_idx = c) then Ok identity3
  else
    let d := Z.to_nat dst_idx in
    matches <-! _get_match s src_idx d;
    let swap := bool_decide (_matches s !! (src_idx, d) = None) in
    src <-! getitem (_images s) src_idx;
    dst <-! getitem (_images s) d;
    _find_homography src dst matches swap.

(** The state of the memoised walk (lines 250-266): the table of the
    composed transforms, the work stack (its top is the head of the list;
    it holds indices as Python has them, signed) and, as a ghost, the
    positions of the table in the order in which they were assigned. *)
Record walk_state : Type := WalkState {
  total_H : list (option matrix);
  path : list Z;
  assigned : list nat
}.

(** The first index at which the table is still [None] (line 254). *)
Definition first_unknown (t : list (option matrix)) : option nat :=
  fst <$> list_find (fun o : option matrix => o = None) t.

(** The two nested loops of lines 253-266, one iteration per unit of
    fuel: with an empty stack the outer loop tests the table and pushes
    the first unknown node; otherwise the inner loop pops a node. *)
Fixpoint walk (fuel : nat) (parents : list Z) (next_H : list matrix) (c : nat)
  (st : walk_state) : outcome walk_state :=
  match fuel with
  | 0 => OutOfFuel
  | S fuel' =>
      match path st with
      | [] =>
          match first_unknown (total_H st) with
          | None => Done st
          | Some n =>
              walk fuel' parents next_H c
                (WalkState (total_H st) [Z.of_nat n] (assigned st))
          end
      | src_idx :: rest =>
          match py_index parents src_idx with
          | Raise e => Failed e
          | Ok (_, dst_idx) =>
              if decide (Z.of_nat c = src_idx)
              then walk fuel' parents next_H c
                     (WalkState (total_H st) rest (assigned st))
              else
                match py_index (total_H st) dst_idx with
                | Raise e => Failed e
                | Ok (_, None) =>
                    walk fuel' parents next_H c
                      (WalkState (total_H st) (dst_idx :: src_idx :: rest)
                         (assigned st))
                | Ok (_, Some Hd) =>
                    match py_index next_H src_idx with
                    | Raise e => Failed e
                    | Ok (i, Hs) =>
                        walk fuel' parents next_H c
                          (WalkState (<[i := Some (dot Hs Hd)]> (total_H st))
                             rest (assigned st ++ [i]))
                    end
                end
          end
      end
  end.

(** The first loop of [_calculate_total_homographies] (lines 236-246). *)
Definition next_homographies (s : ImageStitcher) (c : nat) (parents : list Z)
  : result (list matrix) :=
  traverse (fun '(src_idx, dst_idx) => next_homography s c src_idx dst_idx)
    (imap (fun i p => (i, p)) parents).

(** [_calculate_total_homographies] (lines 231-267), with a bound on the
    iterations of the walk.  The result also reports the ghost sequence
    of assignments. *)
Definition _calculate_total_homographies (fuel : nat) (s : ImageStitcher)
  (c : nat) (parents : list Z) : outcome (list (option matrix) * list nat) :=
  match next_homographies s c parents with
  | Raise e => Failed e
  | Ok next_H =>
      match getitem next_H c with
      | Raise e => Failed e
      | Ok Hc =>
          let t0 := <[c := Some Hc]> (replicate (length parents) None) in
          match walk fuel parents next_H c (WalkState t0 [] [c]) with
          | Done st => Done (total_H st, assigned st)
          | Failed e => Failed e
          | OutOfFuel => OutOfFuel
          end
      end
  end.

(** [_calculate_new_corners] (lines 194-209). *)
Definition _calculate_new_corners (s : ImageStitcher)
  (Hs : list (option matrix)) : result (list (list point)) :=
  traverse (fun '(im, H) =>
              let corners := image_corners (image im) in
              match H with
              | None => Raise TypeError
              | Some h =>
                  let new_corners := perspectiveTransform corners h in
                  if decide (length new_corners <> 1)
                  then Raise (ValueError ("Could not calculate bounds for "
                                            +:+ name im +:+ "!"))
                  else getitem new_corners 0
              end)
    (zip (_images s) Hs).

(** [_calculate_bounds] (lines 211-220). *)
Definition _calculate_bounds (new_corners : list (list point))
  : result ((Z * Z) * (Z * Z)) :=
  fitting_rectangle (concat new_corners).

(** [csgraph.reconstruct_path(g, parents, directed=False)]: row [p] of the
    tree holds the nodes whose predecessor is [p], in the order in which
    the sorted index array lists them. *)
Definition reconstruct_path (parents : list Z) (p : nat) : list nat :=
  filter (fun n => parents !! n = Some (Z.of_nat p)) (argsort parents).

(** The loop of [csgraph.depth_first_order]: the node on top of the stack
    either has a child that is not flagged yet, which is flagged, listed
    and pushed, or it is popped. *)
Fixpoint dfs_loop (fuel : nat) (tree : nat -> list nat) (root_list : list nat)
  (flag : gset nat) (node_list : list nat) : list nat :=
  match fuel with
  | 0 => node_list
  | S fuel' =>
      match root_list with
      | [] => node_list
      | pnode :: rest =>
          match list_find (fun cnode => cnode ∉ flag) (tree pnode) with
          | Some (_, cnode) =>
              dfs_loop fuel' tree (cnode :: root_list) ({[cnode]} ∪ flag)
                (node_list ++ [cnode])
          | None => dfs_loop fuel' tree rest flag node_list
          end
      end
  end.

(** [csgraph.depth_first_order(tree, i_start, return_predecessors=False)]
    on a graph of [n] nodes: every iteration flags a node or pops one, so
    [2 * n + 1] iterations empty the stack. *)
Definition depth_first_order (n : nat) (tree : nat -> list nat)
  (i_start : nat) : list nat :=
  dfs_loop (2 * n + 1) tree [i_start] {[i_start]} [i_start].

(** [_calculate_draw_order] (lines 222-229). *)
Definition _calculate_draw_order (c : nat) (parents : list Z) : list nat :=
  reverse (depth_first_order (length parents) (reconstruct_path parents) c).

Fixpoint fold_result {A B : Type} (f : B -> A -> result B) (l : list A) (b : B)
  : result B :=
  match l with
  | [] => Ok b
  | a :: l' => b' <-! f b a; fold_result f l' b'
  end.

(** The body of the drawing loop of [stitch] (lines 165-182). *)
Definition paint (s : ImageStitcher) (Hs : list (option matrix))
  (all_new_corners : list (list point)) (base_shift : Z * Z)
  (canvas : buffer) (i : nat) : result buffer :=
  im <-! getitem (_images s) i;
  new_corners <-! getitem all_new_corners i;
  H <-! getitem Hs i;
  rect <-! fitting_rectangle new_corners;
  let '(shift, size) := rect in
  let dest_shift := (shift.1 - base_shift.1, shift.2 - base_shift.2)%Z in
  match H with
  | None => Raise TypeError
  | Some h =>
      let T := translation (- shift.1) (- shift.2) in
      let Ht := dot T h in
      let new_image := warpPerspective (image im) Ht size in
      paste_image canvas new_image dest_shift
  end.

(** Lines 160-184 of [stitch]: from the composed transforms to the
    canvas. *)
Definition compose_canvas (s : ImageStitcher) (c : nat) (parents : list Z)
  (Hs : list (option matrix)) : result buffer :=
  all_new_corners <-! _calculate_new_corners s Hs;
  bounds <-! _calculate_bounds all_new_corners;
  let '(base_shift, base_size) := bounds in
  let order := _calculate_draw_order c parents in
  canvas <-! zeros base_size.2 base_size.1;
  fold_result (paint s Hs all_new_corners base_shift) order canvas.

(** Lines 151-157 of [stitch]: validation, the center and the
    predecessor array of the shortest-path tree. *)
Definition spanning_tree : action (nat * list Z) :=
  _ <- validate ;;
  c <- center ;;
  images <- read _images ;;
  _ <- lift (getitem images c) ;;
  g <- _edge_matrix ;;
  ret (c, dijkstra_predecessors (shape g) (entries g) c).

(** [stitch] (lines 149-184), with a bound on the iterations of the
    memoised walk. *)
Definition stitch (fuel : nat) (s : ImageStitcher)
  : ImageStitcher * outcome buffer :=
  match spanning_tree s with
  | (s', Raise e) => (s', Failed e)
  | (s', Ok (c, parents)) =>
      match _calculate_total_homographies fuel s' c parents with
      | OutOfFuel => (s', OutOfFuel)
      | Failed e => (s', Failed e)
      | Done (Hs, _) =>
          match compose_canvas s' c parents Hs with
          | Ok canvas => (s', Done canvas)
          | Raise e => (s', Failed e)
          end
      end
  end.

End Stitching.

(** *** A symbolic instance of the collaborators

    The properties below hold for every implementation of the two
    interfaces.  To run the engine on concrete sessions, the following
    instance keeps matrices as the expressions that built them and reads
    an expression as the translation it denotes. *)

Module Demo.

Inductive sym : Type :=
| SIdentity
| STranslation (tx ty : Z)
| SEstimate (src dst : list point)
| SDot (a b : sym).

Definition first_point (l : list point) : Z * Z :=
  match l with
  | [] => (0, 0)%Z
  | (x, y) :: _ => (Qfloor x, Qfloor y)
  end.

Fixpoint offset (m : sym) : Z * Z :=
  match m with
  | SIdentity => (0, 0)%Z
  | STranslation tx ty => (tx, ty)
  | SEstimate src dst =>
      ((first_point dst).1 - (first_point src).1,
       (first_point dst).2 - (first_point src).2)%Z
  | SDot a b => ((offset a).1 + (offset b).1, (offset a).2 + (offset b).2)%Z
  end.

#[export] Instance vision : VisionPrimitives := {|
  descriptors := unit;
  matrix := sym;
  identity3 := SIdentity;
  dot := SDot;
  translation := STranslation;
  detectAndCompute := fun _ => ([], tt);
  knnMatch := fun _ _ => [];
  findHomography := fun src dst => (SEstimate src dst, length src);
  perspectiveTransform := fun pts H =>
    [(fun p : point => (p.1 + inject_Z (offset H).1,
                        p.2 + inject_Z (offset H).2)%Q) <$> pts];
  warpPerspective := fun _ _ size =>
    replicate (Z.to_nat size.2) (replicate (Z.to_nat size.1) (Pixel 9 9 9 255))
|}.

(** A predecessor array of a shortest-path tree, read off the matrix of
    the shortest paths: the first neighbour through which a shortest
    path from the source arrives. *)
Definition predecessors (n : nat) (weights : gmap (nat * nat) Z) (c : nat)
  : list Z :=
  let g := Sparse n weights in
  let d := shortest_path g in
  (fun v =>
     if decide (v = c) then (-9999)%Z
     else match list_find (fun u =>
                   u <> v /\ direct g u v <> Inf /\
                   dist_add (entry d c u) (direct g u v) = entry d c v /\
                   entry d c v <> Inf) (seq 0 n) with
          | Some (_, u) => Z.of_nat u
          | None => (-9999)%Z
          end) <$> seq 0 n.

(** A sort of the positions by their value. *)
Definition key_le (a : list Z) (i j : nat) : Prop :=
  (default 0%Z (a !! i) <= default 0%Z (a !! j))%Z.

#[export] Instance key_le_dec (a : list Z) : RelDecision (key_le a).
Proof. intros i j. unfold key_le. apply _. Defined.

Definition sort_positions (a : list Z) : list nat :=
  merge_sort (key_le a) (seq 0 (length a)).

#[export] Instance graph : GraphPrimitives := {|
  dijkstra_predecessors := predecessors;
  argsort := sort_positions
|}.

(** Concrete sessions. *)
Definition picture (h w : nat) : buffer :=
  replicate h (replicate w (Pixel 10 20 30 255)).

Definition keypoints (dx dy : Z) (n : nat) : list point :=
  (fun i => (inject_Z (Z.of_nat i + dx), inject_Z (Z.of_nat i + dy)))
    <$> seq 0 n.

Definition photo (nm : string) (h w : nat) (dx dy : Z) : StitchImage :=
  {| image := picture h w; kp := keypoints dx dy 20; feat := tt; name := nm |}.

Definition correspondences (n : nat) : list DMatch :=
  (fun i => {| queryIdx := i; trainIdx := i; distance := 1 |}) <$> seq 0 n.

Definition session_of (images : list StitchImage)
  (records : gmap (nat * nat) (list DMatch)) : ImageStitcher :=
  {| _matches := records; _images := images;
     ratio_threshold := 7 # 10; matches_threshold := 10;
     _center := None; _current_edge_matrix := None; debug := false |}.

(** Three images in a row: A-B share 20 correspondences, B-C share 15. *)
Definition chain : ImageStitcher :=
  session_of [photo "A" 2 3 0 0; photo "B" 2 3 2 0; photo "C" 2 3 4 0]
    (<[(1, 0) := correspondences 20]> {[(2, 1) := correspondences 15]}).

(** Three images of which the last one matches no other. *)
Definition stray : ImageStitcher :=
  session_of [photo "A" 2 3 0 0; photo "B" 2 3 2 0; photo "C" 2 3 4 0]
    {[(1, 0) := correspondences 20]}.

(** One image. *)
Definition single : ImageStitcher := session_of [photo "A" 2 3 0 0] ∅.

(** Two images without a match record. *)
Definition strangers : ImageStitcher :=
  session_of [photo "A" 2 3 0 0; photo "B" 2 3 2 0] ∅.

End Demo.

(** ** Part II.  Properties of the engine *)

(** *** Configuration by keyword arguments *)

Lemma hasattr_setattr (obj : pyobj) (k : string) (v : pyval) (a : string) :
  hasattr obj k = true -> hasattr (setattr obj k v) a = hasattr obj a.
Proof.
  unfold hasattr, setattr; cbn. intros Hk.
  apply bool_decide_eq_true in Hk.
  apply bool_decide_ext. rewrite lookup_insert_is_Some.
  destruct (decide (k = a)) as [->|Hne]; [tauto|].
  split; [intros [?|[_ ?]]; done|intros ?; by right].
Qed.

Lemma class_name_setattr (obj : pyobj) (k : string) (v : pyval) :
  class_name (setattr obj k v) = class_name obj.
Proof. reflexivity. Qed.

(** The assignments of a prefix of the keyword arguments. *)
Definition assign_all (obj : pyobj) (kwargs : list (string * pyval)) : pyobj :=
  foldl (fun o kv => setattr o kv.1 kv.2) obj kwargs.

Lemma assign_all_lookup_other (kwargs : list (string * pyval)) (obj : pyobj)
    (a : string) :
  a ∉ kwargs.*1 -> attrs (assign_all obj kwargs) !! a = attrs obj !! a.
Proof.
  revert obj. induction kwargs as [|[k v] rest IH]; intros obj Ha; [done|].
  cbn in Ha. apply not_elem_of_cons in Ha as [Hne Hrest].
  cbn. rewrite IH by done. cbn. by rewrite lookup_insert_ne.
Qed.

Lemma update_defaults_stops (pre post : list (string * pyval)) (obj : pyobj)
    (k : string) (v : pyval) :
  Forall (fun kv => hasattr obj kv.1 = true) pre ->
  hasattr obj k = false ->
  update_defaults obj (pre ++ (k, v) :: post) =
    (assign_all obj pre,
     Raise (NameError (no_attribute_msg (class_name obj) k))).
Proof.
  revert obj. induction pre as [|[k' v'] pre IH]; intros obj Hpre Hk; cbn.
  - by rewrite Hk.
  - apply Forall_cons in Hpre as [Hk' Hpre]. cbn in Hk'. rewrite Hk'.
    rewrite IH; [done| |by rewrite hasattr_setattr].
    eapply Forall_impl; [exact Hpre|]. intros kv Hkv; cbn in *.
    by rewrite hasattr_setattr.
Qed.

Lemma update_defaults_all_known (kwargs : list (string * pyval)) (obj : pyobj) :
  Forall (fun kv => hasattr obj kv.1 = true) kwargs ->
  update_defaults obj kwargs = (assign_all obj kwargs, Ok tt).
Proof.
  revert obj. induction kwargs as [|[k v] rest IH]; intros obj Hall; [done|].
  apply Forall_cons in Hall as [Hk Hrest]. cbn in *. rewrite Hk.
  apply IH. eapply Forall_impl; [exact Hrest|]. intros kv Hkv; cbn in *.
  by rewrite hasattr_setattr.
Qed.




(** *** The match graph *)

Section MatchGraph.
Context `{VP : VisionPrimitives}.

(** The largest number of correspondences of a stored pair. *)
Definition max_count (s : ImageStitcher) : nat :=
  max_list (length <$> (map_to_list (_matches s)).*2).

Lemma max_count_upper (s : ImageStitcher) (k : nat * nat) (v : list DMatch) :
  _matches s !! k = Some v -> length v <= max_count s.
Proof.
  intros Hk. apply max_list_elem_of_le.
  apply list_elem_of_fmap. exists v. split; [done|].
  apply list_elem_of_fmap. exists (k, v). split; [done|].
  by apply elem_of_map_to_list.
Qed.

Lemma max_list_attained (l : list nat) :
  l <> [] -> max_list l ∈ l.
Proof.
  induction l as [|x l IH]; [done|]. intros _. cbn.
  destruct l as [|y l].
  - cbn. rewrite Nat.max_0_r. left.
  - destruct (Nat.max_spec x (max_list (y :: l))) as [[_ ->]|[_ ->]].
    + right. by apply IH.
    + left.
Qed.

Lemma max_count_attained (s : ImageStitcher) :
  _matches s <> ∅ ->
  exists k v, _matches s !! k = Some v /\ length v = max_count s.
Proof.
  intros Hne. unfold max_count.
  destruct (map_to_list (_matches s)) as [|kv l] eqn:Hl.
  { by apply map_to_list_empty_iff in Hl. }
  pose proof (max_list_attained (length <$> (kv :: l).*2)) as Hin.
  rewrite <- Hl in Hin.
  apply list_elem_of_fmap in Hin as (v & Hlen & Hv).
  2:{ rewrite Hl. done. }
  apply list_elem_of_fmap in Hv as ([k v'] & -> & Hkv).
  apply elem_of_map_to_list in Hkv. rewrite <- Hl. eauto.
Qed.

(** The session invariant: a match record relates an image to an earlier
    one, and a cached matrix is never larger than the session; when it
    has the size of the session it is the matrix of the stored records. *)
Definition well_formed (s : ImageStitcher) : Prop :=
  map_Forall (fun (k : nat * nat) (_ : list DMatch) =>
                k.2 < k.1 < length (_images s)) (_matches s) /\
  (forall m, _current_edge_matrix s = Some m ->
             shape m <= length (_images s) /\
             (shape m = length (_images s) -> build_edge_matrix s = Ok m)).

Lemma new_session_well_formed : well_formed new_session.
Proof.
  split; cbn.
  - apply map_Forall_empty.
  - intros m Hm. discriminate.
Qed.

Lemma match_against_keys (s : ImageStitcher) (img : StitchImage) (idx : nat)
    (others : list (nat * StitchImage))
    (m : gmap (nat * nat) (list DMatch)) (i j : nat) :
  is_Some (match_against s img idx others m !! (i, j)) ->
  is_Some (m !! (i, j)) \/ (i = idx /\ j ∈ others.*1).
Proof.
  revert m. induction others as [|[oidx other] rest IH]; intros m; cbn.
  - by left.
  - intros H. apply IH in H as [H|[-> Hj]].
    + destruct (_match_features s img other); [|by left].
      apply lookup_insert_is_Some in H as [[= -> ->]|[_ H]]; [|by left].
      right. split; [done|]. left.
    + right. split; [done|]. by right.
Qed.

Lemma add_image_well_formed (s : ImageStitcher) (pixels : buffer)
    (nm : string) :
  well_formed s -> well_formed (add_image s pixels nm).
Proof.
  intros [Hkeys Hcache]. unfold add_image.
  destruct (detectAndCompute pixels) as [k f]. split; cbn.
  - intros [i j] v Hv. rewrite length_app; cbn.
    apply mk_is_Some, match_against_keys in Hv as [[v' H]|[-> Hj]].
    + apply Hkeys in H. cbn in H. lia.
    + apply list_elem_of_fmap in Hj as ([j' o] & -> & Hj).
      apply list_elem_of_lookup in Hj as [n Hn].
      rewrite list_lookup_imap in Hn.
      destruct (_images s !! n) eqn:Hlook; [|done].
      apply lookup_lt_Some in Hlook. cbn in Hn. injection Hn as <- _.
      cbn. lia.
  - intros m Hm. apply Hcache in Hm as [Hle _].
    rewrite length_app; cbn. split; [lia|]. intros Heq. lia.
Qed.

Lemma py_max_lengths (s : ImageStitcher) :
  _matches s <> ∅ ->
  py_max (length <$> (map_to_list (_matches s)).*2) = Ok (max_count s).
Proof.
  intros Hne. unfold max_count.
  destruct (map_to_list (_matches s)) as [|kv l] eqn:Hl; [|done].
  by apply map_to_list_empty_iff in Hl.
Qed.

Lemma py_max_no_records (s : ImageStitcher) :
  _matches s = ∅ ->
  py_max (length <$> (map_to_list (_matches s)).*2)
  = Raise (ValueError "max() arg is an empty sequence").
Proof. intros ->. by rewrite map_to_list_empty. Qed.

(** The weights of a fresh matrix, in the words of the data model. *)
Definition weights (s : ImageStitcher) : gmap (nat * nat) Z :=
  (fun v : list DMatch =>
     (Z.of_nat (max_count s) + 1 - Z.of_nat (length v))%Z) <$> _matches s.

Lemma build_edge_matrix_ok (s : ImageStitcher) :
  well_formed s -> _matches s <> ∅ ->
  build_edge_matrix s = Ok (Sparse (length (_images s)) (weights s)).
Proof.
  intros [Hkeys _] Hne. unfold build_edge_matrix.
  rewrite py_max_lengths by done. cbn. unfold csr_matrix.
  rewrite decide_True; [done|].
  intros [i j] w Hw. apply lookup_fmap_Some in Hw as (v & _ & Hv).
  cbn. specialize (Hkeys (i, j) v Hv). cbn in Hkeys. lia.
Qed.

Lemma session_not_empty (s : ImageStitcher) :
  well_formed s -> _matches s <> ∅ -> length (_images s) <> 0.
Proof.
  intros [Hkeys _] Hne.
  apply map_choose in Hne as ([i j] & v & Hv).
  specialize (Hkeys (i, j) v Hv). cbn in Hkeys. lia.
Qed.

(** On a well-formed session with a match record, [_edge_matrix] returns
    the matrix of the stored records and leaves it in the cache. *)
Lemma edge_matrix_ok (s : ImageStitcher) :
  well_formed s -> _matches s <> ∅ ->
  let g := Sparse (length (_images s)) (weights s) in
  _edge_matrix s = (set_current_edge_matrix s (Some g), Ok g) \/
  (_current_edge_matrix s = Some g /\ _edge_matrix s = (s, Ok g)).
Proof.
  intros Hwf Hne g. pose proof (session_not_empty s Hwf Hne) as Hlen.
  pose proof (build_edge_matrix_ok s Hwf Hne) as Hbuild.
  unfold _edge_matrix. rewrite decide_False by done. rewrite Hbuild.
  destruct (_current_edge_matrix s) as [current|] eqn:Hcur; [|by left].
  destruct (decide (shape current = length (_images s))) as [Hshape|]; [|by left].
  right. destruct Hwf as [_ Hcache].
  destruct (Hcache current Hcur) as [_ Hsame].
  specialize (Hsame Hshape). rewrite Hbuild in Hsame.
  injection Hsame as <-. done.
Qed.

Lemma build_edge_matrix_shape (s : ImageStitcher) (m : sparse) :
  build_edge_matrix s = Ok m -> shape m = length (_images s).
Proof.
  unfold build_edge_matrix. destruct (py_max _); [|done]. cbn.
  unfold csr_matrix. destruct (decide _); [|done]. by intros [= <-].
Qed.

Lemma edge_matrix_well_formed (s s' : ImageStitcher) (r : result sparse) :
  well_formed s -> _edge_matrix s = (s', r) -> well_formed s'.
Proof.
  intros Hwf. unfold _edge_matrix.
  destruct (decide (length (_images s) = 0)); [by intros [= <- _]|].
  assert (forall m, build_edge_matrix s = Ok m ->
                    well_formed (set_current_edge_matrix s (Some m))) as Hset.
  { intros m Hm. destruct Hwf as [Hkeys _]. split; [exact Hkeys|].
    cbn. intros m' [= <-]. split; [|intros _; exact Hm].
    apply build_edge_matrix_shape in Hm. lia. }
  destruct (_current_edge_matrix s) as [current|] eqn:Hcur.
  - destruct (decide (shape current = length (_images s))).
    + by intros [= <- _].
    + destruct (build_edge_matrix s) eqn:Hb; intros [= <- _]; auto.
  - destruct (build_edge_matrix s) eqn:Hb; intros [= <- _]; auto.
Qed.

End MatchGraph.

(** *** C10: the weights of the match graph *)

Section EdgeWeights.
Context `{VP : VisionPrimitives}.

(** C10.  On a session that holds a match record, the matrix that
    [_edge_matrix] returns stores, for exactly the recorded pairs, the
    largest correspondence count plus one minus the count of the pair,
    and every stored weight is at least one. *)
Theorem edge_weights_positive (s : ImageStitcher) :
  well_formed s -> _matches s <> ∅ ->
  exists s' g,
    _edge_matrix s = (s', Ok g) /\
    shape g = length (_images s) /\
    (forall k, entries g !! k =
               (fun v : list DMatch =>
                  (Z.of_nat (max_count s) + 1 - Z.of_nat (length v))%Z)
                 <$> _matches s !! k) /\
    (forall k w, entries g !! k = Some w -> (1 <= w)%Z).
Proof.
  intros Hwf Hne.
  assert (forall k w, weights s !! k = Some w -> (1 <= w)%Z) as Hpos.
  { intros k w Hw. apply lookup_fmap_Some in Hw as (v & <- & Hv).
    apply max_count_upper in Hv. lia. }
  assert (forall k, weights s !! k =
               (fun v : list DMatch =>
                  (Z.of_nat (max_count s) + 1 - Z.of_nat (length v))%Z)
                 <$> _matches s !! k) as Hw.
  { intros k. unfold weights. by rewrite lookup_fmap. }
  destruct (edge_matrix_ok s Hwf Hne) as [H|[_ H]];
    eexists _, _; (split; [exact H|]); cbn; done.
Qed.

End EdgeWeights.

Lemma chain_well_formed : well_formed Demo.chain.
Proof.
  split; [|intros m Hm; discriminate].
  apply map_Forall_insert_2; [cbn; lia|].
  apply map_Forall_singleton. cbn; lia.
Qed.

Lemma chain_has_records : _matches Demo.chain <> ∅.
Proof. apply insert_non_empty. Qed.

Lemma edge_weights_positive_witness :
  exists s' g,
    _edge_matrix Demo.chain = (s', Ok g) /\
    shape g = 3 /\
    (forall k, entries g !! k =
               (fun v : list DMatch =>
                  (Z.of_nat (max_count Demo.chain) + 1 - Z.of_nat (length v))%Z)
                 <$> _matches Demo.chain !! k) /\
    (forall k w, entries g !! k = Some w -> (1 <= w)%Z).
Proof.
  exact (edge_weights_positive Demo.chain chain_well_formed chain_has_records).
Defined.

Example chain_weights :
  (_edge_matrix Demo.chain).2
  = Ok (Sparse 3 (<[(1, 0) := 1%Z]> {[(2, 1) := 6%Z]})).
Proof. vm_compute. reflexivity. Qed.

(** *** C1: a session with a single image *)

Section SingleImage.
Context `{VP : VisionPrimitives} `{GP : GraphPrimitives}.

Lemma no_records_build_raises (s : ImageStitcher) :
  _matches s = ∅ ->
  build_edge_matrix s = Raise (ValueError "max() arg is an empty sequence").
Proof.
  intros Hnone. unfold build_edge_matrix.
  by rewrite py_max_no_records.
Qed.

(** Without a match record the property [_edge_matrix] raises from the
    [max] over the empty store, whatever the number of images. *)
Lemma edge_matrix_no_records (s : ImageStitcher) :
  well_formed s -> _matches s = ∅ -> length (_images s) <> 0 ->
  _edge_matrix s = (s, Raise (ValueError "max() arg is an empty sequence")).
Proof.
  intros [_ Hcache] Hnone Hlen. unfold _edge_matrix.
  rewrite decide_False by done.
  rewrite no_records_build_raises by done.
  destruct (_current_edge_matrix s) as [current|] eqn:Hcur; [|done].
  destruct (decide (shape current = length (_images s))) as [Hshape|]; [|done].
  destruct (Hcache current eq_refl) as [_ Hsame].
  specialize (Hsame Hshape).
  by rewrite no_records_build_raises in Hsame.
Qed.

Lemma single_image_no_records (s : ImageStitcher) :
  well_formed s -> length (_images s) = 1 -> _matches s = ∅.
Proof.
  intros [Hkeys _] Hlen.
  destruct (decide (_matches s = ∅)) as [|Hne]; [done|].
  apply map_choose in Hne as ([i j] & v & Hv).
  specialize (Hkeys (i, j) v Hv). cbn in Hkeys. lia.
Qed.

Lemma stitch_no_records (s : ImageStitcher) (fuel : nat) :
  well_formed s -> _matches s = ∅ -> length (_images s) <> 0 ->
  stitch fuel s = (s, Failed (ValueError "max() arg is an empty sequence")).
Proof.
  intros Hwf Hnone Hlen.
  unfold stitch, spanning_tree, validate, and_then.
  by rewrite edge_matrix_no_records.
Qed.

(** C1, on the code: for a session that holds exactly one image,
    [stitch] does not return the image; it raises the [ValueError] of
    [max] on an empty sequence, from the first read of [_edge_matrix]. *)
Theorem single_image_stitch_raises (s : ImageStitcher) (fuel : nat) :
  well_formed s -> length (_images s) = 1 ->
  stitch fuel s = (s, Failed (ValueError "max() arg is an empty sequence")).
Proof.
  intros Hwf Hlen. apply stitch_no_records; [done| |lia].
  by apply single_image_no_records.
Qed.

End SingleImage.

Lemma single_well_formed : well_formed Demo.single.
Proof. split; [apply map_Forall_empty|intros m Hm; discriminate]. Qed.

Lemma single_image_stitch_raises_witness :
  stitch (GP := Demo.graph) 10 Demo.single
  = (Demo.single, Failed (ValueError "max() arg is an empty sequence")).
Proof.
  exact (single_image_stitch_raises (GP := Demo.graph) Demo.single 10
           single_well_formed eq_refl).
Defined.

(** The same session as the calls of the library build it. *)
Example added_single_image_raises :
  (stitch (GP := Demo.graph) 10
     (add_image (VP := Demo.vision) new_session (Demo.picture 2 3) "A")).2
  = Failed (ValueError "max() arg is an empty sequence").
Proof. reflexivity. Qed.

(** *** First extreme element of an array *)

Section ArgBest.
Context {A : Type} (better : A -> A -> bool).
Hypothesis better_asym : forall a b, better a b = true -> better b a = false.
Hypothesis better_trans :
  forall x a b, better x b = true -> better a b = false -> better x a = true.

(** [i] is the position of the first element that none beats. *)
Definition first_best (l : list A) (i : nat) : Prop :=
  exists v, l !! i = Some v /\
    (forall j w, l !! j = Some w -> better w v = false) /\
    (forall j w, j < i -> l !! j = Some w -> better v w = true).

Lemma argbest_from_spec (l pre : list A) (best_i : nat) (best : A) :
  pre !! best_i = Some best ->
  (forall j w, pre !! j = Some w -> better w best = false) ->
  (forall j w, j < best_i -> pre !! j = Some w -> better best w = true) ->
  first_best (pre ++ l) (argbest_from better l (length pre) best_i best).
Proof.
  revert pre best_i best.
  induction l as [|x l IH]; intros pre best_i best Hbest Hnone Hbefore; cbn.
  - rewrite app_nil_r. exists best. done.
  - replace (pre ++ x :: l) with ((pre ++ [x]) ++ l) by by rewrite <- app_assoc.
    replace (S (length pre)) with (length (pre ++ [x]))
      by (rewrite length_app; cbn; lia).
    destruct (better x best) eqn:Hx.
    + apply IH.
      * by rewrite lookup_app_r, Nat.sub_diag.
      * intros j w Hj. apply lookup_app_Some in Hj as [Hj|[_ Hj]].
        -- apply better_asym. eapply better_trans; [exact Hx|]. by eapply Hnone.
        -- apply list_lookup_singleton_Some in Hj as [_ <-].
           destruct (better x x) eqn:Hxx; [|done].
           by rewrite (better_asym _ _ Hxx) in Hxx.
      * intros j w Hlt Hj. rewrite lookup_app_l in Hj by done.
        eapply better_trans; [exact Hx|]. by eapply Hnone.
    + apply IH.
      * apply lookup_app_l_Some. done.
      * intros j w Hj. apply lookup_app_Some in Hj as [Hj|[_ Hj]].
        -- by eapply Hnone.
        -- by apply list_lookup_singleton_Some in Hj as [_ <-].
      * intros j w Hlt Hj. apply lookup_lt_Some in Hbest.
        rewrite lookup_app_l in Hj by lia. by eapply Hbefore.
Qed.

Lemma argbest_spec (l : list A) :
  l <> [] -> first_best l (argbest better l).
Proof.
  destruct l as [|x l]; [done|]. intros _. cbn.
  apply (argbest_from_spec l [x] 0 x); [done| |intros; lia].
  intros j w Hj. apply list_lookup_singleton_Some in Hj as [_ <-].
  destruct (better x x) eqn:Hxx; [|done].
  by rewrite (better_asym _ _ Hxx) in Hxx.
Qed.

Lemma first_best_unique (l : list A) (i j : nat) :
  first_best l i -> first_best l j -> i = j.
Proof.
  intros (v & Hv & Hnone & Hbefore) (w & Hw & Hnone' & Hbefore').
  destruct (Nat.lt_trichotomy i j) as [Hlt|[->|Hlt]]; [|done|].
  - specialize (Hbefore' i v Hlt Hv). by rewrite (Hnone j w Hw) in Hbefore'.
  - specialize (Hbefore j w Hlt Hw). by rewrite (Hnone' i v Hv) in Hbefore.
Qed.

End ArgBest.

(** *** Connected components *)

(** Two nodes are linked by a list of edges when a path of edges, taken
    in either direction, leads from one to the other. *)
Definition linked (l : list (nat * nat)) : relation nat :=
  rtsc (fun i j => (i, j) ∈ l).

(** Connectivity in the match graph. *)
Definition connected (g : sparse) : relation nat := linked (edges g).

Lemma elem_of_edges (g : sparse) (i j : nat) :
  (i, j) ∈ edges g <-> is_Some (entries g !! (i, j)).
Proof.
  unfold edges. rewrite list_elem_of_fmap. split.
  - intros ([k w] & [= <-] & Hin). apply elem_of_map_to_list in Hin. eauto.
  - intros [w Hw]. exists ((i, j), w). split; [done|].
    by apply elem_of_map_to_list.
Qed.

Lemma linked_refl (l : list (nat * nat)) (i : nat) : linked l i i.
Proof. apply rtc_refl. Qed.

Lemma linked_sym (l : list (nat * nat)) (i j : nat) :
  linked l i j -> linked l j i.
Proof. intros H. unfold linked in *. by symmetry. Qed.

Lemma linked_trans (l : list (nat * nat)) (i j k : nat) :
  linked l i j -> linked l j k -> linked l i k.
Proof. intros H1 H2. unfold linked in *. by etrans. Qed.

Lemma linked_edge (l : list (nat * nat)) (i j : nat) :
  (i, j) ∈ l -> linked l i j.
Proof. intros H. apply rtsc_lr. done. Qed.

(** Adjacent nodes are connected. *)
Lemma adjacent_connected (g : sparse) (i j : nat) :
  adjacent g i j -> connected g i j.
Proof.
  intros [H|H]; apply elem_of_edges in H.
  - by apply linked_edge.
  - by apply linked_sym, linked_edge.
Qed.

Lemma linked_nil (i j : nat) : linked [] i j <-> i = j.
Proof.
  split; [|intros ->; apply linked_refl].
  intros H. induction H as [|x y z [H|H] _ _]; [done|..];
    by apply elem_of_nil in H.
Qed.

Lemma linked_mono (l l' : list (nat * nat)) (i j : nat) :
  l ⊆ l' -> linked l i j -> linked l' i j.
Proof.
  intros Hsub H. induction H as [|x y z Hxy _ IH]; [apply linked_refl|].
  eapply linked_trans; [|exact IH].
  destruct Hxy as [Hxy|Hxy].
  - apply linked_edge. by apply Hsub.
  - apply linked_sym, linked_edge. by apply Hsub.
Qed.

(** Adding an edge joins exactly the nodes that were linked to one of its
    endpoints. *)
Lemma linked_snoc (l : list (nat * nat)) (a b i j : nat) :
  linked (l ++ [(a, b)]) i j <->
  linked l i j \/
  ((linked l i a \/ linked l i b) /\ (linked l j a \/ linked l j b)).
Proof.
  split.
  - intros H. induction H as [x|x y z Hxy _ IH]; [left; apply linked_refl|].
    assert (linked l x y \/
            ((linked l x a \/ linked l x b) /\ (linked l y a \/ linked l y b)))
      as Hstep.
    { destruct Hxy as [Hxy|Hxy];
        apply elem_of_app in Hxy as [Hxy|Hxy].
      - left. by apply linked_edge.
      - apply list_elem_of_singleton in Hxy as [= -> ->].
        right. split; [left|right]; apply linked_refl.
      - left. by apply linked_sym, linked_edge.
      - apply list_elem_of_singleton in Hxy as [= -> ->].
        right. split; [right|left]; apply linked_refl. }
    destruct Hstep as [Hl|[Hx Hy]], IH as [Hl'|[Hy' Hz]].
    + left. by eapply linked_trans.
    + right. split; [|done].
      destruct Hy' as [Hy'|Hy']; [left|right]; by eapply linked_trans.
    + right. split; [done|].
      apply linked_sym in Hl'.
      destruct Hy as [Hy|Hy]; [left|right]; by eapply linked_trans.
    + right. done.
  - assert (linked (l ++ [(a, b)]) a b) as Hab.
    { apply linked_edge, elem_of_app. right. left. }
    assert (forall x y, linked l x y -> linked (l ++ [(a, b)]) x y) as Hup.
    { intros x y. apply linked_mono. intros e He. apply elem_of_app. by left. }
    intros [H|[Hi Hj]]; [by apply Hup|].
    assert (forall x, linked l x a \/ linked l x b ->
                      linked (l ++ [(a, b)]) x a) as Hto.
    { intros x [Hx|Hx]; [by apply Hup|].
      eapply linked_trans; [apply Hup, Hx|]. by apply linked_sym. }
    eapply linked_trans; [apply Hto, Hi|]. apply linked_sym, Hto, Hj.
Qed.

(** The table of representatives after the edges [l] have been merged:
    every node points to a node of its class that points to itself and is
    not larger, and two nodes have the same representative exactly when
    they are linked. *)
Definition represents (n : nat) (l : list (nat * nat)) (reps : list nat)
  : Prop :=
  length reps = n /\
  (forall i r, reps !! i = Some r -> r <= i /\ reps !! r = Some r) /\
  (forall i j ri rj, reps !! i = Some ri -> reps !! j = Some rj ->
                     (ri = rj <-> linked l i j)).

Lemma represents_init (n : nat) : represents n [] (seq 0 n).
Proof.
  split_and!.
  - apply length_seq.
  - intros i r Hi. apply lookup_seq in Hi as [-> Hlt]. cbn.
    split; [lia|]. by apply lookup_seq.
  - intros i j ri rj Hi Hj.
    apply lookup_seq in Hi as [-> _]. apply lookup_seq in Hj as [-> _].
    cbn. by rewrite linked_nil.
Qed.

Lemma represents_merge (n : nat) (l : list (nat * nat)) (reps : list nat)
    (a0 b0 : nat) :
  a0 < n -> b0 < n -> represents n l reps ->
  represents n (l ++ [(a0, b0)]) (merge reps (a0, b0)).
Proof.
  intros Ha0 Hb0 (Hlen & Hroot & Hlink). unfold merge; cbn.
  destruct (lookup_lt_is_Some_2 reps a0) as [a Ha]; [lia|].
  destruct (lookup_lt_is_Some_2 reps b0) as [b Hb]; [lia|].
  rewrite Ha, Hb.
  destruct (Hroot _ _ Ha) as [_ Haa]. destruct (Hroot _ _ Hb) as [_ Hbb].
  split_and!.
  - by rewrite length_fmap.
  - intros i r' Hi. rewrite list_lookup_fmap in Hi.
    destruct (reps !! i) as [r|] eqn:Hr; [|done]. injection Hi as <-.
    destruct (Hroot _ _ Hr) as [Hle Hrr].
    destruct (Hroot _ _ Haa) as [Hlea _]. destruct (Hroot _ _ Hbb) as [Hleb _].
    rewrite list_lookup_fmap.
    destruct (decide (r = a `max` b)) as [->|Hne].
    + split; [lia|].
      destruct (Nat.min_spec a b) as [[_ ->]|[_ ->]].
      * rewrite Haa. cbn. f_equal. case_decide; lia.
      * rewrite Hbb. cbn. f_equal. case_decide; lia.
    + split; [lia|]. rewrite Hrr. cbn. f_equal. by rewrite decide_False.
  - intros i j ri' rj' Hi Hj. rewrite list_lookup_fmap in Hi, Hj.
    destruct (reps !! i) as [ri|] eqn:Hri; [|done].
    destruct (reps !! j) as [rj|] eqn:Hrj; [|done].
    injection Hi as <-. injection Hj as <-.
    rewrite linked_snoc.
    rewrite <- (Hlink i j ri rj Hri Hrj).
    rewrite <- (Hlink i a0 ri a Hri Ha), <- (Hlink i b0 ri b Hri Hb).
    rewrite <- (Hlink j a0 rj a Hrj Ha), <- (Hlink j b0 rj b Hrj Hb).
    repeat case_decide; lia.
Qed.

Lemma represents_foldl (n : nat) (todo done_ : list (nat * nat))
    (reps : list nat) :
  Forall (fun e : nat * nat => e.1 < n /\ e.2 < n) todo ->
  represents n done_ reps ->
  represents n (done_ ++ todo) (foldl merge reps todo).
Proof.
  revert done_ reps.
  induction todo as [|[a b] todo IH]; intros done_ reps Hrange Hrep; cbn.
  - by rewrite app_nil_r.
  - apply Forall_cons in Hrange as [[Ha Hb] Hrange]. cbn in Ha, Hb.
    replace (done_ ++ (a, b) :: todo) with ((done_ ++ [(a, b)]) ++ todo)
      by by rewrite <- app_assoc.
    apply IH; [done|]. by apply represents_merge.
Qed.

(** The positions stored in the matrix lie inside its shape. *)
Definition in_range (g : sparse) : Prop :=
  map_Forall (fun (k : nat * nat) (_ : Z) => k.1 < shape g /\ k.2 < shape g)
    (entries g).

Lemma representatives_spec (g : sparse) :
  in_range g -> represents (shape g) (edges g) (representatives g).
Proof.
  intros Hrange. unfold representatives.
  apply (represents_foldl (shape g) (edges g) [] (seq 0 (shape g)));
    [|apply represents_init].
  apply Forall_forall. intros [i j] Hin.
  apply list_elem_of_fmap in Hin as ([k w] & [= <-] & Hin).
  apply elem_of_map_to_list in Hin. by apply Hrange in Hin.
Qed.

Lemma filter_length_mono {A : Type} (P Q : A -> Prop)
    `{!forall x, Decision (P x)} `{!forall x, Decision (Q x)} (l : list A) :
  (forall x, P x -> Q x) -> length (filter P l) <= length (filter Q l).
Proof.
  intros HPQ. induction l as [|x l IH]; [done|].
  rewrite !filter_cons. destruct (decide (P x)) as [HP|HP].
  - rewrite decide_True by auto. cbn. lia.
  - destruct (decide (Q x)); cbn; lia.
Qed.

Lemma filter_length_strict {A : Type} (P Q : A -> Prop)
    `{!forall x, Decision (P x)} `{!forall x, Decision (Q x)} (l : list A)
    (a : A) :
  (forall x, P x -> Q x) -> a ∈ l -> Q a -> ~ P a ->
  length (filter P l) < length (filter Q l).
Proof.
  intros HPQ Hin HQ HP. induction l as [|x l IH]; [by apply elem_of_nil in Hin|].
  rewrite !filter_cons. apply elem_of_cons in Hin as [<-|Hin].
  - rewrite decide_False, decide_True by done. cbn.
    pose proof (filter_length_mono P Q l HPQ). lia.
  - specialize (IH Hin). destruct (decide (P x)) as [HPx|HPx].
    + rewrite decide_True by auto. cbn. lia.
    + destruct (decide (Q x)); cbn; lia.
Qed.

Section Components.
Variable g : sparse.
Hypothesis g_in_range : in_range g.

(** The nodes that represent a component: the least node of each. *)
Definition roots : list nat :=
  filter (fun r => representatives g !! r = Some r) (seq 0 (shape g)).

(** The label of the component that a root represents. *)
Definition rank (r : nat) : nat := length (filter (fun x => x < r) roots).

Lemma connected_components_unfold :
  connected_components g = (length roots, rank <$> representatives g).
Proof. reflexivity. Qed.

Lemma elem_of_roots (r : nat) :
  r ∈ roots <-> representatives g !! r = Some r.
Proof.
  unfold roots. rewrite list_elem_of_filter, elem_of_seq.
  split; [by intros [? _]|]. intros Hr. split; [done|].
  apply lookup_lt_Some in Hr.
  destruct (representatives_spec g g_in_range) as [Hlen _]. lia.
Qed.

Lemma representative_exists (i : nat) :
  i < shape g -> exists r, representatives g !! i = Some r /\ r ∈ roots.
Proof.
  intros Hi. destruct (representatives_spec g g_in_range) as (Hlen & Hroot & _).
  destruct (lookup_lt_is_Some_2 (representatives g) i) as [r Hr]; [lia|].
  exists r. split; [done|]. apply elem_of_roots. by apply (Hroot i r Hr).
Qed.

Lemma rank_mono (r1 r2 : nat) : r1 <= r2 -> rank r1 <= rank r2.
Proof. intros Hle. apply filter_length_mono. intros x. lia. Qed.

Lemma rank_strict (r1 r2 : nat) : r1 ∈ roots -> r1 < r2 -> rank r1 < rank r2.
Proof.
  intros Hin Hlt. apply (filter_length_strict _ _ _ r1); [|done|done|]; intros; lia.
Qed.

Lemma rank_lt_iff (r1 r2 : nat) :
  r1 ∈ roots -> r2 ∈ roots -> (rank r1 < rank r2 <-> r1 < r2).
Proof.
  intros H1 H2. split; [|by apply rank_strict].
  intros Hlt. destruct (decide (r1 < r2)) as [|Hge]; [done|].
  assert (r2 <= r1) as Hle by lia. apply rank_mono in Hle. lia.
Qed.

Lemma rank_inj (r1 r2 : nat) :
  r1 ∈ roots -> r2 ∈ roots -> rank r1 = rank r2 -> r1 = r2.
Proof.
  intros H1 H2 Heq.
  destruct (Nat.lt_trichotomy r1 r2) as [Hlt|[->|Hlt]]; [|done|].
  - apply (rank_strict _ _ H1) in Hlt. lia.
  - apply (rank_strict _ _ H2) in Hlt. lia.
Qed.

Lemma rank_bound (r : nat) : r ∈ roots -> rank r < length roots.
Proof. intros Hin. apply (length_filter_lt _ _ r); [done|lia]. Qed.

Lemma groups_length : length (connected_components g).2 = shape g.
Proof.
  cbn. rewrite length_fmap.
  by destruct (representatives_spec g g_in_range) as [-> _].
Qed.

Lemma groups_lookup (i l : nat) :
  (connected_components g).2 !! i = Some l <->
  exists r, representatives g !! i = Some r /\ r ∈ roots /\ l = rank r.
Proof.
  cbn. rewrite list_lookup_fmap. split.
  - destruct (representatives g !! i) as [r|] eqn:Hr; [|done].
    intros [= <-]. exists r. split_and!; [done| |done].
    apply elem_of_roots.
    destruct (representatives_spec g g_in_range) as (_ & Hroot & _).
    by apply (Hroot i r Hr).
  - intros (r & -> & _ & ->). done.
Qed.

(** Two nodes carry the same label exactly when they are connected. *)
Lemma same_label_iff_connected (i j li lj : nat) :
  (connected_components g).2 !! i = Some li ->
  (connected_components g).2 !! j = Some lj ->
  (li = lj <-> connected g i j).
Proof.
  intros Hi Hj.
  apply groups_lookup in Hi as (ri & Hri & Hrooti & ->).
  apply groups_lookup in Hj as (rj & Hrj & Hrootj & ->).
  destruct (representatives_spec g g_in_range) as (_ & _ & Hlink).
  unfold connected. rewrite <- (Hlink i j ri rj Hri Hrj).
  split; [by apply rank_inj|by intros ->].
Qed.

(** The representative of a node is the least node of its component. *)
Lemma representative_least (i r : nat) :
  representatives g !! i = Some r ->
  connected g i r /\
  forall j, j < shape g -> connected g i j -> r <= j.
Proof.
  intros Hr.
  destruct (representatives_spec g g_in_range) as (Hlen & Hroot & Hlink).
  destruct (Hroot _ _ Hr) as [_ Hrr]. split.
  - unfold connected. by rewrite <- (Hlink i r r r Hr Hrr).
  - intros j Hj Hconn.
    destruct (lookup_lt_is_Some_2 (representatives g) j) as [rj Hrj]; [lia|].
    apply (Hlink i j r rj Hr Hrj) in Hconn as ->.
    by apply Hroot in Hrj as [? _].
Qed.

(** The labels number the components in the order of their least
    nodes, which is the order in which a scan of the nodes meets them. *)
Lemma label_order_is_discovery_order (i j li lj ri rj : nat) :
  (connected_components g).2 !! i = Some li ->
  (connected_components g).2 !! j = Some lj ->
  representatives g !! i = Some ri ->
  representatives g !! j = Some rj ->
  (li < lj <-> ri < rj).
Proof.
  intros Hi Hj Hri Hrj.
  apply groups_lookup in Hi as (ri' & Hri' & Hrooti & ->).
  apply groups_lookup in Hj as (rj' & Hrj' & Hrootj & ->).
  rewrite Hri in Hri'. rewrite Hrj in Hrj'.
  injection Hri' as <-. injection Hrj' as <-.
  by apply rank_lt_iff.
Qed.

Lemma label_bound (i l : nat) :
  (connected_components g).2 !! i = Some l -> l < (connected_components g).1.
Proof.
  intros Hi. apply groups_lookup in Hi as (r & _ & Hroot & ->).
  cbn. by apply rank_bound.
Qed.

(** The graph counts one component exactly when all its nodes are
    connected with one another. *)
Lemma one_component_iff_connected :
  0 < shape g ->
  ((connected_components g).1 = 1 <->
   forall i j, i < shape g -> j < shape g -> connected g i j).
Proof.
  intros Hpos. rewrite connected_components_unfold. cbn [fst].
  destruct (representatives_spec g g_in_range) as (Hlen & Hroot & Hlink).
  split.
  - intros Hone i j Hi Hj.
    destruct (representative_exists i Hi) as (ri & Hri & Hrooti).
    destruct (representative_exists j Hj) as (rj & Hrj & Hrootj).
    unfold connected. rewrite <- (Hlink i j ri rj Hri Hrj).
    destruct roots as [|r0 [|r1 rest]] eqn:Hroots; [done| |done].
    apply list_elem_of_singleton in Hrooti, Hrootj. congruence.
  - intros Hall.
    destruct (representative_exists 0 Hpos) as (r0 & Hr0 & Hroot0).
    assert (forall r, r ∈ roots -> r = r0) as Hsame.
    { intros r Hr. apply elem_of_roots in Hr.
      assert (r < shape g) as Hlt by (apply lookup_lt_Some in Hr; lia).
      apply (Hlink r 0 r r0 Hr Hr0). by apply Hall. }
    assert (NoDup roots) as Hnodup.
    { unfold roots. apply NoDup_filter, NoDup_seq. }
    destruct roots as [|a [|b rest]] eqn:Hroots; [by apply elem_of_nil in Hroot0|done|].
    exfalso. apply NoDup_cons in Hnodup as [Hnotin _]. apply Hnotin.
    rewrite (Hsame a) by left. rewrite (Hsame b) by (right; left). left.
Qed.

End Components.

(** *** C6: validation *)

(** The number of nodes that carry a label. *)
Definition component_size (groups : list nat) (l : nat) : nat :=
  length (filter (fun x => x = l) groups).

(** The majority label: no label occurs more often, and every smaller
    label (a component met earlier) occurs strictly less often. *)
Definition majority (groups : list nat) (ml : nat) : Prop :=
  (forall l, component_size groups l <= component_size groups ml) /\
  (forall l, l < ml -> component_size groups l < component_size groups ml).

Lemma component_size_absent (groups : list nat) (l : nat) :
  max_list groups < l -> component_size groups l = 0.
Proof.
  intros Hlt. unfold component_size.
  induction groups as [|x groups IH]; [done|]. cbn in Hlt.
  rewrite filter_cons, decide_False by lia. apply IH. lia.
Qed.

Lemma bincount_lookup (groups : list nat) (l : nat) :
  groups <> [] -> l <= max_list groups ->
  bincount groups !! l = Some (component_size groups l).
Proof.
  intros Hne Hle. unfold bincount. destruct groups as [|x groups]; [done|].
  rewrite list_lookup_fmap.
  rewrite (proj2 (lookup_seq 0 (S (max_list (x :: groups))) l l)); [done|].
  split; [done|lia].
Qed.

Lemma bincount_length (groups : list nat) :
  groups <> [] -> length (bincount groups) = S (max_list groups).
Proof.
  intros Hne. unfold bincount. destruct groups; [done|].
  by rewrite length_fmap, length_seq.
Qed.

Lemma argmax_bincount_majority (groups : list nat) :
  groups <> [] -> majority groups (argmax (bincount groups)).
Proof.
  intros Hne. unfold argmax.
  assert (bincount groups <> []) as Hne'.
  { intros Hnil. apply (f_equal length) in Hnil.
    rewrite bincount_length in Hnil by done. done. }
  destruct (argbest_spec (fun x best => bool_decide (best < x))) with
    (l := bincount groups) as (v & Hv & Hnone & Hbefore); [| |done|].
  { intros a b Hab. apply bool_decide_eq_true in Hab.
    apply bool_decide_eq_false. lia. }
  { intros x a b Hxb Hab. apply bool_decide_eq_true in Hxb.
    apply bool_decide_eq_false in Hab. apply bool_decide_eq_true. lia. }
  set (ml := argbest _ _) in *.
  assert (ml <= max_list groups) as Hml.
  { apply lookup_lt_Some in Hv. rewrite bincount_length in Hv by done. lia. }
  rewrite bincount_lookup in Hv by done. injection Hv as <-.
  split.
  - intros l. destruct (decide (l <= max_list groups)) as [Hl|Hl].
    + specialize (Hnone l _ (bincount_lookup groups l Hne Hl)).
      apply bool_decide_eq_false in Hnone. lia.
    + rewrite (component_size_absent groups l) by lia. lia.
  - intros l Hlt.
    assert (l <= max_list groups) as Hl by lia.
    specialize (Hbefore l _ Hlt (bincount_lookup groups l Hne Hl)).
    by apply bool_decide_eq_true in Hbefore.
Qed.

Lemma majority_unique (groups : list nat) (l1 l2 : nat) :
  majority groups l1 -> majority groups l2 -> l1 = l2.
Proof.
  intros [Hmax1 Hfirst1] [Hmax2 Hfirst2].
  destruct (Nat.lt_trichotomy l1 l2) as [Hlt|[->|Hlt]]; [|done|].
  - specialize (Hfirst2 l1 Hlt). specialize (Hmax1 l2). lia.
  - specialize (Hfirst1 l2 Hlt). specialize (Hmax2 l1). lia.
Qed.

Lemma traverse_getitem {A B : Type} (f : A -> B) (d : B) (l : list A)
    (idxs : list nat) :
  Forall (fun i => i < length l) idxs ->
  traverse (fun i => x <-! getitem l i; Ok (f x)) idxs
  = Ok ((fun i => default d (f <$> l !! i)) <$> idxs).
Proof.
  induction idxs as [|i idxs IH]; [done|]. intros Hall.
  apply Forall_cons in Hall as [Hi Hall]. cbn.
  unfold getitem at 1.
  destruct (lookup_lt_is_Some_2 l i Hi) as [x Hx]. rewrite Hx. cbn.
  by rewrite IH.
Qed.

Section Validation.
Context `{VP : VisionPrimitives}.

(** The name of the image at a position of the session. *)
Definition image_name (s : ImageStitcher) (i : nat) : string :=
  default "" (name <$> _images s !! i).

(** The match graph of a session. *)
Definition match_graph (s : ImageStitcher) : sparse :=
  Sparse (length (_images s)) (weights s).

Lemma match_graph_in_range (s : ImageStitcher) :
  well_formed s -> in_range (match_graph s).
Proof.
  intros [Hkeys _] [i j] w Hw. cbn in *.
  apply lookup_fmap_Some in Hw as (v & _ & Hv).
  specialize (Hkeys (i, j) v Hv). cbn in Hkeys. lia.
Qed.

Lemma validate_after_edge_matrix (s s' : ImageStitcher) (g : sparse) :
  _edge_matrix s = (s', Ok g) ->
  _images s' = _images s ->
  shape g = length (_images s) ->
  in_range g ->
  let cc := (connected_components g).1 in
  let groups := (connected_components g).2 in
  (cc = 1 -> validate s = (s', Ok tt)) /\
  (cc <> 1 ->
   validate s =
     (s', Raise (ValueError (could_not_be_stitched
                   (image_name s <$>
                      where_ne groups (argmax (bincount groups))))))).
Proof.
  intros Hedge Himages Hshape Hrange cc groups.
  unfold validate, and_then. rewrite Hedge.
  rewrite (surjective_pairing (connected_components g)).
  fold cc groups.
  assert (length groups = shape g) as Hgroups by by apply groups_length.
  clearbody cc groups. split; intros Hcc.
  - by rewrite decide_True.
  - rewrite decide_False by done. unfold read, lift, throw. cbn.
    rewrite (traverse_getitem name "").
    + unfold image_name. by rewrite Himages.
    + apply Forall_forall. intros i Hi.
      apply list_elem_of_filter in Hi as [_ Hi]. apply elem_of_seq in Hi.
      rewrite Himages. lia.
Qed.

(** C6, as the code has it.  Without an image [validate] raises the
    error of the empty session.  On a session with a match record it
    returns when all images are connected in the match graph, and
    otherwise raises the error that names, in increasing order of their
    position, exactly the images whose label differs from the majority
    label: the label that occurs most often and, among those, the
    smallest one, that is, the component met first. *)
Theorem validate_names_minority (s : ImageStitcher) :
  (_images s = [] ->
   validate s = (s, Raise (ValueError "Must have at least one image!"))) /\
  (well_formed s -> _matches s <> ∅ ->
   let g := match_graph s in
   let groups := (connected_components g).2 in
   let all_connected :=
     forall i j, i < length (_images s) -> j < length (_images s) ->
                 connected g i j in
   ((validate s).2 = Ok tt <-> all_connected) /\
   ((connected_components g).1 = 1 <-> all_connected) /\
   (~ all_connected ->
    exists ml,
      majority groups ml /\
      (validate s).2 =
        Raise (ValueError (could_not_be_stitched
                 (image_name s <$>
                    filter (fun i => groups !! i <> Some ml)
                      (seq 0 (length (_images s)))))))).
Proof.
  split.
  { intros Hnone. unfold validate, and_then, _edge_matrix.
    rewrite Hnone. done. }
  intros Hwf Hne g groups all_connected.
  pose proof (match_graph_in_range s Hwf) as Hrange.
  pose proof (session_not_empty s Hwf Hne) as Hlen.
  pose proof (one_component_iff_connected g Hrange) as Hone.
  cbn [shape match_graph g] in Hone. specialize (Hone ltac:(lia)).
  fold g in Hone. fold all_connected in Hone.
  assert (exists s', _edge_matrix s = (s', Ok g) /\ _images s' = _images s)
    as (s' & Hedge & Himages).
  { destruct (edge_matrix_ok s Hwf Hne) as [H|[_ H]]; eauto. }
  destruct (validate_after_edge_matrix s s' g Hedge Himages eq_refl Hrange)
    as [Hgood Hbad].
  assert (length groups = length (_images s)) as Hgroups.
  { unfold groups. by rewrite groups_length. }
  split_and!; [|done|].
  - rewrite <- Hone. split.
    + intros Hok. destruct (decide ((connected_components g).1 = 1)); [done|].
      rewrite Hbad in Hok by done. done.
    + intros Hcc. by rewrite Hgood.
  - intros Hnot. exists (argmax (bincount groups)). split.
    + apply argmax_bincount_majority. intros Hnil.
      rewrite Hnil in Hgroups. cbn in Hgroups. lia.
    + rewrite Hbad by (by rewrite Hone).
      cbn [snd]. unfold where_ne. fold groups. by rewrite Hgroups.
Qed.

End Validation.

Lemma stray_well_formed : well_formed Demo.stray.
Proof.
  split; [|intros m Hm; discriminate].
  apply map_Forall_singleton. cbn; lia.
Qed.

Lemma stray_has_records : _matches Demo.stray <> ∅.
Proof. apply (insert_non_empty ∅). Qed.

Lemma validate_names_minority_witness :
  exists ml,
    majority (connected_components (match_graph Demo.stray)).2 ml /\
    (validate Demo.stray).2 =
      Raise (ValueError (could_not_be_stitched
               (image_name Demo.stray <$>
                  filter (fun i => (connected_components
                                      (match_graph Demo.stray)).2 !! i
                                   <> Some ml)
                    (seq 0 3)))).
Proof.
  destruct (validate_names_minority Demo.stray) as [_ H].
  destruct (H stray_well_formed stray_has_records) as (_ & Hone & Hnames).
  apply Hnames. intros Hall. apply Hone in Hall.
  vm_compute in Hall. discriminate.
Defined.

Example stray_is_named :
  (validate Demo.stray).2 = Raise (ValueError "Image(s) C could not be stitched").
Proof. vm_compute. reflexivity. Qed.

Example chain_is_valid : (validate Demo.chain).2 = Ok tt.
Proof. vm_compute. reflexivity. Qed.

(** C6, as the specification words it, fails on the empty session:
    [validate] raises although the graph, which has no node, does not
    have more than one component. *)
Lemma validate_empty_session_counterexample :
  (validate (VP := Demo.vision) new_session).2
    = Raise (ValueError "Must have at least one image!") /\
  ~ 1 < (connected_components (match_graph (VP := Demo.vision) new_session)).1.
Proof. split; [reflexivity|]. vm_compute. lia. Qed.

(** Without any match record the error comes from [max] and names no
    image, also when the images form several components. *)
Example strangers_raise_unnamed :
  (validate Demo.strangers).2
    = Raise (ValueError "max() arg is an empty sequence") /\
  (connected_components (Sparse 2 ∅)).1 = 2.
Proof. split; reflexivity. Qed.

(** *** C5: the center *)

Lemma dist_ltb_asym (a b : dist) : dist_ltb a b = true -> dist_ltb b a = false.
Proof.
  unfold dist_ltb, dist_leb. destruct a, b; cbn; try done.
  rewrite !negb_true_iff, !negb_false_iff, Z.leb_gt, Z.leb_le. lia.
Qed.

Lemma dist_ltb_trans (x a b : dist) :
  dist_ltb x b = true -> dist_ltb a b = false -> dist_ltb x a = true.
Proof.
  unfold dist_ltb, dist_leb. destruct x, a, b; cbn; try done.
  rewrite !negb_true_iff, !negb_false_iff, !Z.leb_gt, Z.leb_le. lia.
Qed.

Lemma relax_length (d : list (list dist)) (k : nat) :
  length (relax d k) = length d.
Proof. unfold relax. by rewrite length_imap. Qed.

Lemma shortest_path_length (g : sparse) :
  length (shortest_path g) = shape g.
Proof.
  unfold shortest_path.
  assert (forall ks d, length (foldl relax d ks) = length d) as Hfold.
  { induction ks as [|k ks IH]; intros d; [done|]. cbn.
    by rewrite IH, relax_length. }
  by rewrite Hfold, length_fmap, length_seq.
Qed.

(** The eccentricity of every node: the largest entry of its row of
    the matrix of shortest paths. *)
Definition eccentricities (g : sparse) : list dist :=
  np_max <$> shortest_path g.

(** [c] is the first node of minimal eccentricity. *)
Definition is_center (g : sparse) (c : nat) : Prop :=
  exists e, eccentricities g !! c = Some e /\
    (forall j e', eccentricities g !! j = Some e' -> dist_leb e e' = true) /\
    (forall j e', j < c -> eccentricities g !! j = Some e' ->
                  dist_ltb e e' = true).

Lemma argmin_is_center (g : sparse) :
  0 < shape g -> is_center g (argmin (eccentricities g)).
Proof.
  intros Hpos. unfold argmin.
  destruct (argbest_spec (fun x best => dist_ltb x best)
              dist_ltb_asym dist_ltb_trans (eccentricities g))
    as (e & He & Hnone & Hbefore).
  { intros Hnil. apply (f_equal length) in Hnil.
    unfold eccentricities in Hnil.
    rewrite length_fmap, shortest_path_length in Hnil. cbn in Hnil. lia. }
  exists e. split_and!; [done| |done].
  intros j e' Hj. specialize (Hnone j e' Hj).
  unfold dist_ltb in Hnone. by apply negb_false_iff in Hnone.
Qed.

Lemma is_center_unique (g : sparse) (c1 c2 : nat) :
  is_center g c1 -> is_center g c2 -> c1 = c2.
Proof.
  intros (e1 & He1 & Hmin1 & Hfirst1) (e2 & He2 & Hmin2 & Hfirst2).
  destruct (Nat.lt_trichotomy c1 c2) as [Hlt|[->|Hlt]]; [|done|].
  - specialize (Hfirst2 c1 e1 Hlt He1). specialize (Hmin1 c2 e2 He2).
    unfold dist_ltb in Hfirst2. by rewrite Hmin1 in Hfirst2.
  - specialize (Hfirst1 c2 e2 Hlt He2). specialize (Hmin2 c1 e1 He1).
    unfold dist_ltb in Hfirst1. by rewrite Hmin2 in Hfirst1.
Qed.

Lemma strict_minimum_is_center (g : sparse) (c i : nat) (e : dist) :
  is_center g c ->
  eccentricities g !! i = Some e ->
  (forall j e', j <> i -> eccentricities g !! j = Some e' ->
                dist_ltb e e' = true) ->
  c = i.
Proof.
  intros (ec & Hec & Hmin & _) Hi Hstrict.
  destruct (decide (c = i)) as [|Hne]; [done|].
  specialize (Hstrict c ec Hne Hec). specialize (Hmin i e Hi).
  unfold dist_ltb in Hstrict. by rewrite Hmin in Hstrict.
Qed.

(** The distances of a matrix of shortest paths are not negative and
    vanish on the diagonal, so the largest entry of a row is the largest
    distance to another node. *)
Definition nonneg (e : dist) : Prop := dist_leb (Fin 0) e = true.

(** The largest distance from node [i] to any other node, read off its
    row of the matrix; without another node it is zero. *)
Definition farthest_other (row : list dist) (i : nat) : dist :=
  foldr dist_max (Fin 0) (delete i row).

Lemma dist_max_nonneg (a b : dist) : nonneg a -> nonneg b -> nonneg (dist_max a b).
Proof. unfold dist_max. by destruct (dist_leb a b). Qed.

Lemma dist_min_nonneg (a b : dist) : nonneg a -> nonneg b -> nonneg (dist_min a b).
Proof. unfold dist_min. by destruct (dist_leb a b). Qed.

Lemma dist_add_nonneg (a b : dist) : nonneg a -> nonneg b -> nonneg (dist_add a b).
Proof.
  unfold nonneg. destruct a, b; cbn; try done.
  rewrite !Z.leb_le. lia.
Qed.

Lemma dist_max_zero_l (a : dist) : nonneg a -> dist_max (Fin 0) a = a.
Proof. unfold nonneg, dist_max. by intros ->. Qed.

Lemma dist_min_zero_l (a : dist) : nonneg a -> dist_min (Fin 0) a = Fin 0.
Proof. unfold nonneg, dist_min. by intros ->. Qed.

Lemma dist_max_assoc (a b c : dist) :
  dist_max (dist_max a b) c = dist_max a (dist_max b c).
Proof.
  unfold dist_max, dist_leb. destruct a, b, c; cbn; try done;
    repeat (match goal with
            | |- context [(?x <=? ?y)%Z] => destruct (Z.leb_spec x y)
            end; cbn; try done; try lia).
Qed.

Lemma foldl_dist_max (l : list dist) (a : dist) :
  nonneg a -> Forall nonneg l ->
  foldl dist_max a l = dist_max a (foldr dist_max (Fin 0) l).
Proof.
  revert a. induction l as [|x l IH]; intros a Ha Hl; cbn.
  - unfold dist_max, dist_leb. unfold nonneg, dist_leb in Ha.
    destruct a; [|done]. destruct (Z.leb_spec d 0), (Z.leb_spec 0 d);
      try done; try lia. f_equal. lia.
  - apply Forall_cons in Hl as [Hx Hl].
    rewrite IH; [|by apply dist_max_nonneg|done].
    apply dist_max_assoc.
Qed.

Lemma foldr_dist_max_nonneg (l : list dist) :
  Forall nonneg l -> nonneg (foldr dist_max (Fin 0) l).
Proof.
  induction 1 as [|x l Hx _ IH]; cbn; [done|]. by apply dist_max_nonneg.
Qed.

Lemma np_max_farthest_other (row : list dist) (i : nat) :
  Forall nonneg row -> row !! i = Some (Fin 0) ->
  np_max row = farthest_other row i.
Proof.
  intros Hall Hi. unfold farthest_other.
  transitivity (foldr dist_max (Fin 0) row).
  - destruct row as [|x l]; [done|]. cbn.
    apply Forall_cons in Hall as [Hx Hl]. by apply foldl_dist_max.
  - clear -Hall Hi. revert i Hi.
    induction Hall as [|x l Hx Hl IH]; intros i Hi; [done|].
    destruct i as [|i]; cbn in *.
    + injection Hi as ->. apply dist_max_zero_l.
      by apply foldr_dist_max_nonneg.
    + f_equal. by apply IH.
Qed.

(** The invariant of the rounds of the shortest-path computation. *)
Definition distances (n : nat) (d : list (list dist)) : Prop :=
  (forall i j, nonneg (entry d i j)) /\
  (forall i, i < n -> entry d i i = Fin 0) /\
  (forall i row, d !! i = Some row -> length row = n).

Lemma entry_relax (d : list (list dist)) (k i j : nat) :
  entry (relax d k) i j =
  match d !! i ≫= (fun row => row !! j) with
  | Some dij => dist_min dij (dist_add (entry d i k) (entry d k j))
  | None => Inf
  end.
Proof.
  unfold entry at 1, relax. rewrite list_lookup_imap.
  destruct (d !! i) as [row|]; [|done]. cbn.
  rewrite list_lookup_imap. by destruct (row !! j).
Qed.

Lemma relax_distances (n : nat) (d : list (list dist)) (k : nat) :
  distances n d -> distances n (relax d k).
Proof.
  intros (Hnn & Hdiag & Hrows). split_and!.
  - intros i j. rewrite entry_relax.
    pose proof (Hnn i j) as Hij. unfold entry in Hij.
    destruct (d !! i ≫= _) as [dij|]; [|done].
    apply dist_min_nonneg; [done|by apply dist_add_nonneg].
  - intros i Hi. rewrite entry_relax.
    pose proof (Hdiag i Hi) as Hii. unfold entry in Hii.
    destruct (d !! i ≫= _) as [dii|]; [|done]. cbn in Hii. subst dii.
    apply dist_min_zero_l. by apply dist_add_nonneg.
  - intros i row Hrow. unfold relax in Hrow.
    rewrite list_lookup_imap in Hrow.
    destruct (d !! i) as [row0|] eqn:Hrow0; [|done].
    injection Hrow as <-. rewrite length_imap. by eapply Hrows.
Qed.

Lemma direct_distances (g : sparse) :
  (forall k w, entries g !! k = Some w -> (0 <= w)%Z) ->
  distances (shape g)
    ((fun i => direct g i <$> seq 0 (shape g)) <$> seq 0 (shape g)).
Proof.
  intros Hw.
  assert (forall i j, nonneg (direct g i j)) as Hdirect.
  { intros i j. unfold direct, nonneg. destruct (decide (i = j)); [done|].
    destruct (entries g !! (i, j)) as [a|] eqn:Ha,
             (entries g !! (j, i)) as [b|] eqn:Hb; cbn; try done;
      rewrite Z.leb_le; try apply Hw in Ha; try apply Hw in Hb; lia. }
  split_and!.
  - intros i j. unfold entry. rewrite list_lookup_fmap.
    destruct (seq 0 (shape g) !! i) as [i'|] eqn:Hi; [|done]. cbn.
    rewrite list_lookup_fmap.
    destruct (seq 0 (shape g) !! j) as [j'|]; [|done]. cbn. apply Hdirect.
  - intros i Hi. unfold entry. rewrite list_lookup_fmap.
    rewrite (proj2 (lookup_seq 0 (shape g) i i)) by done. cbn.
    rewrite list_lookup_fmap.
    rewrite (proj2 (lookup_seq 0 (shape g) i i)) by done. cbn.
    unfold direct. by rewrite decide_True.
  - intros i row Hrow. rewrite list_lookup_fmap in Hrow.
    destruct (seq 0 (shape g) !! i); [|done]. injection Hrow as <-.
    by rewrite length_fmap, length_seq.
Qed.

Lemma shortest_path_distances (g : sparse) :
  (forall k w, entries g !! k = Some w -> (0 <= w)%Z) ->
  distances (shape g) (shortest_path g).
Proof.
  intros Hw. unfold shortest_path.
  assert (forall ks d, distances (shape g) d ->
                       distances (shape g) (foldl relax d ks)) as Hfold.
  { induction ks as [|k ks IH]; intros d Hd; [done|]. cbn.
    by apply IH, relax_distances. }
  by apply Hfold, direct_distances.
Qed.

(** With weights that are not negative, the eccentricity that
    [_find_center] computes for a node is its largest distance to any
    other node. *)
Lemma eccentricity_to_other_nodes (g : sparse) (i : nat) (row : list dist) :
  (forall k w, entries g !! k = Some w -> (0 <= w)%Z) ->
  shortest_path g !! i = Some row ->
  eccentricities g !! i = Some (farthest_other row i).
Proof.
  intros Hw Hrow. unfold eccentricities. rewrite list_lookup_fmap, Hrow. cbn.
  f_equal.
  destruct (shortest_path_distances g Hw) as (Hnn & Hdiag & Hrows).
  assert (i < shape g) as Hi.
  { apply lookup_lt_Some in Hrow. by rewrite shortest_path_length in Hrow. }
  apply np_max_farthest_other.
  - apply Forall_forall. intros e He.
    apply list_elem_of_lookup in He as [j Hj].
    specialize (Hnn i j). unfold entry in Hnn. rewrite Hrow in Hnn. cbn in Hnn.
    by rewrite Hj in Hnn.
  - specialize (Hdiag i Hi). unfold entry in Hdiag. rewrite Hrow in Hdiag.
    cbn in Hdiag. specialize (Hrows i row Hrow).
    destruct (lookup_lt_is_Some_2 row i) as [e He]; [lia|].
    by rewrite He in Hdiag |- *; cbn in Hdiag; subst.
Qed.

Section Center.
Context `{VP : VisionPrimitives}.

Lemma find_center_after_edge_matrix (s s' : ImageStitcher) (g : sparse) :
  _edge_matrix s = (s', Ok g) ->
  shape g = length (_images s') ->
  0 < shape g ->
  _find_center s = (s', Ok (argmin (eccentricities g))).
Proof.
  intros Hedge Hshape Hpos. unfold _find_center, and_then. rewrite Hedge.
  unfold read, lift, ret, getitem. cbn [fst snd].
  destruct (argmin_is_center g Hpos) as (e & He & _).
  apply lookup_lt_Some in He. unfold eccentricities in He.
  rewrite length_fmap, shortest_path_length, Hshape in He.
  destruct (lookup_lt_is_Some_2 (_images s') _ He) as [im Him].
  by rewrite Him.
Qed.


End Center.


(** The scenario of the three images in a row: B is the center. *)
Example chain_center : (center Demo.chain).2 = Ok 1.
Proof. vm_compute. reflexivity. Qed.

Example chain_eccentricities :
  eccentricities (match_graph Demo.chain) = [Fin 7; Fin 6; Fin 7].
Proof. vm_compute. reflexivity. Qed.

(** *** C2: pasting *)

(** The blend of the specification, read literally: the destination
    value multiplied by [255 - alpha], plus the source value. *)
Definition scaled_blend (dest src_alpha src : Z) : Z :=
  (dest * (255 - src_alpha) + src)%Z.

(** The same with the factor read as the fraction [(255 - alpha) / 255]. *)
Definition normalised_blend (dest src_alpha src : Z) : Z :=
  (dest * (255 - src_alpha) / 255 + src)%Z.

(** What the code computes in one channel: the destination value is
    kept whole unless the source is fully opaque, and the sum is capped
    at 255. *)
Definition masked_add (dest src_alpha src : Z) : Z :=
  Z.min 255 ((if (src_alpha =? 255)%Z then 0 else dest) + src).

Lemma paste_pixel_channels (d s : pixel) :
  paste_pixel d s =
  Pixel (masked_add (red d) (alpha s) (red s))
        (masked_add (green d) (alpha s) (green s))
        (masked_add (blue d) (alpha s) (blue s))
        (masked_add (alpha d) (alpha s) (alpha s)).
Proof.
  unfold paste_pixel, masked_add, saturating_add.
  destruct (Z.eqb_spec (255 - alpha s) 0) as [H0|H0],
           (Z.eqb_spec (alpha s) 255) as [H1|H1]; try lia; done.
Qed.

Lemma slice_bound_nonneg (len : nat) (i : Z) :
  (0 <= i)%Z -> slice_bound len i = Z.to_nat i `min` len.
Proof.
  intros Hi. unfold slice_bound.
  destruct (Z.ltb_spec i 0); lia.
Qed.

Lemma pixel_at_imap (f : nat -> nat -> pixel -> pixel) (b : buffer)
    (r c : nat) :
  pixel_at (imap (fun r row => imap (f r) row) b) r c
  = f r c <$> pixel_at b r c.
Proof.
  unfold pixel_at. rewrite list_lookup_imap.
  destruct (b !! r) as [row|]; [|done]. cbn.
  by rewrite list_lookup_imap.
Qed.

Lemma paste_image_lookup (base img base' : buffer) (x y : Z) (r c : nat) :
  paste_image base img (x, y) = Ok base' ->
  let r0 := slice_bound (rows base) y in
  let r1 := slice_bound (rows base) (y + Z.of_nat (rows img)) in
  let c0 := slice_bound (cols base) x in
  let c1 := slice_bound (cols base) (x + Z.of_nat (cols img)) in
  pixel_at base' r c =
    (fun d => if decide (r0 <= r < r1 /\ c0 <= c < c1)
              then match pixel_at img (r - r0) (c - c0) with
                   | Some p => paste_pixel d p
                   | None => d
                   end
              else d) <$> pixel_at base r c.
Proof.
  unfold paste_image. cbn zeta.
  destruct (decide _) as [Hshape|]; [|done]. intros [= <-].
  set (r0 := slice_bound (rows base) y).
  set (r1 := slice_bound (rows base) (y + Z.of_nat (rows img))).
  set (c0 := slice_bound (cols base) x).
  set (c1 := slice_bound (cols base) (x + Z.of_nat (cols img))).
  set (at_img := pixel_at img).
  unfold pixel_at. rewrite list_lookup_imap.
  destruct (base !! r) as [row|]; [|done]. cbn.
  destruct (decide (r0 <= r < r1)) as [Hr|Hr].
  - rewrite list_lookup_imap. destruct (row !! c) as [d|]; [|done]. cbn.
    destruct (decide (c0 <= c < c1)) as [Hc|Hc].
    + by rewrite decide_True.
    + rewrite decide_False; [done|tauto].
  - destruct (row !! c) as [d|]; [|done]. cbn.
    rewrite decide_False; [done|tauto].
Qed.

Lemma paste_image_shape (base img base' : buffer) (shift : Z * Z) (h w : nat) :
  paste_image base img shift = Ok base' ->
  has_shape base h w -> has_shape base' h w.
Proof.
  unfold paste_image. destruct shift as [x y]. cbn zeta.
  destruct (decide _); [|done]. intros [= <-] [Hrows Hcols].
  split; [by rewrite length_imap|].
  apply Forall_forall. intros row Hrow.
  apply list_elem_of_lookup in Hrow as [r Hr].
  rewrite list_lookup_imap in Hr.
  destruct (base !! r) as [row0|] eqn:Hrow0; [|done]. cbn in Hr.
  assert (length row0 = w) as Hlen.
  { eapply Forall_forall in Hcols; [exact Hcols|].
    by eapply list_elem_of_lookup_2. }
  destruct (decide _); injection Hr as <-; [|done].
  by rewrite length_imap.
Qed.

Lemma has_shape_cols (b : buffer) (h w : nat) :
  has_shape b h w -> 0 < h -> cols b = w.
Proof.
  intros [Hrows Hcols] Hpos. destruct b as [|row b]; [cbn in *; lia|].
  by apply Forall_cons in Hcols as [? _].
Qed.

(** The assertion of [paste_image] holds when the pasted rectangle lies
    inside the destination. *)
Lemma paste_image_fits (base img : buffer) (x y : Z) (H W : nat) :
  has_shape base H W ->
  (0 <= x)%Z -> (0 <= y)%Z ->
  (Z.to_nat y + rows img <= H) ->
  (Z.to_nat x + cols img <= W) ->
  0 < H ->
  is_ok (paste_image base img (x, y)) = true.
Proof.
  intros Hshape Hx Hy Hr Hc Hpos. unfold paste_image. cbn zeta.
  destruct (decide _) as [|Hno]; [done|]. exfalso. apply Hno.
  rewrite (has_shape_cols base H W) by done.
  destruct Hshape as [Hrows _]. unfold rows in *.
  rewrite !slice_bound_nonneg by lia. clear Hno.
  generalize dependent (cols img). generalize dependent (length img).
  generalize dependent (length base). intros. lia.
Qed.

(** C2, as the code has it.  When [paste_image] returns, the shape of
    the destination is unchanged, every destination pixel under the
    pasted buffer holds, channel by channel, the sum capped at 255 of
    the source value and of the previous destination value, the latter
    counted whole unless the source pixel is fully opaque and then not
    at all, and every other pixel is unchanged. *)
Theorem paste_image_masked_add (base img base' : buffer) (x y : Z)
    (H W : nat) :
  has_shape base H W ->
  (0 <= x)%Z -> (0 <= y)%Z ->
  paste_image base img (x, y) = Ok base' ->
  has_shape base' H W /\
  (forall r c d s,
     pixel_at base (Z.to_nat y + r) (Z.to_nat x + c) = Some d ->
     pixel_at img r c = Some s ->
     r < rows img -> c < cols img ->
     pixel_at base' (Z.to_nat y + r) (Z.to_nat x + c) =
       Some (Pixel (masked_add (red d) (alpha s) (red s))
                   (masked_add (green d) (alpha s) (green s))
                   (masked_add (blue d) (alpha s) (blue s))
                   (masked_add (alpha d) (alpha s) (alpha s)))) /\
  (forall r c,
     ~ (Z.to_nat y <= r < Z.to_nat y + rows img /\
        Z.to_nat x <= c < Z.to_nat x + cols img) ->
     pixel_at base' r c = pixel_at base r c).
Proof.
  intros Hshape Hx Hy Hpaste.
  pose proof (paste_image_lookup base img base' x y) as Hlook.
  pose proof Hpaste as Hassert. unfold paste_image in Hassert. cbn zeta in Hassert.
  destruct (decide _) as [[Hr Hc]|] in Hassert; [|done]. clear Hassert.
  rewrite !slice_bound_nonneg in Hr, Hc by lia.
  split_and!.
  - by eapply paste_image_shape.
  - intros r c d s Hd Hs Hrlt Hclt.
    rewrite (Hlook _ _ Hpaste), Hd. cbn.
    rewrite !slice_bound_nonneg by lia.
    assert (Z.to_nat y + r < rows base) as Hrb.
    { unfold pixel_at in Hd. destruct (base !! _) eqn:Hb; [|done].
      by apply lookup_lt_Some in Hb. }
    assert (Z.to_nat x + c < cols base) as Hcb.
    { unfold pixel_at in Hd. destruct (base !! _) as [row|] eqn:Hb; [|done].
      cbn in Hd. apply lookup_lt_Some in Hd.
      rewrite (has_shape_cols base H W); [|done|destruct Hshape; unfold rows in *; lia].
      destruct Hshape as [_ Hcols].
      eapply Forall_forall in Hcols; [|by eapply list_elem_of_lookup_2].
      lia. }
    rewrite decide_True by (unfold rows in *; lia).
    replace (Z.to_nat y + r - Z.to_nat y `min` rows base) with r by lia.
    replace (Z.to_nat x + c - Z.to_nat x `min` cols base) with c by lia.
    rewrite Hs. by rewrite paste_pixel_channels.
  - intros r c Hout. rewrite (Hlook _ _ Hpaste).
    destruct (pixel_at base r c) as [d|]; [|done]. cbn.
    rewrite !slice_bound_nonneg by lia.
    rewrite decide_False; [done|]. lia.
Qed.

Lemma paste_image_masked_add_witness :
  let base := [[Pixel 100 100 100 255; Pixel 7 7 7 255]] in
  let img := [[Pixel 50 50 50 128]] in
  paste_image base img (0, 0)%Z = Ok [[Pixel 150 150 150 255; Pixel 7 7 7 255]] /\
  pixel_at [[Pixel 150 150 150 255; Pixel 7 7 7 255]] 0 0
    = Some (Pixel 150 150 150 255).
Proof.
  cbn zeta. split; [reflexivity|].
  destruct (paste_image_masked_add
              [[Pixel 100 100 100 255; Pixel 7 7 7 255]] [[Pixel 50 50 50 128]]
              [[Pixel 150 150 150 255; Pixel 7 7 7 255]] 0 0 1 2)
    as (_ & Hin & _).
  - split; [reflexivity|]. repeat constructor.
  - lia.
  - lia.
  - reflexivity.
  - apply (Hin 0 0 (Pixel 100 100 100 255) (Pixel 50 50 50 128));
      [reflexivity|reflexivity|cbn; lia|cbn; lia].
Defined.

(** C2, as the specification words it, fails: under a half-transparent
    source pixel the destination value is neither multiplied by
    [255 - alpha] nor by the fraction [(255 - alpha) / 255]; it is added
    whole. *)
Lemma paste_scaled_counterexample :
  let dest := Pixel 100 100 100 255 in
  let src := Pixel 50 50 50 128 in
  exists pasted,
    paste_image [[dest]] [[src]] (0, 0)%Z = Ok [[pasted]] /\
    red pasted = 150%Z /\
    red pasted <> scaled_blend (red dest) (alpha src) (red src) /\
    red pasted <> Z.min 255 (scaled_blend (red dest) (alpha src) (red src)) /\
    red pasted <> (scaled_blend (red dest) (alpha src) (red src) mod 256)%Z /\
    red pasted <> normalised_blend (red dest) (alpha src) (red src).
Proof.
  cbn zeta. exists (Pixel 150 150 150 255).
  split; [reflexivity|]. vm_compute. repeat split; discriminate.
Qed.

(** *** C8: the bounding rectangle and the canvas *)

(** [m] is the least value of [f] over the points, if there is a point. *)
Definition least_of (f : point -> Q) (pts : list point) (m : option Q) : Prop :=
  match m with
  | None => pts = []
  | Some v => (exists p, p ∈ pts /\ f p = v) /\
              (forall p, p ∈ pts -> (v <= f p)%Q)
  end.

(** [m] is the greatest value of [f] over the points, if there is a point. *)
Definition greatest_of (f : point -> Q) (pts : list point) (m : option Q)
  : Prop :=
  match m with
  | None => pts = []
  | Some v => (exists p, p ∈ pts /\ f p = v) /\
              (forall p, p ∈ pts -> (f p <= v)%Q)
  end.

Lemma below_step (f : point -> Q) (pts : list point) (m : option Q)
    (p : point) :
  least_of f pts m ->
  least_of f (pts ++ [p]) (if below (f p) m then Some (f p) else m).
Proof.
  destruct m as [b|]; cbn.
  - intros [(q & Hq & Hfq) Hall]. case_bool_decide as Hlt.
    + split; [exists p; split; [set_solver|done]|].
      intros q' Hq'. apply elem_of_app in Hq' as [Hq'|Hq'].
      * specialize (Hall q' Hq'). lra.
      * apply list_elem_of_singleton in Hq' as ->. lra.
    + split; [exists q; split; [set_solver|done]|].
      intros q' Hq'. apply elem_of_app in Hq' as [Hq'|Hq'].
      * by apply Hall.
      * apply list_elem_of_singleton in Hq' as ->. lra.
  - intros ->. split; [exists p; split; [set_solver|done]|].
    intros q' Hq'. apply list_elem_of_singleton in Hq' as ->. lra.
Qed.

Lemma above_step (f : point -> Q) (pts : list point) (m : option Q)
    (p : point) :
  greatest_of f pts m ->
  greatest_of f (pts ++ [p]) (if above (f p) m then Some (f p) else m).
Proof.
  destruct m as [b|]; cbn.
  - intros [(q & Hq & Hfq) Hall]. case_bool_decide as Hlt.
    + split; [exists p; split; [set_solver|done]|].
      intros q' Hq'. apply elem_of_app in Hq' as [Hq'|Hq'].
      * specialize (Hall q' Hq'). lra.
      * apply list_elem_of_singleton in Hq' as ->. lra.
    + split; [exists q; split; [set_solver|done]|].
      intros q' Hq'. apply elem_of_app in Hq' as [Hq'|Hq'].
      * by apply Hall.
      * apply list_elem_of_singleton in Hq' as ->. lra.
  - intros ->. split; [exists p; split; [set_solver|done]|].
    intros q' Hq'. apply list_elem_of_singleton in Hq' as ->. lra.
Qed.

(** The running extremes describe the points seen so far. *)
Definition extent_of (pts : list point) (e : extent) : Prop :=
  least_of fst pts (ext_left e) /\ greatest_of fst pts (ext_right e) /\
  least_of snd pts (ext_top e) /\ greatest_of snd pts (ext_bottom e).

Lemma extend_spec (pts : list point) (e : extent) (p : point) :
  extent_of pts e -> extent_of (pts ++ [p]) (extend e p).
Proof.
  intros (Hl & Hr & Ht & Hb). destruct p as [x y]. unfold extend.
  split_and!; cbn [ext_left ext_right ext_top ext_bottom].
  - apply (below_step fst pts _ (x, y) Hl).
  - apply (above_step fst pts _ (x, y) Hr).
  - apply (below_step snd pts _ (x, y) Ht).
  - apply (above_step snd pts _ (x, y) Hb).
Qed.

Lemma foldl_extend_spec (pts seen : list point) (e : extent) :
  extent_of seen e -> extent_of (seen ++ pts) (foldl extend e pts).
Proof.
  revert seen e. induction pts as [|p pts IH]; intros seen e He; cbn.
  - by rewrite app_nil_r.
  - replace (seen ++ p :: pts) with ((seen ++ [p]) ++ pts)
      by by rewrite <- app_assoc.
    apply IH. by apply extend_spec.
Qed.

(** The rectangle in terms of the extremes of the coordinates. *)
Lemma fitting_rectangle_spec (pts : list point) :
  pts <> [] ->
  exists l r t b,
    least_of fst pts (Some l) /\ greatest_of fst pts (Some r) /\
    least_of snd pts (Some t) /\ greatest_of snd pts (Some b) /\
    fitting_rectangle pts =
      Ok ((Qfloor l, Qfloor t),
          (Qceiling (r - inject_Z (Qfloor l)),
           Qceiling (b - inject_Z (Qfloor t)))).
Proof.
  intros Hne. unfold fitting_rectangle.
  destruct (foldl_extend_spec pts [] (Extent None None None None))
    as (Hl & Hr & Ht & Hb); [done|].
  rewrite app_nil_l in *.
  destruct (ext_left _) as [l|]; [|done].
  destruct (ext_right _) as [r|]; [|done].
  destruct (ext_top _) as [t|]; [|done].
  destruct (ext_bottom _) as [b|]; [|done].
  by exists l, r, t, b.
Qed.

Lemma fitting_rectangle_empty :
  fitting_rectangle [] = Raise OverflowError.
Proof. reflexivity. Qed.

Lemma fitting_rectangle_ok_nonempty (pts : list point)
    (rect : (Z * Z) * (Z * Z)) :
  fitting_rectangle pts = Ok rect -> pts <> [].
Proof. by intros H ->. Qed.

(** The rectangle rounds outward: it contains every point. *)
Lemma fitting_rectangle_contains (pts : list point) (left top width height : Z)
    (p : point) :
  fitting_rectangle pts = Ok ((left, top), (width, height)) ->
  p ∈ pts ->
  (inject_Z left <= p.1 <= inject_Z (left + width))%Q /\
  (inject_Z top <= p.2 <= inject_Z (top + height))%Q.
Proof.
  intros Hrect Hp.
  destruct (fitting_rectangle_spec pts) as (l & r & t & b & Hl & Hr & Ht & Hb & Heq).
  { by eapply fitting_rectangle_ok_nonempty. }
  rewrite Heq in Hrect. injection Hrect as <- <- <- <-.
  destruct Hl as [_ Hl], Hr as [_ Hr], Ht as [_ Ht], Hb as [_ Hb].
  specialize (Hl p Hp). specialize (Hr p Hp).
  specialize (Ht p Hp). specialize (Hb p Hp).
  rewrite !inject_Z_plus.
  pose proof (Qfloor_le l). pose proof (Qfloor_le t).
  pose proof (Qle_ceiling (r - inject_Z (Qfloor l))).
  pose proof (Qle_ceiling (b - inject_Z (Qfloor t))).
  split; split; lra.
Qed.

Lemma ceiling_shift_le (x y : Q) (a b : Z) :
  (x <= y)%Q -> (b <= a)%Z ->
  (a - b + Qceiling (x - inject_Z a) <= Qceiling (y - inject_Z b))%Z.
Proof.
  intros Hxy Hba.
  pose proof (Qceiling_lt (x - inject_Z a)) as Hlt.
  pose proof (Qle_ceiling (y - inject_Z b)) as Hle.
  assert (inject_Z (a - b + Qceiling (x - inject_Z a) - 1)
          < inject_Z (Qceiling (y - inject_Z b)))%Q as Hq.
  { replace (a - b + Qceiling (x - inject_Z a) - 1)%Z
      with ((Qceiling (x - inject_Z a) - 1) + a + - b)%Z by lia.
    rewrite !inject_Z_plus, inject_Z_opp. lra. }
  rewrite <- Zlt_Qlt in Hq. lia.
Qed.

(** The rectangle of a part of the points lies inside the rectangle of
    all of them, and is not larger. *)
Lemma fitting_rectangle_mono (part all : list point)
    (l t w h left top width height : Z) :
  part ⊆ all ->
  fitting_rectangle part = Ok ((l, t), (w, h)) ->
  fitting_rectangle all = Ok ((left, top), (width, height)) ->
  (left <= l /\ l + w <= left + width /\ w <= width)%Z /\
  (top <= t /\ t + h <= top + height /\ h <= height)%Z.
Proof.
  intros Hsub Hpart Hall.
  destruct (fitting_rectangle_spec part)
    as (l1 & r1 & t1 & b1 & Hl1 & Hr1 & Ht1 & Hb1 & Heq1).
  { by eapply fitting_rectangle_ok_nonempty. }
  destruct (fitting_rectangle_spec all)
    as (l2 & r2 & t2 & b2 & Hl2 & Hr2 & Ht2 & Hb2 & Heq2).
  { by eapply fitting_rectangle_ok_nonempty. }
  rewrite Heq1 in Hpart. injection Hpart as <- <- <- <-.
  rewrite Heq2 in Hall. injection Hall as <- <- <- <-.
  destruct Hl1 as [(pl & Hpl & <-) _], Hr1 as [(pr & Hpr & <-) _].
  destruct Ht1 as [(pt & Hpt & <-) _], Hb1 as [(pb & Hpb & <-) _].
  destruct Hl2 as [_ Hl2], Hr2 as [_ Hr2], Ht2 as [_ Ht2], Hb2 as [_ Hb2].
  specialize (Hl2 pl (Hsub _ Hpl)). specialize (Hr2 pr (Hsub _ Hpr)).
  specialize (Ht2 pt (Hsub _ Hpt)). specialize (Hb2 pb (Hsub _ Hpb)).
  pose proof (Qfloor_resp_le _ _ Hl2) as Hfl.
  pose proof (Qfloor_resp_le _ _ Ht2) as Hft.
  pose proof (ceiling_shift_le _ _ _ _ Hr2 Hfl) as Hw.
  pose proof (ceiling_shift_le _ _ _ _ Hb2 Hft) as Hh.
  lia.
Qed.

(** The position at which [stitch] pastes an image lies inside the
    canvas: the offset of its rectangle from the global one is not
    negative, and the rectangle ends before the canvas does. *)
Lemma placement_inside_canvas (part all : list point)
    (l t w h left top width height : Z) :
  part ⊆ all ->
  fitting_rectangle part = Ok ((l, t), (w, h)) ->
  fitting_rectangle all = Ok ((left, top), (width, height)) ->
  (0 <= l - left /\ l - left + w <= width)%Z /\
  (0 <= t - top /\ t - top + h <= height)%Z.
Proof.
  intros Hsub Hpart Hall.
  pose proof (fitting_rectangle_mono _ _ _ _ _ _ _ _ _ _ Hsub Hpart Hall).
  lia.
Qed.

(** The width and the height of the rectangle are not negative. *)
Lemma fitting_rectangle_size_nonneg (pts : list point)
    (left top width height : Z) :
  fitting_rectangle pts = Ok ((left, top), (width, height)) ->
  (0 <= width /\ 0 <= height)%Z.
Proof.
  intros Hrect.
  destruct (fitting_rectangle_spec pts)
    as (l & r & t & b & Hl & Hr & Ht & Hb & Heq).
  { by eapply fitting_rectangle_ok_nonempty. }
  rewrite Heq in Hrect. injection Hrect as <- <- <- <-.
  destruct Hl as [(pl & Hpl & <-) _], Ht as [(pt & Hpt & <-) _].
  destruct Hr as [_ Hr], Hb as [_ Hb].
  specialize (Hr pl Hpl). specialize (Hb pt Hpt).
  pose proof (Qfloor_le pl.1). pose proof (Qfloor_le pt.2).
  pose proof (Qceiling_resp_le 0 (r - inject_Z (Qfloor pl.1))) as Hw.
  pose proof (Qceiling_resp_le 0 (b - inject_Z (Qfloor pt.2))) as Hh.
  change (Qceiling 0) with 0%Z in Hw, Hh.
  split; [apply Hw|apply Hh]; lra.
Qed.

Lemma elem_of_concat {A : Type} (ls : list (list A)) (l : list A) (x : A) :
  l ∈ ls -> x ∈ l -> x ∈ concat ls.
Proof.
  intros Hl Hx. induction ls as [|l' ls IH]; [by apply elem_of_nil in Hl|].
  cbn. apply elem_of_app. apply elem_of_cons in Hl as [<-|Hl]; [by left|].
  right. by apply IH.
Qed.

Lemma zeros_shape (height width : Z) (b : list (list pixel)) :
  zeros height width = Ok b ->
  has_shape b (Z.to_nat height) (Z.to_nat width).
Proof.
  unfold zeros. destruct (decide _); [done|]. intros [= <-].
  split; [by rewrite length_replicate|].
  apply Forall_replicate. by rewrite length_replicate.
Qed.

Section Canvas.
Context `{VP : VisionPrimitives} `{GP : GraphPrimitives}.

Lemma paint_shape (s : ImageStitcher) (Hs : list (option matrix))
    (corners : list (list point)) (base_shift : Z * Z)
    (canvas canvas' : list (list pixel)) (i h w : nat) :
  paint s Hs corners base_shift canvas i = Ok canvas' ->
  has_shape canvas h w -> has_shape canvas' h w.
Proof.
  unfold paint.
  destruct (getitem (_images s) i); [|done]. cbn [bind].
  destruct (getitem corners i); [|done]. cbn [bind].
  destruct (getitem Hs i) as [H|]; [|done]. cbn [bind].
  destruct (fitting_rectangle _) as [[shift size]|]; [|done]. cbn [bind].
  destruct H as [H|]; [|done].
  apply paste_image_shape.
Qed.

Lemma fold_paint_shape (s : ImageStitcher) (Hs : list (option matrix))
    (corners : list (list point)) (base_shift : Z * Z) (order : list nat)
    (canvas canvas' : list (list pixel)) (h w : nat) :
  fold_result (paint s Hs corners base_shift) order canvas = Ok canvas' ->
  has_shape canvas h w -> has_shape canvas' h w.
Proof.
  revert canvas. induction order as [|i order IH]; intros canvas; cbn.
  - by intros [= <-].
  - destruct (paint s Hs corners base_shift canvas i) as [c1|] eqn:Hpaint;
      [|done]. cbn.
    intros Hfold Hshape. eapply IH; [exact Hfold|].
    by eapply paint_shape.
Qed.


End Canvas.

(** The session of the three images in a row after [stitch]: the matrix
    and the center are cached. *)
Definition chain_after : ImageStitcher :=
  set_center
    (set_current_edge_matrix Demo.chain
       (Some (Sparse 3 (<[(1, 0) := 1%Z]> {[(2, 1) := 6%Z]}))))
    (Some 1).

Example chain_stitches :
  stitch (GP := Demo.graph) 10 Demo.chain
  = (chain_after, Done (replicate 3 (replicate 6 (Pixel 9 9 9 255)))).
Proof. vm_compute. reflexivity. Qed.


(** *** C4: the direction of the pairwise transform *)

Section Direction.
Context `{VP : VisionPrimitives}.

(** The keypoints of an image that the correspondences select through
    one of their two indices. *)
Definition selected_points (im : StitchImage) (index : DMatch -> nat)
  (matches : list DMatch) : result (list point) :=
  traverse (fun i => getitem (kp im) (index i)) matches.

(** The estimation of the transform that maps the source points to the
    destination points (lines 298-302). *)
Definition estimate (src_data dst_data : result (list point)) : result matrix :=
  src <-! src_data;
  dst <-! dst_data;
  let '(H, status_sum) := findHomography src dst in
  if decide (status_sum = 0)
  then Raise (ValueError
                "Critical error finding homography - this should not happen")
  else Ok H.

Lemma selected_points_error (im : StitchImage) (index : DMatch -> nat)
    (matches : list DMatch) (e : exn) :
  selected_points im index matches = Raise e -> e = IndexError.
Proof.
  unfold selected_points.
  induction matches as [|m matches IH]; [done|]. cbn.
  unfold getitem at 1. destruct (kp im !! index m); cbn; [|by intros [= <-]].
  destruct (traverse _ matches); cbn; [done|].
  intros [= <-]. by apply IH.
Qed.

Lemma find_homography_direct (src dst : StitchImage) (matches : list DMatch) :
  _find_homography src dst matches false
  = estimate (selected_points src queryIdx matches)
             (selected_points dst trainIdx matches).
Proof.
  unfold _find_homography, homography_points, estimate, selected_points.
  destruct (traverse _ matches) as [a|]; [|done]. cbn.
  destruct (traverse _ matches) as [b|]; done.
Qed.

Lemma find_homography_swapped (src dst : StitchImage) (matches : list DMatch) :
  _find_homography src dst matches true
  = estimate (selected_points src trainIdx matches)
             (selected_points dst queryIdx matches).
Proof.
  unfold _find_homography, homography_points, estimate.
  destruct (selected_points dst queryIdx matches) as [a|ea] eqn:Ha;
    destruct (selected_points src trainIdx matches) as [b|eb] eqn:Hb;
    unfold selected_points in Ha, Hb; rewrite Ha, Hb; cbn; try done.
  apply selected_points_error in Ha, Hb. by subst.
Qed.


End Direction.


(** *** C3: composition along the spanning tree *)

Lemma py_index_nat {A : Type} (l : list A) (i : nat) :
  py_index l (Z.of_nat i) =
  match l !! i with
  | Some a => Ok (i, a)
  | None => Raise IndexError
  end.
Proof.
  unfold py_index. destruct (Z.ltb_spec (Z.of_nat i) 0) as [|_]; [lia|].
  destruct (Z.ltb_spec (Z.of_nat i) 0) as [|_]; [lia|].
  by rewrite Nat2Z.id.
Qed.

Lemma traverse_length {A B : Type} (f : A -> result B) (l : list A)
    (l' : list B) :
  traverse f l = Ok l' -> length l' = length l.
Proof.
  revert l'. induction l as [|a l IH]; intros l'; cbn; [by intros [= <-]|].
  destruct (f a); [|done]. cbn. destruct (traverse f l); [|done]. cbn.
  intros [= <-]. cbn. by rewrite (IH _ eq_refl).
Qed.

Lemma traverse_lookup {A B : Type} (f : A -> result B) (l : list A)
    (l' : list B) (i : nat) (a : A) :
  traverse f l = Ok l' -> l !! i = Some a ->
  exists b, l' !! i = Some b /\ f a = Ok b.
Proof.
  revert l' i. induction l as [|x l IH]; intros l' i; cbn; [done|].
  destruct (f x) as [b|] eqn:Hfx; [|done]. cbn.
  destruct (traverse f l) as [bs|]; [|done]. cbn.
  intros [= <-] Hi. destruct i as [|i]; cbn in *.
  - injection Hi as <-. eauto.
  - by apply IH.
Qed.

(** The number of positions of the table that are still unknown. *)
Definition unknown {A : Type} (t : list (option A)) : nat :=
  length (filter (fun o => o = None) t).

Lemma unknown_insert {A : Type} (t : list (option A)) (i : nat) (x : A) :
  t !! i = Some None ->
  unknown (<[i := Some x]> t) + 1 = unknown t.
Proof.
  unfold unknown. revert i. induction t as [|o t IH]; intros i Hi; [done|].
  destruct i as [|i]; cbn -[filter] in *.
  - injection Hi as ->. rewrite !filter_cons.
    rewrite decide_False by done. rewrite decide_True by done. cbn. lia.
  - rewrite !filter_cons. specialize (IH i Hi).
    destruct (decide (o = None)); cbn -[filter]; [f_equal|]; exact IH.
Qed.

(** The predecessor array describes a tree with root [c]: [v] lies [d]
    steps below the root. *)
Inductive at_depth (parents : list Z) (c : nat) : nat -> nat -> Prop :=
| depth_root : at_depth parents c 0 c
| depth_child (v p d : nat) :
    v <> c ->
    parents !! v = Some (Z.of_nat p) ->
    at_depth parents c d p ->
    at_depth parents c (S d) v.

(** Every node of the array reaches the root, which is one of them. *)
Definition tree_rooted (parents : list Z) (c : nat) : Prop :=
  c < length parents /\
  forall v, v < length parents -> exists d, at_depth parents c d v.

Lemma at_depth_unique (parents : list Z) (c d d' v : nat) :
  at_depth parents c d v -> at_depth parents c d' v -> d = d'.
Proof.
  intros H. revert d'. induction H as [|v p d Hv Hp _ IH]; intros d' H'.
  - by inversion H'.
  - inversion H' as [|v' p' d'' _ Hp' Hd']; subst; [done|].
    rewrite Hp in Hp'. injection Hp' as Heq. apply Nat2Z.inj in Heq as <-.
    f_equal. by apply IH.
Qed.

Lemma at_depth_in_range (parents : list Z) (c d v : nat) :
  c < length parents -> at_depth parents c d v -> v < length parents.
Proof.
  intros Hc H. destruct H as [|v p d _ Hp _]; [done|].
  by apply lookup_lt_Some in Hp.
Qed.

(** A stack of the walk: every node is the parent of the node below it. *)
Inductive chain (parents : list Z) : list nat -> Prop :=
| chain_nil : chain parents []
| chain_one (v : nat) : chain parents [v]
| chain_cons (a b : nat) (rest : list nat) :
    parents !! b = Some (Z.of_nat a) ->
    chain parents (b :: rest) ->
    chain parents (a :: b :: rest).

Lemma chain_tail (parents : list Z) (a : nat) (rest : list nat) :
  chain parents (a :: rest) -> chain parents rest.
Proof. intros H. inversion H; subst; [constructor|done]. Qed.

Lemma chain_deeper (parents : list Z) (c : nat) (rest : list nat) (a d : nat) :
  chain parents (a :: rest) -> at_depth parents c d a ->
  Forall (fun b => b <> c) rest ->
  forall b, b ∈ rest -> exists d', d < d' /\ at_depth parents c d' b.
Proof.
  revert a d. induction rest as [|x rest IH]; intros a d Hchain Ha Hnc b Hb.
  { by apply elem_of_nil in Hb. }
  inversion Hchain as [| |a' b' rest' Hpar Hchain']; subst.
  apply Forall_cons in Hnc as [Hx Hnc].
  assert (at_depth parents c (S d) x) as Hdx by by econstructor.
  apply elem_of_cons in Hb as [->|Hb].
  - exists (S d). split; [lia|done].
  - destruct (IH x (S d) Hchain' Hdx Hnc b Hb) as (d' & Hlt & Hd').
    exists d'. split; [lia|done].
Qed.

Lemma chain_top_fresh (parents : list Z) (c : nat) (rest : list nat)
    (a d : nat) :
  chain parents (a :: rest) -> at_depth parents c d a ->
  Forall (fun b => b <> c) rest -> a ∉ rest.
Proof.
  intros Hchain Ha Hnc Hin.
  destruct (chain_deeper parents c rest a d Hchain Ha Hnc a Hin)
    as (d' & Hlt & Hd').
  pose proof (at_depth_unique _ _ _ _ _ Ha Hd'). lia.
Qed.

Section Walk.
Context `{VP : VisionPrimitives}.
Variables (parents : list Z) (next_H : list matrix) (c : nat)
  (center_H : matrix).
Hypothesis tree : tree_rooted parents c.
Hypothesis next_H_length : length next_H = length parents.

(** The state of the walk with table [t], stack [vs] and log [lg]. *)
Definition walking (t : list (option matrix)) (vs : list nat) (lg : list nat)
  : walk_state :=
  WalkState t (Z.of_nat <$> vs) lg.

(** The invariant of the walk: the entry of the center is the one set
    at the start; every other known entry is the product of the local
    transform of its node and of the entry of the parent; the log holds
    the known positions, each once; the nodes on the stack are unknown
    and form a chain towards the root. *)
Record walk_inv (t : list (option matrix)) (vs : list nat) (lg : list nat)
  : Prop := {
  inv_length : length t = length parents;
  inv_center : t !! c = Some (Some center_H);
  inv_composed : forall v H, v <> c -> t !! v = Some (Some H) ->
    exists p Hn Hp, parents !! v = Some (Z.of_nat p) /\
                    next_H !! v = Some Hn /\
                    t !! p = Some (Some Hp) /\
                    H = dot Hn Hp;
  inv_log_nodup : NoDup lg;
  inv_log : forall v, v ∈ lg <-> exists H, t !! v = Some (Some H);
  inv_unknown : Forall (fun v => t !! v = Some None) vs;
  inv_chain : chain parents vs
}.

Lemma top_facts (t : list (option matrix)) (v : nat) (vs lg : list nat) :
  walk_inv t (v :: vs) lg ->
  v <> c /\ t !! v = Some None /\ (v ∉ vs) /\
  exists p Hn x, parents !! v = Some (Z.of_nat p) /\
                 next_H !! v = Some Hn /\ t !! p = Some x /\
                 (forall d, at_depth parents c (S d) v -> at_depth parents c d p).
Proof.
  intros [Hlen Hcen _ _ _ Hunk Hchain].
  apply Forall_cons in Hunk as [Hv Hvs].
  assert (v <> c) as Hvc by (intros ->; congruence).
  assert (v < length parents) as Hlt.
  { apply lookup_lt_Some in Hv. lia. }
  destruct tree as [Hc Htree]. destruct (Htree v Hlt) as [d Hd].
  assert (Forall (fun b => b <> c) vs) as Hnc.
  { eapply Forall_impl; [exact Hvs|]. intros b Hb ->. cbn in Hb. congruence. }
  split_and!; [done|done|by eapply chain_top_fresh|].
  inversion Hd as [|v' p d' _ Hp Hdp]; subst; [done|].
  destruct (lookup_lt_is_Some_2 next_H v) as [Hn HHn]; [lia|].
  pose proof (at_depth_in_range _ _ _ _ Hc Hdp) as Hplt.
  destruct (lookup_lt_is_Some_2 t p) as [x Hx]; [lia|].
  exists p, Hn, x. split_and!; [done..|].
  intros d Hd'. inversion Hd' as [|v' p' d'' _ Hp' Hdp']; subst.
  rewrite Hp in Hp'. injection Hp' as Heq. by apply Nat2Z.inj in Heq as <-.
Qed.

(** The inner loop assigns the node on top of the stack when the entry
    of its parent is known. *)
Lemma walk_assign (fuel : nat) (t : list (option matrix)) (v p : nat)
    (vs lg : list nat) (Hn Hp : matrix) :
  walk_inv t (v :: vs) lg ->
  parents !! v = Some (Z.of_nat p) ->
  next_H !! v = Some Hn ->
  t !! p = Some (Some Hp) ->
  walk (S fuel) parents next_H c (walking t (v :: vs) lg)
  = walk fuel parents next_H c
      (walking (<[v := Some (dot Hn Hp)]> t) vs (lg ++ [v])) /\
  walk_inv (<[v := Some (dot Hn Hp)]> t) vs (lg ++ [v]).
Proof.
  intros Hinv Hpar HHn HHp.
  destruct (top_facts t v vs lg Hinv) as (Hvc & Hv & Hfresh & _).
  assert (v <> p) as Hvp by (intros ->; congruence).
  split.
  - cbn [walk walking path total_H assigned fmap list_fmap].
    rewrite py_index_nat, Hpar. cbv beta iota.
    rewrite decide_False by lia.
    rewrite py_index_nat, HHp. cbv beta iota.
    by rewrite py_index_nat, HHn.
  - destruct Hinv as [Hlen Hcen Hcomp Hnodup Hlog Hunk Hchain].
    apply Forall_cons in Hunk as [_ Hvs].
    assert (v < length t) as Hlt by by apply lookup_lt_Some in Hv.
    split.
    + by rewrite length_insert.
    + by rewrite list_lookup_insert_ne.
    + intros w H Hwc Hw. destruct (decide (w = v)) as [->|Hne].
      * rewrite list_lookup_insert_eq in Hw by done. injection Hw as <-.
        exists p, Hn, Hp. split_and!; [done|done| |done].
        by rewrite list_lookup_insert_ne.
      * rewrite list_lookup_insert_ne in Hw by done.
        destruct (Hcomp w H Hwc Hw) as (q & Hn' & Hq & Hpq & HHn' & HHq & ->).
        exists q, Hn', Hq. split_and!; [done|done| |done].
        rewrite list_lookup_insert_ne; [done|]. intros ->. congruence.
    + apply NoDup_app. split_and!; [done| |apply NoDup_singleton].
      intros w Hw Hw'. apply list_elem_of_singleton in Hw' as ->.
      apply Hlog in Hw as [H HH]. congruence.
    + intros w. rewrite elem_of_app, list_elem_of_singleton, Hlog.
      destruct (decide (w = v)) as [->|Hne].
      * rewrite list_lookup_insert_eq by done. split; [eauto|by right].
      * rewrite list_lookup_insert_ne by done. split; [|by left].
        by intros [?|?].
    + apply Forall_forall. intros w Hw.
      rewrite list_lookup_insert_ne; [|by intros ->].
      eapply Forall_forall in Hvs; [exact Hvs|done].
    + by eapply chain_tail.
Qed.

(** The inner loop defers the node on top of the stack, and pushes its
    parent, when the entry of the parent is unknown. *)
Lemma walk_defer (fuel : nat) (t : list (option matrix)) (v p : nat)
    (vs lg : list nat) :
  walk_inv t (v :: vs) lg ->
  parents !! v = Some (Z.of_nat p) ->
  t !! p = Some None ->
  walk (S fuel) parents next_H c (walking t (v :: vs) lg)
  = walk fuel parents next_H c (walking t (p :: v :: vs) lg) /\
  walk_inv t (p :: v :: vs) lg.
Proof.
  intros Hinv Hpar HHp.
  destruct (top_facts t v vs lg Hinv) as (Hvc & Hv & Hfresh & _).
  split.
  - cbn [walk walking path total_H assigned fmap list_fmap].
    rewrite py_index_nat, Hpar. cbv beta iota.
    rewrite decide_False by lia.
    by rewrite py_index_nat, HHp.
  - destruct Hinv as [Hlen Hcen Hcomp Hnodup Hlog Hunk Hchain].
    split; try done.
    + by apply Forall_cons.
    + by constructor.
Qed.

(** A stack whose top has a known parent is emptied by one assignment
    per node. *)
Lemma walk_unwind (vs : list nat) :
  forall (t : list (option matrix)) (lg : list nat),
  walk_inv t vs lg ->
  (forall v rest, vs = v :: rest ->
     exists p Hp, parents !! v = Some (Z.of_nat p) /\ t !! p = Some (Some Hp)) ->
  exists t' lg',
    (forall k, walk (length vs + k) parents next_H c (walking t vs lg)
               = walk k parents next_H c (walking t' [] lg')) /\
    walk_inv t' [] lg' /\
    unknown t' + length vs = unknown t.
Proof.
  induction vs as [|v rest IH]; intros t lg Hinv Hready.
  { exists t, lg. split_and!; [done|done|cbn [length]; lia]. }
  destruct (Hready v rest eq_refl) as (p & Hp & Hpar & HHp).
  destruct (top_facts t v rest lg Hinv) as (Hvc & Hv & _ & p' & Hn & x & Hpar' & HHn & _).
  destruct (walk_assign (length rest) t v p rest lg Hn Hp Hinv Hpar HHn HHp)
    as [_ Hinv1].
  destruct (IH _ _ Hinv1) as (t' & lg' & Hrun & Hinv' & Hcount).
  { intros b rest' ->. exists v, (dot Hn Hp). split.
    - destruct Hinv as [_ _ _ _ _ _ Hchain]. by inversion Hchain.
    - apply list_lookup_insert_eq. by apply lookup_lt_Some in Hv. }
  exists t', lg'. split_and!; [|done|].
  - intros k. cbn [length plus].
    destruct (walk_assign (length rest + k) t v p rest lg Hn Hp Hinv Hpar HHn HHp)
      as [-> _].
    apply Hrun.
  - pose proof (unknown_insert t v (dot Hn Hp) Hv). cbn [length]. lia.
Qed.

(** From any stack the walk reaches the empty stack: it defers [j] times
    and then assigns every node of the stack. *)
Lemma walk_resolve (d : nat) :
  forall (v : nat) (vs : list nat) (t : list (option matrix)) (lg : list nat),
  walk_inv t (v :: vs) lg ->
  at_depth parents c d v ->
  exists j t' lg',
    (forall k, walk (2 * j + S (length vs) + k) parents next_H c
                 (walking t (v :: vs) lg)
               = walk k parents next_H c (walking t' [] lg')) /\
    walk_inv t' [] lg' /\
    unknown t' + j + S (length vs) = unknown t.
Proof.
  induction d as [|d IH]; intros v vs t lg Hinv Hd.
  { destruct (top_facts t v vs lg Hinv) as (Hvc & _). by inversion Hd. }
  destruct (top_facts t v vs lg Hinv)
    as (Hvc & Hv & _ & p & Hn & x & Hpar & HHn & Hx & Hdp).
  specialize (Hdp d Hd). destruct x as [Hp|].
  - destruct (walk_unwind (v :: vs) t lg Hinv) as (t' & lg' & Hrun & Hinv' & Hcount).
    { intros v' rest [= <- <-]. eauto. }
    exists 0, t', lg'. split_and!; [|done|cbn [length] in Hcount; lia].
    intros k. apply Hrun.
  - destruct (walk_defer 0 t v p vs lg Hinv Hpar Hx) as [_ Hinv1].
    destruct (IH p (v :: vs) t lg Hinv1 Hdp) as (j & t' & lg' & Hrun & Hinv' & Hcount).
    exists (S j), t', lg'. split_and!; [|done|cbn [length] in Hcount; lia].
    intros k.
    replace (2 * S j + S (length vs) + k)
      with (S (2 * j + S (length (v :: vs)) + k)) by (cbn [length]; lia).
    destruct (walk_defer (2 * j + S (length (v :: vs)) + k) t v p vs lg
                Hinv Hpar Hx) as [-> _].
    apply Hrun.
Qed.

Lemma first_unknown_Some (t : list (option matrix)) (n : nat) :
  first_unknown t = Some n -> t !! n = Some None.
Proof.
  unfold first_unknown. destruct (list_find _ t) as [[i o]|] eqn:Hfind; [|done].
  intros [= <-]. apply list_find_Some in Hfind as (Hi & -> & _). done.
Qed.

Lemma first_unknown_None (t : list (option matrix)) (v : nat) :
  first_unknown t = None -> v < length t -> exists H, t !! v = Some (Some H).
Proof.
  unfold first_unknown. destruct (list_find _ t) as [[i o]|] eqn:Hfind; [done|].
  intros _ Hv. apply list_find_None in Hfind.
  destruct (lookup_lt_is_Some_2 t v Hv) as [[H|] HH]; [eauto|].
  eapply Forall_forall in Hfind; [|by eapply list_elem_of_lookup_2]. done.
Qed.

(** The walk ends, within two iterations per unknown entry and one more,
    with every entry known. *)
Lemma walk_completes (U : nat) :
  forall (t : list (option matrix)) (lg : list nat),
  walk_inv t [] lg -> unknown t = U ->
  exists t' lg',
    walk (2 * U + 1) parents next_H c (walking t [] lg)
    = Done (walking t' [] lg') /\
    walk_inv t' [] lg' /\ first_unknown t' = None.
Proof.
  induction U as [U IH] using lt_wf_ind. intros t lg Hinv HU.
  replace (2 * U + 1) with (S (2 * U)) by lia.
  destruct (first_unknown t) as [n|] eqn:Hfirst.
  - pose proof (first_unknown_Some t n Hfirst) as Hn.
    assert (walk_inv t [n] lg) as Hinv1.
    { destruct Hinv. split; try done; [by apply Forall_singleton|constructor]. }
    destruct tree as [_ Htree].
    destruct (Htree n) as [d Hd].
    { apply lookup_lt_Some in Hn. destruct Hinv. lia. }
    destruct (walk_resolve d n [] t lg Hinv1 Hd)
      as (j & t' & lg' & Hrun & Hinv' & Hcount).
    cbn [length] in Hcount.
    destruct (IH (unknown t') ltac:(lia) t' lg' Hinv' eq_refl)
      as (t'' & lg'' & Hdone & Hinv'' & Hnone).
    exists t'', lg''. split_and!; [|done|done].
    cbn [walk walking path total_H assigned fmap list_fmap]. rewrite Hfirst.
    replace (2 * U) with (2 * j + 1 + (2 * unknown t' + 1)) by lia.
    change (WalkState t [Z.of_nat n] lg) with (walking t [n] lg).
    cbn [length] in Hrun. rewrite Hrun. exact Hdone.
  - exists t, lg. split_and!; [|done|done].
    cbn [walk walking path total_H assigned fmap list_fmap]. by rewrite Hfirst.
Qed.

End Walk.

Section Composition.
Context `{VP : VisionPrimitives}.

Lemma walk_more_fuel (parents : list Z) (next_H : list matrix) (c : nat)
    (fuel : nat) :
  forall (fuel' : nat) (st st' : walk_state),
  walk fuel parents next_H c st = Done st' -> fuel <= fuel' ->
  walk fuel' parents next_H c st = Done st'.
Proof.
  induction fuel as [|fuel IH]; intros fuel' st st' Hdone Hle; [done|].
  destruct fuel' as [|fuel']; [lia|].
  cbn [walk] in *.
  repeat case_match; try done; (eapply IH; [eassumption|lia]).
Qed.

Lemma next_homographies_lookup (s : ImageStitcher) (c : nat)
    (parents : list Z) (next_H : list matrix) (n : nat) (d : Z) :
  next_homographies s c parents = Ok next_H ->
  parents !! n = Some d ->
  exists H, next_H !! n = Some H /\ next_homography s c n d = Ok H.
Proof.
  intros Hnext Hd. unfold next_homographies in Hnext.
  eapply (traverse_lookup _ _ _ n (n, d)) in Hnext; [done|].
  by rewrite list_lookup_imap, Hd.
Qed.

Lemma next_homographies_length (s : ImageStitcher) (c : nat)
    (parents : list Z) (next_H : list matrix) :
  next_homographies s c parents = Ok next_H ->
  length next_H = length parents.
Proof.
  intros Hnext. apply traverse_length in Hnext.
  by rewrite length_imap in Hnext.
Qed.

Lemma unknown_replicate {A : Type} (n : nat) :
  unknown (replicate n (@None A)) = n.
Proof.
  unfold unknown. induction n as [|n IH]; [done|].
  cbn -[filter]. rewrite filter_cons, decide_True by done. cbn -[filter].
  f_equal. exact IH.
Qed.

(** C3.  When the predecessor array is a tree rooted at the center and
    the pairwise transforms have been estimated, the walk ends within two
    iterations per node; the composed transform of the center is the
    identity; for every other node [n] with parent [p] it is the product
    of the pairwise transform of [n] and of the composed transform of
    [p], in this order; and every position of the table is assigned
    exactly once. *)
Theorem total_homographies_compose (s : ImageStitcher) (c : nat)
    (parents : list Z) (next_H : list matrix) (fuel : nat) :
  tree_rooted parents c ->
  next_homographies s c parents = Ok next_H ->
  2 * length parents <= fuel ->
  exists total log,
    _calculate_total_homographies fuel s c parents = Done (total, log) /\
    length total = length parents /\
    total !! c = Some (Some identity3) /\
    (forall n p, n <> c -> parents !! n = Some (Z.of_nat p) ->
       exists Hn Hp,
         next_H !! n = Some Hn /\
         total !! p = Some (Some Hp) /\
         total !! n = Some (Some (dot Hn Hp))) /\
    log ≡ₚ seq 0 (length parents).
Proof.
  intros Htree Hnext Hfuel.
  pose proof (next_homographies_length _ _ _ _ Hnext) as Hlen.
  pose proof Htree as [Hc _].
  destruct (lookup_lt_is_Some_2 parents c Hc) as [dc Hdc].
  destruct (next_homographies_lookup _ _ _ _ _ _ Hnext Hdc) as (Hcen & HHcen & Hid).
  unfold next_homography in Hid. rewrite decide_True in Hid by by right.
  injection Hid as <-.
  set (t0 := <[c := Some identity3]> (replicate (length parents) None)).
  assert (walk_inv parents next_H c identity3 t0 [] [c]) as Hinv0.
  { split.
    - unfold t0. by rewrite length_insert, length_replicate.
    - unfold t0. apply list_lookup_insert_eq. by rewrite length_replicate.
    - intros v H Hvc Hv. unfold t0 in Hv.
      rewrite list_lookup_insert_ne in Hv by done.
      apply lookup_replicate in Hv as [? _]. done.
    - apply NoDup_singleton.
    - intros v. rewrite list_elem_of_singleton. unfold t0. split.
      + intros ->. exists identity3. apply list_lookup_insert_eq.
        by rewrite length_replicate.
      + intros [H Hv]. destruct (decide (v = c)) as [|Hne]; [done|].
        rewrite list_lookup_insert_ne in Hv by done.
        apply lookup_replicate in Hv as [? _]. done.
    - constructor.
    - constructor. }
  assert (unknown t0 + 1 = length parents) as Hcount.
  { unfold t0. rewrite unknown_insert.
    - apply unknown_replicate.
    - apply lookup_replicate. done. }
  destruct (walk_completes parents next_H c identity3 Htree Hlen (unknown t0)
              t0 [c] Hinv0 eq_refl) as (t' & lg' & Hdone & Hinv' & Hnone).
  apply (walk_more_fuel _ _ _ _ fuel) in Hdone; [|lia].
  exists t', lg'. destruct Hinv' as [Hlen' Hcen' Hcomp Hnodup Hlog _ _].
  split_and!.
  - unfold _calculate_total_homographies. rewrite Hnext.
    unfold getitem. rewrite HHcen. fold t0.
    change (WalkState t0 [] [c]) with (walking t0 [] [c]).
    by rewrite Hdone.
  - done.
  - done.
  - intros n p Hnc Hp.
    assert (n < length t') as Hn.
    { apply lookup_lt_Some in Hp. lia. }
    destruct (first_unknown_None t' n Hnone Hn) as [H HH].
    destruct (Hcomp n H Hnc HH) as (p' & Hn' & Hp' & Hpar & HHn & HHp & ->).
    rewrite Hp in Hpar. injection Hpar as Heq. apply Nat2Z.inj in Heq as <-.
    eauto.
  - apply NoDup_Permutation; [done|apply NoDup_seq|].
    intros v. rewrite Hlog, elem_of_seq. split.
    + intros [H Hv]. apply lookup_lt_Some in Hv. lia.
    + intros [_ Hv]. apply (first_unknown_None t' v Hnone). lia.
Qed.

End Composition.

Lemma chain_is_tree : tree_rooted [1; -9999; 1]%Z 1.
Proof.
  split; [cbn; lia|]. intros v Hv. cbn in Hv.
  destruct v as [|[|[|v]]]; [| | |lia].
  - exists 1. by apply (depth_child _ _ 0 1 0); [|reflexivity|constructor].
  - exists 0. constructor.
  - exists 1. by apply (depth_child _ _ 2 1 0); [|reflexivity|constructor].
Qed.

Lemma total_homographies_compose_witness :
  exists total log,
    _calculate_total_homographies 6 Demo.chain 1 [1; -9999; 1]%Z
      = Done (total, log) /\
    length total = 3 /\
    total !! 1 = Some (Some identity3) /\
    log ≡ₚ [0; 1; 2].
Proof.
  destruct (next_homographies Demo.chain 1 [1; -9999; 1]%Z)
    as [next_H|e] eqn:Hnext; [|vm_compute in Hnext; discriminate].
  destruct (total_homographies_compose Demo.chain 1 [1; -9999; 1]%Z next_H 6
              chain_is_tree Hnext)
    as (total & log & Hdone & Hlen & Hcenter & _ & Hlog); [cbn; lia|].
  exists total, log. done.
Defined.

Example chain_composition_order :
  exists total,
    _calculate_total_homographies 6 Demo.chain 1 [1; -9999; 1]%Z
      = Done (total, [1; 0; 2]).
Proof. eexists. vm_compute. reflexivity. Qed.

(** *** C9: the draw order *)

Section DrawOrder.
Context `{GP : GraphPrimitives}.
Variables (parents : list Z) (c : nat).
Hypothesis tree : tree_rooted parents c.
Hypothesis argsort_complete :
  forall v, v < length parents -> v ∈ argsort parents.

Lemma elem_of_reconstruct_path (p n : nat) :
  n ∈ reconstruct_path parents p <->
  n < length parents /\ parents !! n = Some (Z.of_nat p).
Proof.
  unfold reconstruct_path. rewrite list_elem_of_filter. split.
  - intros [Hp _]. split; [by apply lookup_lt_Some in Hp|done].
  - intros [Hn Hp]. split; [done|by apply argsort_complete].
Qed.

(** The nodes of the graph that carry no flag yet. *)
Definition unflagged (flag : gset nat) : nat :=
  length (filter (fun v => v ∉ flag) (seq 0 (length parents))).

Lemma unflagged_insert (flag : gset nat) (v : nat) :
  v < length parents -> v ∉ flag ->
  unflagged ({[v]} ∪ flag) < unflagged flag.
Proof.
  intros Hv Hflag. unfold unflagged.
  apply (filter_length_strict _ _ _ v).
  - intros x. set_solver.
  - apply elem_of_seq. lia.
  - done.
  - set_solver.
Qed.

(** The invariant of the traversal: the flagged nodes are the listed
    ones, each listed once and with its parent listed before it; the
    list starts with the center; the stack holds listed nodes; and a
    listed node that has left the stack has all its children flagged. *)
Record dfs_inv (root_list : list nat) (flag : gset nat) (node_list : list nat)
  : Prop := {
  dfs_nodup : NoDup node_list;
  dfs_flag : forall v, v ∈ flag <-> v ∈ node_list;
  dfs_head : head node_list = Some c;
  dfs_stack : forall v, v ∈ root_list -> v ∈ node_list;
  dfs_range : forall v, v ∈ node_list -> v < length parents;
  dfs_parent_first : forall i n, node_list !! i = Some n -> n <> c ->
    exists j p, j < i /\ node_list !! j = Some p /\
                parents !! n = Some (Z.of_nat p);
  dfs_closed : forall v, v ∈ node_list -> v ∉ root_list ->
    forall child, child ∈ reconstruct_path parents v -> child ∈ flag
}.

Lemma dfs_inv_push (pnode cnode : nat) (rest : list nat) (flag : gset nat)
    (node_list : list nat) :
  dfs_inv (pnode :: rest) flag node_list ->
  cnode ∈ reconstruct_path parents pnode -> cnode ∉ flag ->
  dfs_inv (cnode :: pnode :: rest) ({[cnode]} ∪ flag) (node_list ++ [cnode]).
Proof.
  intros [Hnodup Hflag Hhead Hstack Hrange Hfirst Hclosed] Hchild Hfresh.
  apply elem_of_reconstruct_path in Hchild as [Hlt Hpar].
  split.
  - apply NoDup_app. split_and!; [done| |apply NoDup_singleton].
    intros v Hv Hv'. apply list_elem_of_singleton in Hv' as ->.
    by apply Hflag in Hv.
  - intros v. rewrite elem_of_union, elem_of_singleton, elem_of_app,
      list_elem_of_singleton, Hflag. tauto.
  - destruct node_list; [done|]. done.
  - intros v Hv. apply elem_of_app.
    apply elem_of_cons in Hv as [->|Hv]; [right; left|].
    left. by apply Hstack.
  - intros v Hv. apply elem_of_app in Hv as [Hv|Hv]; [by apply Hrange|].
    by apply list_elem_of_singleton in Hv as ->.
  - intros i n Hi Hnc. apply lookup_app_Some in Hi as [Hi|[Hge Hi]].
    + destruct (Hfirst i n Hi Hnc) as (j & p & Hj & Hp & Hparn).
      exists j, p. split_and!; [done| |done].
      by apply lookup_app_l_Some.
    + apply list_lookup_singleton_Some in Hi as [Hi <-].
      assert (pnode ∈ node_list) as Hin by (apply Hstack; left).
      apply list_elem_of_lookup in Hin as [j Hj].
      exists j, pnode. split_and!; [|by apply lookup_app_l_Some|done].
      apply lookup_lt_Some in Hj. lia.
  - intros v Hv Hout child Hc.
    apply elem_of_union. right.
    apply elem_of_app in Hv as [Hv|Hv].
    + apply (Hclosed v Hv); [|done].
      intros Hin. apply Hout. by right.
    + apply list_elem_of_singleton in Hv as ->. exfalso. apply Hout. left.
Qed.

Lemma dfs_inv_pop (pnode : nat) (rest : list nat) (flag : gset nat)
    (node_list : list nat) :
  dfs_inv (pnode :: rest) flag node_list ->
  Forall (fun cnode => ~ (cnode ∉ flag)) (reconstruct_path parents pnode) ->
  dfs_inv rest flag node_list.
Proof.
  intros [Hnodup Hflag Hhead Hstack Hrange Hfirst Hclosed] Hall.
  split; try done.
  - intros v Hv. apply Hstack. by right.
  - intros v Hv Hout child Hc.
    destruct (decide (v = pnode)) as [->|Hne].
    + eapply Forall_forall in Hall; [|exact Hc]. cbn in Hall.
      by destruct (decide (child ∈ flag)).
    + apply (Hclosed v Hv); [|done].
      intros Hin. apply elem_of_cons in Hin as [?|?]; done.
Qed.

(** With enough fuel the loop ends with an empty stack. *)
Lemma dfs_loop_spec (fuel : nat) :
  forall (root_list : list nat) (flag : gset nat) (node_list : list nat),
  dfs_inv root_list flag node_list ->
  2 * unflagged flag + length root_list <= fuel ->
  exists flag',
    dfs_inv [] flag'
      (dfs_loop fuel (reconstruct_path parents) root_list flag node_list).
Proof.
  induction fuel as [|fuel IH]; intros root_list flag node_list Hinv Hfuel.
  { destruct root_list; [|cbn in Hfuel; lia]. by exists flag. }
  destruct root_list as [|pnode rest]; [by exists flag|].
  cbn [dfs_loop].
  destruct (list_find _ (reconstruct_path parents pnode))
    as [[i cnode]|] eqn:Hfind.
  - apply list_find_Some in Hfind as (Hi & Hfresh & _).
    assert (cnode ∈ reconstruct_path parents pnode) as Hchild
      by by eapply list_elem_of_lookup_2.
    apply IH; [by apply dfs_inv_push|].
    pose proof Hchild as Hlt. apply elem_of_reconstruct_path in Hlt as [Hlt _].
    pose proof (unflagged_insert flag cnode Hlt Hfresh).
    cbn [length] in *. lia.
  - apply list_find_None in Hfind.
    apply IH; [by eapply dfs_inv_pop|]. cbn [length] in *. lia.
Qed.

Lemma dfs_inv_complete (flag : gset nat) (node_list : list nat) (d : nat) :
  dfs_inv [] flag node_list ->
  forall v, at_depth parents c d v -> v ∈ node_list.
Proof.
  intros [Hnodup Hflag Hhead Hstack Hrange Hfirst Hclosed].
  induction d as [|d IH]; intros v Hd.
  - inversion Hd; subst. destruct node_list as [|x l]; [done|].
    injection Hhead as ->. left.
  - inversion Hd as [|v' p d' Hvc Hp Hdp]; subst.
    apply Hflag. apply (Hclosed p); [by apply IH|apply not_elem_of_nil|].
    apply elem_of_reconstruct_path. split; [|done].
    by apply lookup_lt_Some in Hp.
Qed.

(** C9.  The draw order lists every node once; its last element is the
    center; and every other node stands before its parent in the
    spanning tree.  It is the reverse of the order in which the
    depth-first traversal from the center lists the nodes. *)
Theorem draw_order_children_before_parents :
  let order := _calculate_draw_order c parents in
  order = reverse (depth_first_order (length parents)
                     (reconstruct_path parents) c) /\
  order ≡ₚ seq 0 (length parents) /\
  last order = Some c /\
  (forall n p, n < length parents -> n <> c ->
     parents !! n = Some (Z.of_nat p) ->
     exists i j, i < j /\ order !! i = Some n /\ order !! j = Some p).
Proof.
  cbn zeta. unfold _calculate_draw_order, depth_first_order.
  set (nl := dfs_loop _ _ _ _ _).
  destruct tree as [Hc Htree].
  destruct (dfs_loop_spec (2 * length parents + 1) [c] {[c]} [c]) as [flag Hinv].
  { split.
    - apply NoDup_singleton.
    - intros v. by rewrite elem_of_singleton, list_elem_of_singleton.
    - done.
    - done.
    - intros v Hv. by apply list_elem_of_singleton in Hv as ->.
    - intros i n Hi Hn. by apply list_lookup_singleton_Some in Hi as [_ <-].
    - intros v Hv Hout. done. }
  { pose proof (length_filter (fun v => v ∉ ({[c]} : gset nat))
                  (seq 0 (length parents))) as Hle.
    rewrite length_seq in Hle. unfold unflagged. cbn [length]. lia. }
  fold nl in Hinv.
  assert (forall v, v < length parents -> v ∈ nl) as Hall.
  { intros v Hv. destruct (Htree v Hv) as [d Hd].
    by eapply dfs_inv_complete. }
  destruct Hinv as [Hnodup Hflag Hhead Hstack Hrange Hfirst Hclosed].
  split_and!.
  - done.
  - rewrite reverse_Permutation.
    apply NoDup_Permutation; [done|apply NoDup_seq|].
    intros v. rewrite elem_of_seq. split; [|intros [_ ?]; by apply Hall].
    intros Hv. apply Hrange in Hv. lia.
  - rewrite last_reverse. done.
  - intros n p Hn Hnc Hp.
    apply Hall, list_elem_of_lookup in Hn as [i Hi].
    destruct (Hfirst i n Hi Hnc) as (j & p' & Hj & Hp' & Hpar).
    rewrite Hp in Hpar. injection Hpar as Heq. apply Nat2Z.inj in Heq as <-.
    pose proof (lookup_lt_Some _ _ _ Hi) as Hilt.
    exists (length nl - S i), (length nl - S j). split_and!; [lia| |].
    + rewrite reverse_lookup by lia.
      replace (length nl - S (length nl - S i)) with i by lia. done.
    + rewrite reverse_lookup by lia.
      replace (length nl - S (length nl - S j)) with j by lia. done.
Qed.

End DrawOrder.

Lemma sort_positions_complete :
  forall v, v < length [1; -9999; 1]%Z ->
            v ∈ argsort (GraphPrimitives := Demo.graph) [1; -9999; 1]%Z.
Proof.
  intros v Hv. cbn in Hv.
  assert (argsort (GraphPrimitives := Demo.graph) [1; -9999; 1]%Z = [1; 2; 0])
    as -> by (vm_compute; reflexivity).
  destruct v as [|[|[|v]]]; [set_solver..|lia].
Qed.

Lemma draw_order_children_before_parents_witness :
  let order := _calculate_draw_order (GP := Demo.graph) 1 [1; -9999; 1]%Z in
  order ≡ₚ [0; 1; 2] /\
  last order = Some 1 /\
  (exists i j, i < j /\ order !! i = Some 0 /\ order !! j = Some 1).
Proof.
  destruct (draw_order_children_before_parents (GP := Demo.graph)
              [1; -9999; 1]%Z 1 chain_is_tree sort_positions_complete)
    as (_ & Hperm & Hlast & Hbefore).
  split_and!; [exact Hperm|exact Hlast|].
  apply (Hbefore 0 1); [cbn; lia|lia|reflexivity].
Defined.

(** The scenario of the three images in a row: A and C are painted
    before B. *)
Example chain_draw_order :
  _calculate_draw_order (GP := Demo.graph) 1 [1; -9999; 1]%Z = [0; 2; 1].
Proof. vm_compute. reflexivity. Qed.

(** ** Part III.  Further properties of the module *)

(** *** Keyword arguments ([update_defaults], lines 25-30) *)

Lemma setattr_names (obj : pyobj) (k : string) (v : pyval) :
  hasattr obj k = true -> dom (attrs (setattr obj k v)) = dom (attrs obj).
Proof.
  intros Hk. apply bool_decide_eq_true in Hk. cbn.
  rewrite dom_insert_L. apply elem_of_dom in Hk. set_solver.
Qed.


Lemma assign_all_lookup_last (kwargs : list (string * pyval)) (obj : pyobj)
    (k : string) (v : pyval) :
  NoDup kwargs.*1 -> (k, v) ∈ kwargs ->
  attrs (assign_all obj kwargs) !! k = Some v.
Proof.
  revert obj. induction kwargs as [|[k' v'] rest IH]; intros obj Hnodup Hin.
  { by apply elem_of_nil in Hin. }
  cbn in Hnodup. apply NoDup_cons in Hnodup as [Hfresh Hnodup].
  apply elem_of_cons in Hin as [[= -> ->]|Hin].
  - cbn. rewrite assign_all_lookup_other by done. cbn.
    apply lookup_insert_eq.
  - cbn. by apply IH.
Qed.



(** *** Rectangles ([image_corners], [fitting_rectangle], lines 33-59) *)

Lemma Qfloor_add_Z (x : Q) (n : Z) :
  Qfloor (x + inject_Z n) = (Qfloor x + n)%Z.
Proof.
  destruct x as [a b]. unfold Qfloor, Qplus, inject_Z. cbn [Qnum Qden].
  rewrite Pos.mul_1_r, Z.mul_1_r.
  rewrite Z.div_add by done. done.
Qed.

Lemma Qceiling_sub_Z (x : Q) (n : Z) :
  Qceiling (x - inject_Z n) = (Qceiling x - n)%Z.
Proof.
  unfold Qceiling.
  assert (- (x - inject_Z n) == - x + inject_Z n)%Q as -> by ring.
  rewrite Qfloor_add_Z. lia.
Qed.

Lemma least_of_unique (f : point -> Q) (pts : list point) (a b : Q) :
  least_of f pts (Some a) -> least_of f pts (Some b) -> (a == b)%Q.
Proof.
  intros [(pa & Hpa & <-) Ha] [(pb & Hpb & <-) Hb].
  apply Qle_antisym; auto.
Qed.

Lemma greatest_of_unique (f : point -> Q) (pts : list point) (a b : Q) :
  greatest_of f pts (Some a) -> greatest_of f pts (Some b) -> (a == b)%Q.
Proof.
  intros [(pa & Hpa & <-) Ha] [(pb & Hpb & <-) Hb].
  apply Qle_antisym; auto.
Qed.

Lemma least_of_same_points (f : point -> Q) (pts pts' : list point) (a : Q) :
  (forall p, p ∈ pts <-> p ∈ pts') ->
  least_of f pts (Some a) -> least_of f pts' (Some a).
Proof.
  intros Hsame [(p & Hp & Hfp) Hall]. split.
  - exists p. split; [by apply Hsame|done].
  - intros q Hq. by apply Hall, Hsame.
Qed.

Lemma greatest_of_same_points (f : point -> Q) (pts pts' : list point) (a : Q) :
  (forall p, p ∈ pts <-> p ∈ pts') ->
  greatest_of f pts (Some a) -> greatest_of f pts' (Some a).
Proof.
  intros Hsame [(p & Hp & Hfp) Hall]. split.
  - exists p. split; [by apply Hsame|done].
  - intros q Hq. by apply Hall, Hsame.
Qed.

(** The rectangle is determined by the extremes of the coordinates. *)
Lemma fitting_rectangle_of_extremes (pts : list point) (l r t b : Q) :
  least_of fst pts (Some l) -> greatest_of fst pts (Some r) ->
  least_of snd pts (Some t) -> greatest_of snd pts (Some b) ->
  fitting_rectangle pts =
    Ok ((Qfloor l, Qfloor t),
        ((Qceiling r - Qfloor l)%Z, (Qceiling b - Qfloor t)%Z)).
Proof.
  intros Hl Hr Ht Hb.
  assert (pts <> []) as Hne.
  { destruct Hl as [(p & Hp & _) _]. intros ->. by apply elem_of_nil in Hp. }
  destruct (fitting_rectangle_spec pts Hne)
    as (l' & r' & t' & b' & Hl' & Hr' & Ht' & Hb' & ->).
  rewrite !Qceiling_sub_Z.
  rewrite (Qfloor_comp _ _ (least_of_unique _ _ _ _ Hl' Hl)).
  rewrite (Qfloor_comp _ _ (least_of_unique _ _ _ _ Ht' Ht)).
  rewrite (Qceiling_comp _ _ (greatest_of_unique _ _ _ _ Hr' Hr)).
  rewrite (Qceiling_comp _ _ (greatest_of_unique _ _ _ _ Hb' Hb)).
  done.
Qed.



Example fitting_rectangle_rounds_outward :
  fitting_rectangle [(1 # 2, 3 # 1); (-5 # 2, 7 # 3)]%Q
  = Ok ((-3, 2), (4, 1))%Z.
Proof. reflexivity. Qed.

(** X4.  The rectangle depends on the points only as a set: two lists
    with the same points, in any order and with any repetition, have the
    same rectangle. *)
Theorem fitting_rectangle_same_points (pts pts' : list point) :
  (forall p, p ∈ pts <-> p ∈ pts') ->
  fitting_rectangle pts = fitting_rectangle pts'.
Proof.
  intros Hsame. destruct pts as [|p pts].
  { destruct pts' as [|p' pts']; [done|].
    exfalso. eapply elem_of_nil, Hsame. left. }
  destruct (fitting_rectangle_spec (p :: pts))
    as (l & r & t & b & Hl & Hr & Ht & Hb & _); [done|].
  rewrite (fitting_rectangle_of_extremes (p :: pts) l r t b) by done.
  symmetry. apply fitting_rectangle_of_extremes.
  - by eapply least_of_same_points.
  - by eapply greatest_of_same_points.
  - by eapply least_of_same_points.
  - by eapply greatest_of_same_points.
Qed.

Lemma fitting_rectangle_same_points_witness :
  fitting_rectangle [(0, 0); (2, 5); (0, 0)]%Q
  = fitting_rectangle [(2, 5); (0, 0)]%Q.
Proof.
  apply fitting_rectangle_same_points. intros p. set_solver.
Defined.

(** X5.  For every pixel buffer, the rectangle of its own corners starts
    at the origin, its width is the number of rows of the buffer and its
    height the number of columns: [image_corners] lists the corners as
    (row, column) pairs. *)
Theorem image_corners_rectangle (arr : list (list pixel)) :
  fitting_rectangle (image_corners arr)
  = Ok ((0, 0)%Z, (Z.of_nat (rows arr), Z.of_nat (cols arr))).
Proof.
  unfold image_corners.
  set (s0 := inject_Z (Z.of_nat (rows arr))).
  set (s1 := inject_Z (Z.of_nat (cols arr))).
  assert (0 <= s0)%Q as H0.
  { unfold s0. rewrite <- (Zle_Qle 0). lia. }
  assert (0 <= s1)%Q as H1.
  { unfold s1. rewrite <- (Zle_Qle 0). lia. }
  rewrite (fitting_rectangle_of_extremes _ 0%Q s0 0%Q s1).
  - unfold s0, s1. rewrite !Qceiling_Z. change (Qfloor 0) with 0%Z.
    by rewrite !Z.sub_0_r.
  - split; [exists (0%Q, 0%Q); split; [set_solver|done]|].
    intros p Hp. repeat (apply elem_of_cons in Hp as [->|Hp]); cbn; try lra.
    by apply elem_of_nil in Hp.
  - split; [exists (s0, s1); split; [set_solver|done]|].
    intros p Hp. repeat (apply elem_of_cons in Hp as [->|Hp]); cbn; try lra.
    by apply elem_of_nil in Hp.
  - split; [exists (0%Q, 0%Q); split; [set_solver|done]|].
    intros p Hp. repeat (apply elem_of_cons in Hp as [->|Hp]); cbn; try lra.
    by apply elem_of_nil in Hp.
  - split; [exists (s0, s1); split; [set_solver|done]|].
    intros p Hp. repeat (apply elem_of_cons in Hp as [->|Hp]); cbn; try lra.
    by apply elem_of_nil in Hp.
Qed.

(** *** Pasting ([paste_image], lines 62-75) *)

Lemma has_shape_pixel (b : list (list pixel)) (h w r c : nat) :
  has_shape b h w -> r < h -> c < w -> is_Some (pixel_at b r c).
Proof.
  intros [Hrows Hcols] Hr Hc. unfold pixel_at.
  destruct (lookup_lt_is_Some_2 b r) as [row Hrow]; [lia|].
  rewrite Hrow. cbn. apply lookup_lt_is_Some_2.
  eapply Forall_forall in Hcols; [|by eapply list_elem_of_lookup_2]. lia.
Qed.

Lemma pixel_at_in_shape (b : list (list pixel)) (h w r c : nat) (p : pixel) :
  has_shape b h w -> pixel_at b r c = Some p -> r < h /\ c < w.
Proof.
  intros [Hrows Hcols] Hp. unfold pixel_at in Hp.
  destruct (b !! r) as [row|] eqn:Hrow; [|done]. cbn in Hp.
  apply lookup_lt_Some in Hp.
  eapply Forall_forall in Hcols; [|by eapply list_elem_of_lookup_2].
  apply lookup_lt_Some in Hrow. lia.
Qed.

(** The shape assertion of [paste_image], for a shift that is not
    negative, in terms of the two buffers. *)
Lemma paste_image_assertion (base img : list (list pixel)) (x y : Z)
    (H W : nat) :
  has_shape base H W -> (0 <= x)%Z -> (0 <= y)%Z ->
  0 < rows img -> 0 < cols img ->
  (slice_bound (rows base) (y + Z.of_nat (rows img))
   - slice_bound (rows base) y = rows img /\
   slice_bound (cols base) (x + Z.of_nat (cols img))
   - slice_bound (cols base) x = cols img) <->
  (Z.to_nat y + rows img <= H /\ Z.to_nat x + cols img <= W).
Proof.
  intros Hshape Hx Hy Hr Hc.
  rewrite !slice_bound_nonneg by lia.
  destruct (decide (H = 0)) as [->|Hpos].
  - destruct Hshape as [Hrows _]. unfold rows in *.
    generalize dependent (cols img). generalize dependent (length img).
    generalize dependent (cols base). generalize dependent (length base).
    intros. lia.
  - rewrite (has_shape_cols base H W) by (done || lia).
    destruct Hshape as [Hrows _]. unfold rows in *.
    generalize dependent (cols img). generalize dependent (length img).
    generalize dependent (length base). intros. lia.
Qed.

(** X6.  [paste_image] does check the placement, through its shape
    assertion: with a shift that is not negative, a buffer that is not
    empty is pasted when it lies inside the base, and otherwise the call
    raises [AssertionError] and nothing is pasted. *)
Theorem paste_image_rejects_overhang (base img : list (list pixel)) (x y : Z)
    (H W : nat) :
  has_shape base H W -> (0 <= x)%Z -> (0 <= y)%Z ->
  0 < rows img -> 0 < cols img ->
  (Z.to_nat y + rows img <= H /\ Z.to_nat x + cols img <= W ->
   is_ok (paste_image base img (x, y)) = true) /\
  (~ (Z.to_nat y + rows img <= H /\ Z.to_nat x + cols img <= W) ->
   paste_image base img (x, y) = Raise AssertionError).
Proof.
  intros Hshape Hx Hy Hr Hc.
  pose proof (paste_image_assertion base img x y H W Hshape Hx Hy Hr Hc) as Hiff.
  unfold paste_image. cbn zeta.
  destruct (decide _) as [Hyes|Hno]; split; try done.
  - intros Hout. by apply Hiff in Hyes.
  - intros Hin. by apply Hiff in Hin.
Qed.

Lemma paste_image_rejects_overhang_witness :
  is_ok (paste_image [[Pixel 1 1 1 255; Pixel 2 2 2 255]] [[Pixel 9 9 9 255]]
           (1, 0)%Z) = true /\
  paste_image [[Pixel 1 1 1 255; Pixel 2 2 2 255]] [[Pixel 9 9 9 255]] (2, 0)%Z
  = Raise AssertionError.
Proof.
  split.
  - refine (proj1 (paste_image_rejects_overhang
                     [[Pixel 1 1 1 255; Pixel 2 2 2 255]] [[Pixel 9 9 9 255]]
                     1 0 1 2 _ _ _ _ _) _);
      [split; [reflexivity|repeat constructor]|lia|lia|cbn; lia|cbn; lia|cbn; lia].
  - refine (proj2 (paste_image_rejects_overhang
                     [[Pixel 1 1 1 255; Pixel 2 2 2 255]] [[Pixel 9 9 9 255]]
                     2 0 1 2 _ _ _ _ _) _);
      [split; [reflexivity|repeat constructor]|lia|lia|cbn; lia|cbn; lia|cbn; lia].
Defined.

(** The channels of a pixel are [uint8] values. *)
Definition valid_pixel (p : pixel) : Prop :=
  (0 <= red p <= 255 /\ 0 <= green p <= 255 /\
   0 <= blue p <= 255 /\ 0 <= alpha p <= 255)%Z.

Definition valid_buffer (b : list (list pixel)) : Prop :=
  Forall (Forall valid_pixel) b.

Lemma paste_pixel_valid (d s : pixel) :
  valid_pixel d -> valid_pixel s -> valid_pixel (paste_pixel d s).
Proof.
  unfold valid_pixel, paste_pixel, saturating_add.
  destruct d, s; cbn [red green blue alpha]. intros Hd Hs.
  destruct (255 - _ =? 0)%Z; cbn [red green blue alpha]; lia.
Qed.

Lemma paste_pixel_opaque (d s : pixel) :
  valid_pixel s -> alpha s = 255%Z -> paste_pixel d s = s.
Proof.
  unfold valid_pixel, paste_pixel, saturating_add.
  destruct s as [r g b a]; cbn [red green blue alpha]. intros Hs ->.
  change (255 - 255 =? 0)%Z with true. cbn [red green blue alpha].
  f_equal; lia.
Qed.

Lemma paste_pixel_clear (d : pixel) :
  valid_pixel d -> paste_pixel d (Pixel 0 0 0 0) = d.
Proof.
  unfold valid_pixel, paste_pixel, saturating_add.
  destruct d as [r g b a]; cbn [red green blue alpha]. intros Hd.
  change (255 - 0 =? 0)%Z with false. cbn [red green blue alpha].
  f_equal; lia.
Qed.

Lemma pixel_at_valid (b : list (list pixel)) (r c : nat) (p : pixel) :
  valid_buffer b -> pixel_at b r c = Some p -> valid_pixel p.
Proof.
  intros Hvalid Hp. unfold pixel_at in Hp.
  destruct (b !! r) as [row|] eqn:Hrow; [|done]. cbn in Hp.
  eapply Forall_forall in Hvalid; [|by eapply list_elem_of_lookup_2].
  eapply Forall_forall in Hvalid; [exact Hvalid|by eapply list_elem_of_lookup_2].
Qed.

Lemma valid_buffer_pixels (b : list (list pixel)) :
  (forall r c p, pixel_at b r c = Some p -> valid_pixel p) -> valid_buffer b.
Proof.
  intros Hall. apply Forall_forall. intros row Hrow.
  apply list_elem_of_lookup in Hrow as [r Hr].
  apply Forall_forall. intros p Hp.
  apply list_elem_of_lookup in Hp as [c Hc].
  apply (Hall r c). unfold pixel_at. by rewrite Hr.
Qed.

(** X7.  Pasting keeps the base a buffer of [uint8] pixels: when the base
    and the pasted buffer hold channel values between 0 and 255, so does
    the result. *)
Theorem paste_image_keeps_uint8 (base img base' : list (list pixel))
    (shift : Z * Z) :
  valid_buffer base -> valid_buffer img ->
  paste_image base img shift = Ok base' ->
  valid_buffer base'.
Proof.
  intros Hbase Himg Hpaste. destruct shift as [x y].
  apply valid_buffer_pixels. intros r c p Hp.
  rewrite (paste_image_lookup base img base' x y r c Hpaste) in Hp.
  destruct (pixel_at base r c) as [d|] eqn:Hd; [|done]. cbn in Hp.
  pose proof (pixel_at_valid base r c d Hbase Hd) as Hvd.
  destruct (decide _) in Hp; [|by injection Hp as <-].
  destruct (pixel_at img _ _) as [s|] eqn:Hs; injection Hp as <-; [|done].
  apply paste_pixel_valid; [done|]. by eapply pixel_at_valid.
Qed.

Lemma paste_image_keeps_uint8_witness :
  valid_buffer [[Pixel 250 250 250 255; Pixel 7 7 7 255]].
Proof.
  apply (paste_image_keeps_uint8
           [[Pixel 100 100 100 255; Pixel 7 7 7 255]] [[Pixel 150 150 150 128]]
           _ (0, 0)%Z).
  - repeat constructor; cbn; lia.
  - repeat constructor; cbn; lia.
  - reflexivity.
Defined.

Lemma paste_image_inside (base img base' : list (list pixel)) (x y : Z)
    (H W r c : nat) (d s : pixel) :
  has_shape base H W -> (0 <= x)%Z -> (0 <= y)%Z ->
  paste_image base img (x, y) = Ok base' ->
  pixel_at base (Z.to_nat y + r) (Z.to_nat x + c) = Some d ->
  pixel_at img r c = Some s ->
  r < rows img -> c < cols img ->
  pixel_at base' (Z.to_nat y + r) (Z.to_nat x + c) = Some (paste_pixel d s).
Proof.
  intros Hshape Hx Hy Hpaste Hd Hs Hr Hc.
  pose proof Hpaste as Hassert. unfold paste_image in Hassert.
  cbn zeta in Hassert.
  destruct (decide _) as [Hfit|] in Hassert; [|done]. clear Hassert.
  apply (paste_image_assertion base img x y H W) in Hfit as [HfitR HfitC];
    [|done|done|done|lia|lia].
  destruct (pixel_at_in_shape base H W _ _ d Hshape Hd) as [HrH HcW].
  rewrite (paste_image_lookup base img base' x y _ _ Hpaste), Hd. cbn.
  rewrite !slice_bound_nonneg by lia.
  rewrite (has_shape_cols base H W) by (done || lia).
  destruct Hshape as [Hrows _]. unfold rows in *. rewrite Hrows.
  rewrite decide_True.
  - replace (Z.to_nat y + r - Z.to_nat y `min` H) with r by lia.
    replace (Z.to_nat x + c - Z.to_nat x `min` W) with c by lia.
    by rewrite Hs.
  - generalize dependent (cols img). generalize dependent (length img).
    intros. lia.
Qed.

(** X8.  Under a pasted buffer, a source pixel that is fully opaque
    replaces the destination pixel, and a source pixel that is
    transparent black (the border that a warp leaves around the image)
    leaves the destination pixel as it was. *)
Theorem paste_image_opaque_replaces_clear_keeps
    (base img base' : list (list pixel)) (x y : Z) (H W r c : nat)
    (d s : pixel) :
  has_shape base H W -> (0 <= x)%Z -> (0 <= y)%Z ->
  paste_image base img (x, y) = Ok base' ->
  pixel_at base (Z.to_nat y + r) (Z.to_nat x + c) = Some d ->
  pixel_at img r c = Some s ->
  r < rows img -> c < cols img ->
  valid_pixel d -> valid_pixel s ->
  (alpha s = 255%Z ->
   pixel_at base' (Z.to_nat y + r) (Z.to_nat x + c) = Some s) /\
  (s = Pixel 0 0 0 0 ->
   pixel_at base' (Z.to_nat y + r) (Z.to_nat x + c) = Some d).
Proof.
  intros Hshape Hx Hy Hpaste Hd Hs Hr Hc Hvd Hvs.
  rewrite (paste_image_inside base img base' x y H W r c d s) by done.
  split.
  - intros Ha. by rewrite paste_pixel_opaque.
  - intros ->. by rewrite paste_pixel_clear.
Qed.

Lemma paste_image_opaque_replaces_clear_keeps_witness :
  pixel_at [[Pixel 9 9 9 255; Pixel 2 2 2 255]] 0 0 = Some (Pixel 9 9 9 255) /\
  pixel_at [[Pixel 9 9 9 255; Pixel 2 2 2 255]] 0 1 = Some (Pixel 2 2 2 255).
Proof.
  split.
  - refine (proj1 (paste_image_opaque_replaces_clear_keeps
                     [[Pixel 1 1 1 255; Pixel 2 2 2 255]]
                     [[Pixel 9 9 9 255; Pixel 0 0 0 0]]
                     [[Pixel 9 9 9 255; Pixel 2 2 2 255]]
                     0 0 1 2 0 0 (Pixel 1 1 1 255) (Pixel 9 9 9 255)
                     _ _ _ _ _ _ _ _ _ _) _);
      try reflexivity; try lia; try (cbn; lia);
      try (split; [reflexivity|repeat constructor]);
      try (unfold valid_pixel; cbn; lia).
  - refine (proj2 (paste_image_opaque_replaces_clear_keeps
                     [[Pixel 1 1 1 255; Pixel 2 2 2 255]]
                     [[Pixel 9 9 9 255; Pixel 0 0 0 0]]
                     [[Pixel 9 9 9 255; Pixel 2 2 2 255]]
                     0 0 1 2 0 1 (Pixel 2 2 2 255) (Pixel 0 0 0 0)
                     _ _ _ _ _ _ _ _ _ _) _);
      try reflexivity; try lia; try (cbn; lia);
      try (split; [reflexivity|repeat constructor]);
      try (unfold valid_pixel; cbn; lia).
Defined.

(** *** What the session operations change *)

Section SessionEffects.
Context `{VP : VisionPrimitives} `{GP : GraphPrimitives}.

(** An operation keeps a relation between the session before and after
    it. *)
Definition keeps {A : Type} (R : relation ImageStitcher) (m : action A)
  : Prop :=
  forall s, R s (m s).1.

Lemma keeps_ret {A : Type} (R : relation ImageStitcher) `{!Reflexive R} (a : A) :
  keeps R (ret a).
Proof. intros s. cbn. reflexivity. Qed.

Lemma keeps_throw {A : Type} (R : relation ImageStitcher) `{!Reflexive R}
    (e : exn) :
  keeps R (throw (A := A) e).
Proof. intros s. cbn. reflexivity. Qed.

Lemma keeps_lift {A : Type} (R : relation ImageStitcher) `{!Reflexive R}
    (r : result A) :
  keeps R (lift r).
Proof. intros s. cbn. reflexivity. Qed.

Lemma keeps_read {A : Type} (R : relation ImageStitcher) `{!Reflexive R}
    (f : ImageStitcher -> A) :
  keeps R (read f).
Proof. intros s. cbn. reflexivity. Qed.

Lemma keeps_write (R : relation ImageStitcher)
    (f : ImageStitcher -> ImageStitcher) :
  (forall s, R s (f s)) -> keeps R (write f).
Proof. intros Hf s. cbn. apply Hf. Qed.

Lemma keeps_and_then {A B : Type} (R : relation ImageStitcher)
    `{!Transitive R} (m : action A) (k : A -> action B) :
  keeps R m -> (forall a, keeps R (k a)) -> keeps R (and_then m k).
Proof.
  intros Hm Hk s. unfold and_then. specialize (Hm s).
  destruct (m s) as [s1 [a|e]]; cbn in *; [|done].
  etrans; [exact Hm|]. apply Hk.
Qed.

(** The data of a session, as opposed to its two caches. *)
Definition same_data : relation ImageStitcher :=
  fun s s' =>
    _images s' = _images s /\ _matches s' = _matches s /\
    ratio_threshold s' = ratio_threshold s /\
    matches_threshold s' = matches_threshold s /\ debug s' = debug s.

#[local] Instance same_data_refl : Reflexive same_data.
Proof. by intros s. Qed.

#[local] Instance same_data_trans : Transitive same_data.
Proof.
  intros s1 s2 s3 (? & ? & ? & ? & ?) (? & ? & ? & ? & ?).
  unfold same_data. split_and!; congruence.
Qed.

(** The invariant of the session is kept. *)
Definition keeps_well_formed : relation ImageStitcher :=
  fun s s' => well_formed s -> well_formed s'.

#[local] Instance keeps_well_formed_refl : Reflexive keeps_well_formed.
Proof. intros s H. exact H. Qed.

#[local] Instance keeps_well_formed_trans : Transitive keeps_well_formed.
Proof. intros s1 s2 s3 H12 H23 H. by apply H23, H12. Qed.

Lemma edge_matrix_same_data : keeps same_data _edge_matrix.
Proof.
  intros s. unfold _edge_matrix.
  destruct (decide _); [done|].
  destruct (_current_edge_matrix s) as [current|].
  - destruct (decide _); [done|]. by destruct (build_edge_matrix s).
  - by destruct (build_edge_matrix s).
Qed.

Lemma edge_matrix_keeps_well_formed : keeps keeps_well_formed _edge_matrix.
Proof.
  intros s Hwf. eapply edge_matrix_well_formed; [exact Hwf|].
  apply surjective_pairing.
Qed.

Lemma set_center_well_formed (s : ImageStitcher) (c : option nat) :
  well_formed s -> well_formed (set_center s c).
Proof. by intros [Hkeys Hcache]. Qed.

(** The operations are built from [_edge_matrix] and the assignment of
    the center, so they keep whatever those two keep. *)
Section Kept.
Variable R : relation ImageStitcher.
Context `{!Reflexive R} `{!Transitive R}.
Hypothesis edge_matrix_kept : keeps R _edge_matrix.
Hypothesis set_center_kept : forall s c, R s (set_center s c).

Lemma and_then_kept {A B : Type} (m : action A) (k : A -> action B) :
  keeps R m -> (forall a, keeps R (k a)) -> keeps R (and_then m k).
Proof. by apply keeps_and_then. Qed.

Lemma validate_kept : keeps R validate.
Proof.
  unfold validate. apply and_then_kept; [done|]. intros g.
  destruct (connected_components g) as [cc groups].
  destruct (decide _); [by apply keeps_ret|].
  apply and_then_kept; [by apply keeps_read|]. intros images.
  apply and_then_kept; [by apply keeps_lift|]. intros names.
  by apply keeps_throw.
Qed.

Lemma find_center_kept : keeps R _find_center.
Proof.
  unfold _find_center. apply and_then_kept; [done|]. intros g.
  apply and_then_kept; [by apply keeps_read|]. intros images.
  apply and_then_kept; [by apply keeps_lift|]. intros _.
  by apply keeps_ret.
Qed.

Lemma center_kept : keeps R center.
Proof.
  unfold center. apply and_then_kept; [by apply keeps_read|].
  intros [c|]; [by apply keeps_ret|].
  apply and_then_kept; [apply find_center_kept|]. intros c.
  apply and_then_kept; [by apply keeps_write|]. intros _.
  by apply keeps_ret.
Qed.

Lemma spanning_tree_kept : keeps R spanning_tree.
Proof.
  unfold spanning_tree. apply and_then_kept; [apply validate_kept|].
  intros _. apply and_then_kept; [apply center_kept|]. intros c.
  apply and_then_kept; [by apply keeps_read|]. intros images.
  apply and_then_kept; [by apply keeps_lift|]. intros _.
  apply and_then_kept; [done|]. intros g.
  by apply keeps_ret.
Qed.

Lemma stitch_kept (fuel : nat) (s : ImageStitcher) : R s (stitch fuel s).1.
Proof.
  unfold stitch. pose proof (spanning_tree_kept s) as Hkept.
  destruct (spanning_tree s) as [s1 [[c parents]|e]]; cbn in *; [|done].
  destruct (_calculate_total_homographies fuel s1 c parents)
    as [[Hs log]| |]; [|done..].
  by destruct (compose_canvas s1 c parents Hs).
Qed.

End Kept.

(** X9.  [stitch] changes nothing but the two caches: whether it
    returns a canvas or fails, the images, the match records and the
    settings of the session are the ones it started with, and the
    invariant of the session is kept. *)
Theorem stitch_only_touches_caches (fuel : nat) (s : ImageStitcher) :
  same_data s (stitch fuel s).1 /\
  (well_formed s -> well_formed (stitch fuel s).1).
Proof.
  split.
  - apply stitch_kept; [apply _|apply _|apply edge_matrix_same_data|done].
  - apply (stitch_kept keeps_well_formed);
      [apply edge_matrix_keeps_well_formed|].
    intros s0 c Hwf. by apply set_center_well_formed.
Qed.

(** X10.  The matrix that [_edge_matrix] returns is the one it leaves in
    the cache: its size is the number of images, a second read returns it
    again without any change to the session, and a read that raises
    leaves the session as it was. *)
Theorem edge_matrix_is_cached (s s' : ImageStitcher) (r : result sparse) :
  _edge_matrix s = (s', r) ->
  match r with
  | Ok g =>
      _current_edge_matrix s' = Some g /\
      shape g = length (_images s') /\
      _edge_matrix s' = (s', Ok g)
  | Raise e => s' = s
  end.
Proof.
  unfold _edge_matrix.
  destruct (decide (length (_images s) = 0)) as [|Hlen]; [by intros [= <- <-]|].
  assert (forall m, build_edge_matrix s = Ok m ->
            let s1 := set_current_edge_matrix s (Some m) in
            _current_edge_matrix s1 = Some m /\
            shape m = length (_images s1) /\
            _edge_matrix s1 = (s1, Ok m)) as Hfresh.
  { intros m Hm. pose proof (build_edge_matrix_shape s m Hm) as Hshape.
    cbn. split_and!; [done..|].
    unfold _edge_matrix. cbn.
    rewrite decide_False by done. by rewrite decide_True. }
  destruct (_current_edge_matrix s) as [current|] eqn:Hcur.
  - destruct (decide (shape current = length (_images s))) as [Hshape|].
    + intros [= <- <-]. split_and!; [done..|].
      unfold _edge_matrix. rewrite decide_False by done.
      rewrite Hcur. by rewrite decide_True.
    + destruct (build_edge_matrix s) as [m|e] eqn:Hb; intros [= <- <-];
        [by apply Hfresh|done].
  - destruct (build_edge_matrix s) as [m|e] eqn:Hb; intros [= <- <-];
      [by apply Hfresh|done].
Qed.

End SessionEffects.

Lemma edge_matrix_is_cached_witness :
  let s' := (_edge_matrix Demo.chain).1 in
  let g := Sparse 3 (<[(1, 0) := 1%Z]> {[(2, 1) := 6%Z]}) in
  _current_edge_matrix s' = Some g /\
  shape g = length (_images s') /\
  _edge_matrix s' = (s', Ok g).
Proof.
  apply (edge_matrix_is_cached Demo.chain (_edge_matrix Demo.chain).1
           (Ok (Sparse 3 (<[(1, 0) := 1%Z]> {[(2, 1) := 6%Z]})))).
  vm_compute. reflexivity.
Defined.

Lemma stitch_only_touches_caches_witness :
  same_data Demo.chain (stitch (GP := Demo.graph) 10 Demo.chain).1 /\
  well_formed (stitch (GP := Demo.graph) 10 Demo.chain).1.
Proof.
  destruct (stitch_only_touches_caches (GP := Demo.graph) 10 Demo.chain)
    as [Hdata Hwf].
  split; [exact Hdata|exact (Hwf chain_well_formed)].
Defined.

(** *** Sessions that cannot be stitched *)

Section Refusal.
Context `{VP : VisionPrimitives} `{GP : GraphPrimitives}.

(** X11.  On a session with a match record whose match graph is not
    connected, [stitch] never produces a canvas and never reaches the
    estimation of a transform: for every bound on the walk it fails with
    the error of [validate], which names at least one image, none of
    which carries the majority label. *)
Theorem stitch_refuses_disconnected (s : ImageStitcher) (fuel : nat)
    (i j : nat) :
  well_formed s -> _matches s <> ∅ ->
  i < length (_images s) -> j < length (_images s) ->
  ~ connected (match_graph s) i j ->
  let groups := (connected_components (match_graph s)).2 in
  exists ml outsiders,
    majority groups ml /\
    outsiders = filter (fun v => groups !! v <> Some ml)
                  (seq 0 (length (_images s))) /\
    outsiders <> [] /\
    (stitch fuel s).2 =
      Failed (ValueError (could_not_be_stitched (image_name s <$> outsiders))).
Proof.
  intros Hwf Hne Hi Hj Hsplit groups.
  pose proof (match_graph_in_range s Hwf) as Hrange.
  set (g := match_graph s) in *.
  assert (exists s', _edge_matrix s = (s', Ok g) /\ _images s' = _images s)
    as (s' & Hedge & Himages).
  { destruct (edge_matrix_ok s Hwf Hne) as [H|[_ H]]; eauto. }
  destruct (validate_after_edge_matrix s s' g Hedge Himages eq_refl Hrange)
    as [_ Hbad].
  assert ((connected_components g).1 <> 1) as Hcc.
  { intros Hone. apply Hsplit.
    apply (one_component_iff_connected g Hrange); [cbn; lia|done..]. }
  specialize (Hbad Hcc).
  assert (length groups = length (_images s)) as Hlen.
  { unfold groups. by rewrite groups_length. }
  exists (argmax (bincount groups)), (where_ne groups (argmax (bincount groups))).
  split_and!.
  - apply argmax_bincount_majority. intros Hnil. rewrite Hnil in Hlen.
    cbn in Hlen. lia.
  - unfold where_ne. by rewrite Hlen.
  - destruct (lookup_lt_is_Some_2 groups i) as [li Hli]; [lia|].
    destruct (lookup_lt_is_Some_2 groups j) as [lj Hlj]; [lia|].
    assert (li <> lj) as Hdiff.
    { intros ->. apply Hsplit.
      by apply (same_label_iff_connected g Hrange i j lj lj). }
    intros Hnil.
    assert (forall v, v < length groups ->
                      groups !! v = Some (argmax (bincount groups))) as Hall.
    { intros v Hv.
      destruct (decide (groups !! v = Some (argmax (bincount groups))))
        as [|Hno]; [done|].
      exfalso. eapply (elem_of_nil v). rewrite <- Hnil.
      apply list_elem_of_filter. split; [done|]. apply elem_of_seq. lia. }
    rewrite Hall in Hli by lia. rewrite Hall in Hlj by lia. congruence.
  - unfold stitch, spanning_tree, and_then. by rewrite Hbad.
Qed.

End Refusal.

Lemma stray_not_connected : ~ connected (match_graph Demo.stray) 0 2.
Proof.
  intros Hconn.
  apply (same_label_iff_connected (match_graph Demo.stray)
           (match_graph_in_range _ stray_well_formed) 0 2 0 1) in Hconn;
    [done|reflexivity|reflexivity].
Qed.

Lemma stitch_refuses_disconnected_witness :
  exists ml outsiders,
    majority (connected_components (match_graph Demo.stray)).2 ml /\
    outsiders = filter (fun v => (connected_components
                                    (match_graph Demo.stray)).2 !! v
                                 <> Some ml) (seq 0 3) /\
    outsiders <> [] /\
    (stitch (GP := Demo.graph) 10 Demo.stray).2 =
      Failed (ValueError (could_not_be_stitched
                (image_name Demo.stray <$> outsiders))).
Proof.
  apply (stitch_refuses_disconnected (GP := Demo.graph) Demo.stray 10 0 2
           stray_well_formed stray_has_records);
    [cbn; lia|cbn; lia|exact stray_not_connected].
Defined.

Example stray_stitch_fails :
  (stitch (GP := Demo.graph) 10 Demo.stray).2
  = Failed (ValueError "Image(s) C could not be stitched").
Proof. vm_compute. reflexivity. Qed.

(** *** Adding images ([add_image], [_match_features], lines 121-137 and
    333-351) *)

Section AddImage.
Context `{VP : VisionPrimitives}.

(** The candidates that pass the ratio test (lines 338-339). *)
Definition good_matches (s : ImageStitcher) (src dst : StitchImage)
  : list DMatch :=
  (fun ij : DMatch * DMatch => fst ij) <$>
    filter (fun ij : DMatch * DMatch =>
              (distance (fst ij) < ratio_threshold s * distance (snd ij))%Q)
           (knnMatch (feat src) (feat dst)).

Lemma match_features_threshold (s : ImageStitcher) (src dst : StitchImage) :
  _match_features s src dst =
  if decide (matches_threshold s <= length (good_matches s src dst))
  then Some (good_matches s src dst) else None.
Proof. reflexivity. Qed.

(** The image that [add_image] appends. *)
Definition new_image (pixels : list (list pixel)) (nm : string) : StitchImage :=
  {| image := pixels; kp := (detectAndCompute pixels).1;
     feat := (detectAndCompute pixels).2; name := nm |}.

Lemma match_against_other_row (s : ImageStitcher) (img : StitchImage)
    (idx : nat) (others : list (nat * StitchImage))
    (m : gmap (nat * nat) (list DMatch)) (i j : nat) :
  i <> idx -> match_against s img idx others m !! (i, j) = m !! (i, j).
Proof.
  intros Hne. revert m. induction others as [|[o other] rest IH]; intros m;
    cbn; [done|].
  rewrite IH. destruct (_match_features s img other); [|done].
  apply lookup_insert_ne. congruence.
Qed.

Lemma match_against_absent (s : ImageStitcher) (img : StitchImage)
    (idx : nat) (others : list (nat * StitchImage))
    (m : gmap (nat * nat) (list DMatch)) (j : nat) :
  j ∉ others.*1 ->
  match_against s img idx others m !! (idx, j) = m !! (idx, j).
Proof.
  revert m. induction others as [|[o other] rest IH]; intros m Hj; cbn; [done|].
  cbn in Hj. apply not_elem_of_cons in Hj as [Hne Hj].
  rewrite IH by done. destruct (_match_features s img other); [|done].
  apply lookup_insert_ne. congruence.
Qed.

Lemma match_against_present (s : ImageStitcher) (img : StitchImage)
    (idx : nat) (others : list (nat * StitchImage))
    (m : gmap (nat * nat) (list DMatch)) (j : nat) (other : StitchImage) :
  NoDup others.*1 -> (j, other) ∈ others ->
  match_against s img idx others m !! (idx, j) =
  match _match_features s img other with
  | Some good => Some good
  | None => m !! (idx, j)
  end.
Proof.
  revert m. induction others as [|[o ot] rest IH]; intros m Hnodup Hin.
  { by apply elem_of_nil in Hin. }
  cbn in Hnodup. apply NoDup_cons in Hnodup as [Hfresh Hnodup].
  cbn [match_against].
  apply elem_of_cons in Hin as [[= <- <-]|Hin].
  - rewrite match_against_absent by done.
    destruct (_match_features s img other); [|done].
    apply lookup_insert_eq.
  - rewrite IH by done.
    destruct (_match_features s img other) as [good|]; [done|].
    destruct (_match_features s img ot); [|done].
    apply lookup_insert_ne. intros [= ->]. apply Hfresh.
    apply list_elem_of_fmap. by exists (j, other).
Qed.

Lemma enumerate_keys {A : Type} (l : list A) :
  (imap (fun i o => (i, o)) l).*1 = seq 0 (length l).
Proof.
  apply list_eq. intros i. rewrite list_lookup_fmap, list_lookup_imap.
  destruct (l !! i) as [a|] eqn:Ha; cbn.
  - symmetry. apply lookup_seq. split; [done|]. by apply lookup_lt_Some in Ha.
  - symmetry. apply lookup_ge_None. rewrite length_seq.
    by apply lookup_ge_None in Ha.
Qed.

Lemma add_image_unfold (s : ImageStitcher) (pixels : list (list pixel))
    (nm : string) :
  add_image s pixels nm =
  let img := new_image pixels nm in
  let s1 := set_images s (_images s ++ [img]) in
  set_matches s1
    (match_against s1 img (length (_images s))
       (imap (fun i o => (i, o)) (_images s)) (_matches s)).
Proof.
  unfold add_image, new_image. by destruct (detectAndCompute pixels).
Qed.

(** X12.  [add_image] appends the image and compares it with each
    earlier image: the pair of the new image and an earlier one gets a
    record exactly when the candidates that pass the ratio test reach the
    threshold, and the record is the list of those candidates; the
    records of all other pairs are unchanged, and no record relates the
    new image to itself or to a later position. *)
Theorem add_image_records (s : ImageStitcher) (pixels : list (list pixel))
    (nm : string) :
  well_formed s ->
  let s1 := add_image s pixels nm in
  let idx := length (_images s) in
  let img := new_image pixels nm in
  _images s1 = _images s ++ [img] /\
  (forall i j, i <> idx -> _matches s1 !! (i, j) = _matches s !! (i, j)) /\
  (forall j other, _images s !! j = Some other ->
     _matches s1 !! (idx, j) =
     if decide (matches_threshold s <= length (good_matches s img other))
     then Some (good_matches s img other) else None) /\
  (forall j, idx <= j -> _matches s1 !! (idx, j) = None).
Proof.
  intros [Hkeys _]. cbn zeta. rewrite add_image_unfold. cbn zeta.
  cbn [_images _matches set_matches set_images].
  assert (forall j, _matches s !! (length (_images s), j) = None) as Hnew.
  { intros j. destruct (_matches s !! _) as [v|] eqn:Hv; [|done].
    apply Hkeys in Hv. cbn in Hv. lia. }
  split_and!.
  - done.
  - intros i j Hne. by apply match_against_other_row.
  - intros j other Hj.
    rewrite (match_against_present _ _ _ _ _ j other).
    + rewrite Hnew. rewrite match_features_threshold.
      unfold good_matches. cbn. by destruct (decide _).
    + rewrite enumerate_keys. apply NoDup_seq.
    + apply list_elem_of_lookup. exists j.
      by rewrite list_lookup_imap, Hj.
  - intros j Hj. rewrite match_against_absent; [apply Hnew|].
    rewrite enumerate_keys, elem_of_seq. lia.
Qed.

(** X13.  Adding an image invalidates the cached edge matrix but not the
    cached center: after [add_image] the property [center] still returns
    the center that was cached or set before, while [_edge_matrix]
    returns a matrix with one node more. *)
Theorem add_image_keeps_center (s : ImageStitcher)
    (pixels : list (list pixel)) (nm : string) (c : nat) :
  well_formed s -> _center s = Some c ->
  let s1 := add_image s pixels nm in
  center s1 = (s1, Ok c) /\
  (forall s2 g, _edge_matrix s1 = (s2, Ok g) ->
                shape g = S (length (_images s)) /\
                _current_edge_matrix s1 <> Some g).
Proof.
  intros Hwf Hc. cbn zeta.
  pose proof (add_image_well_formed s pixels nm Hwf) as Hwf1.
  rewrite add_image_unfold in *. cbn zeta in *.
  set (s1 := set_matches _ _) in *.
  assert (length (_images s1) = S (length (_images s))) as Hlen.
  { cbn. rewrite length_app. cbn. lia. }
  split.
  - unfold center, and_then, read. cbn. by rewrite Hc.
  - intros s2 g Hedge. unfold _edge_matrix in Hedge.
    rewrite decide_False in Hedge by lia.
    destruct Hwf as [_ Hcache].
    change (_current_edge_matrix s1) with (_current_edge_matrix s) in *.
    assert (build_edge_matrix s1 = Ok g /\ _current_edge_matrix s <> Some g)
      as [Hb Hstale].
    { destruct (_current_edge_matrix s) as [current|] eqn:Hcur.
      - destruct (Hcache current eq_refl) as [Hle _].
        rewrite decide_False in Hedge by lia.
        destruct (build_edge_matrix s1) as [m|] eqn:Hm; [|done].
        injection Hedge as <- <-. split; [done|].
        intros [= ->]. apply build_edge_matrix_shape in Hm. lia.
      - destruct (build_edge_matrix s1) as [m|] eqn:Hm; [|done].
        by injection Hedge as <- <-. }
    split; [|done]. apply build_edge_matrix_shape in Hb. lia.
Qed.

End AddImage.

(** *** A session that is built through [add_image]

    An instance of the vision interface whose matcher answers: the
    descriptor of a picture is its number of rows, two pictures whose
    descriptors differ by one share twelve candidates that pass the
    ratio test and three that do not, any other two share four that
    pass. *)
Module Panorama.

Definition candidate (i : nat) (d : Q) : DMatch * DMatch :=
  ({| queryIdx := i; trainIdx := i; distance := d |},
   {| queryIdx := i; trainIdx := S i; distance := 10 |}).

Definition candidates (good poor : nat) : list (DMatch * DMatch) :=
  ((fun i => candidate i 1) <$> seq 0 good) ++
  ((fun i => candidate i 9) <$> seq good poor).

#[export] Instance vision : VisionPrimitives := {|
  descriptors := nat;
  matrix := Demo.sym;
  identity3 := Demo.SIdentity;
  dot := Demo.SDot;
  translation := Demo.STranslation;
  detectAndCompute := fun px =>
    (Demo.keypoints (2 * Z.of_nat (length px)) 0 20, length px);
  knnMatch := fun a b =>
    if decide (a = S b \/ b = S a) then candidates 12 3 else candidates 4 3;
  findHomography := fun src dst => (Demo.SEstimate src dst, length src);
  perspectiveTransform := fun pts H =>
    [(fun p : point => (p.1 + inject_Z (Demo.offset H).1,
                        p.2 + inject_Z (Demo.offset H).2)%Q) <$> pts];
  warpPerspective := fun _ _ size =>
    replicate (Z.to_nat size.2) (replicate (Z.to_nat size.1) (Pixel 9 9 9 255))
|}.

Definition two : ImageStitcher :=
  add_image (add_image new_session (Demo.picture 1 3) "A")
    (Demo.picture 2 3) "B".

Definition three : ImageStitcher := add_image two (Demo.picture 3 3) "C".

End Panorama.

Lemma panorama_two_well_formed : well_formed (VP := Panorama.vision) Panorama.two.
Proof. do 2 apply add_image_well_formed. apply new_session_well_formed. Qed.

(** The third picture matches the second one and not the first. *)
Example panorama_three_records :
  dom (_matches Panorama.three) = {[(1, 0); (2, 1)]} /\
  length <$> _matches Panorama.three !! (2, 1) = Some 12.
Proof. by vm_compute. Qed.

Lemma add_image_records_witness :
  well_formed (VP := Panorama.vision) Panorama.two /\
  _matches Panorama.three !! (2, 1) =
    Some (good_matches Panorama.two (new_image (Demo.picture 3 3) "C")
            (new_image (Demo.picture 2 3) "B")) /\
  _matches Panorama.three !! (2, 0) = None.
Proof.
  split; [exact panorama_two_well_formed|].
  pose proof (add_image_records (VP := Panorama.vision) Panorama.two
                (Demo.picture 3 3) "C" panorama_two_well_formed) as H.
  cbn zeta in H. destruct H as (_ & _ & Hrow & _).
  split.
  - exact (Hrow 1 (new_image (Demo.picture 2 3) "B") eq_refl).
  - exact (Hrow 0 (new_image (Demo.picture 1 3) "A") eq_refl).
Defined.

Lemma add_image_keeps_center_witness :
  let s := set_center (VP := Panorama.vision) Panorama.two (Some 0) in
  well_formed s /\ _center s = Some 0 /\
  center (add_image s (Demo.picture 3 3) "C")
  = (add_image s (Demo.picture 3 3) "C", Ok 0).
Proof.
  cbn zeta.
  assert (well_formed (set_center (VP := Panorama.vision) Panorama.two (Some 0)))
    as Hwf by exact (set_center_well_formed _ _ panorama_two_well_formed).
  split; [exact Hwf|]. split; [reflexivity|].
  exact (proj1 (add_image_keeps_center
                  (set_center (VP := Panorama.vision) Panorama.two (Some 0))
                  (Demo.picture 3 3) "C" 0 Hwf eq_refl)).
Defined.

(** The session built from three pictures is stitched into one canvas. *)
Example panorama_stitch :
  exists canvas,
    (stitch (VP := Panorama.vision) (GP := Demo.graph) 7 Panorama.three).2
    = Done canvas /\
    length canvas = 3 /\ Forall (fun row => length row = 5) canvas.
Proof.
  eexists. split; [vm_compute; reflexivity|].
  split; [reflexivity|]. repeat constructor.
Qed.

(** *** The records of a session that is used through its methods *)

Section Reachable.
Context `{VP : VisionPrimitives} `{GP : GraphPrimitives}.

#[local] Existing Instance same_data_refl.
#[local] Existing Instance same_data_trans.
#[local] Existing Instance keeps_well_formed_refl.
#[local] Existing Instance keeps_well_formed_trans.

(** The sessions that the methods of the class produce from a session
    without images. *)
Inductive reachable (s0 : ImageStitcher) : ImageStitcher -> Prop :=
| reach_start :
    _images s0 = [] -> _matches s0 = ∅ -> _current_edge_matrix s0 = None ->
    reachable s0 s0
| reach_add_image s pixels nm :
    reachable s0 s -> reachable s0 (add_image s pixels nm)
| reach_center s :
    reachable s0 s -> reachable s0 (center s).1
| reach_center_setter s val :
    reachable s0 s -> reachable s0 (center_setter val s).1
| reach_validate s :
    reachable s0 s -> reachable s0 (validate s).1
| reach_stitch s fuel :
    reachable s0 s -> reachable s0 (stitch fuel s).1.

(** Every record is the answer of [_match_features] for the two images
    it names. *)
Definition records_sound (s : ImageStitcher) : Prop :=
  forall i j m, _matches s !! (i, j) = Some m ->
    exists src dst,
      _images s !! i = Some src /\ _images s !! j = Some dst /\
      _match_features s src dst = Some m.

Lemma match_features_settings (s s' : ImageStitcher) (src dst : StitchImage) :
  ratio_threshold s' = ratio_threshold s ->
  matches_threshold s' = matches_threshold s ->
  _match_features s' src dst = _match_features s src dst.
Proof. intros Hr Hm. unfold _match_features. by rewrite Hr, Hm. Qed.

Lemma records_sound_same_data (s s' : ImageStitcher) :
  same_data s s' -> records_sound s -> records_sound s'.
Proof.
  intros (Himg & Hrec & Hr & Hm & _) Hsound i j m Hij.
  rewrite Hrec in Hij. destruct (Hsound i j m Hij) as (src & dst & ? & ? & ?).
  exists src, dst. rewrite Himg. split_and!; [done..|].
  by rewrite (match_features_settings s s').
Qed.

Lemma add_image_lookup (s : ImageStitcher) (pixels : list (list pixel))
    (nm : string) (i j : nat) (m : list DMatch) :
  _matches (add_image s pixels nm) !! (i, j) = Some m ->
  _matches s !! (i, j) = Some m \/
  (i = length (_images s) /\
   exists other, _images s !! j = Some other /\
     _match_features s (new_image pixels nm) other = Some m).
Proof.
  rewrite add_image_unfold. cbn zeta. cbn [_matches set_matches].
  destruct (decide (i = length (_images s))) as [->|Hne].
  - destruct (_images s !! j) as [other|] eqn:Hj.
    + rewrite (match_against_present _ _ _ _ _ j other).
      * rewrite (match_features_settings s) by done.
        destruct (_match_features s (new_image pixels nm) other) as [good|]
          eqn:Hgood.
        -- intros [= <-]. right. split; [done|]. by exists other.
        -- cbn [_matches set_images]. by left.
      * rewrite enumerate_keys. apply NoDup_seq.
      * apply list_elem_of_lookup. exists j.
        by rewrite list_lookup_imap, Hj.
    + rewrite match_against_absent; [by left|].
      rewrite enumerate_keys, elem_of_seq. apply lookup_ge_None in Hj. lia.
  - rewrite match_against_other_row by done. by left.
Qed.

Lemma add_image_same_settings (s : ImageStitcher)
    (pixels : list (list pixel)) (nm : string) :
  ratio_threshold (add_image s pixels nm) = ratio_threshold s /\
  matches_threshold (add_image s pixels nm) = matches_threshold s /\
  _images (add_image s pixels nm) = _images s ++ [new_image pixels nm].
Proof. by rewrite add_image_unfold. Qed.

Lemma add_image_records_sound (s : ImageStitcher)
    (pixels : list (list pixel)) (nm : string) :
  records_sound s -> records_sound (add_image s pixels nm).
Proof.
  intros Hsound i j m Hij.
  destruct (add_image_same_settings s pixels nm) as (Hr & Hm & Himg).
  rewrite Himg.
  apply add_image_lookup in Hij as [Hold|[-> (other & Hj & Hgood)]].
  - destruct (Hsound i j m Hold) as (src & dst & Hi & Hj & Hgood).
    exists src, dst. split_and!.
    + by apply lookup_app_l_Some.
    + by apply lookup_app_l_Some.
    + by rewrite (match_features_settings s).
  - exists (new_image pixels nm), other. split_and!.
    + by rewrite lookup_app_r, Nat.sub_diag.
    + by apply lookup_app_l_Some.
    + by rewrite (match_features_settings s).
Qed.

Lemma set_center_same_data (s : ImageStitcher) (c : option nat) :
  same_data s (set_center s c).
Proof. done. Qed.

Lemma set_center_keeps_well_formed (s : ImageStitcher) (c : option nat) :
  keeps_well_formed s (set_center s c).
Proof. intros Hwf. by apply set_center_well_formed. Qed.

Definition session_inv (s0 s : ImageStitcher) : Prop :=
  well_formed s /\ records_sound s /\
  ratio_threshold s = ratio_threshold s0 /\
  matches_threshold s = matches_threshold s0.

Lemma session_inv_same_data (s0 s s' : ImageStitcher) :
  same_data s s' -> keeps_well_formed s s' ->
  session_inv s0 s -> session_inv s0 s'.
Proof.
  intros Hsame Hkeep (Hwf & Hsound & Hr & Hm).
  pose proof Hsame as (_ & _ & Hr' & Hm' & _).
  split_and!; [by apply Hkeep|by eapply records_sound_same_data|congruence..].
Qed.

Lemma reachable_session_inv (s0 s : ImageStitcher) :
  reachable s0 s -> session_inv s0 s.
Proof.
  induction 1 as [Himg Hrec Hcache|s pixels nm _ IH|s _ IH|s val _ IH|s _ IH
                  |s fuel _ IH].
  - split_and!; [|by intros i j m; rewrite Hrec, lookup_empty|done..].
    split; [rewrite Hrec; apply map_Forall_empty|by rewrite Hcache].
  - destruct IH as (Hwf & Hsound & Hr & Hm).
    destruct (add_image_same_settings s pixels nm) as (Hr' & Hm' & _).
    split_and!; [by apply add_image_well_formed
                |by apply add_image_records_sound|congruence..].
  - eapply session_inv_same_data; [| |exact IH].
    + exact (center_kept same_data edge_matrix_same_data
               set_center_same_data s).
    + exact (center_kept keeps_well_formed edge_matrix_keeps_well_formed
               set_center_keeps_well_formed s).
  - eapply session_inv_same_data; [| |exact IH].
    + apply set_center_same_data.
    + apply set_center_keeps_well_formed.
  - eapply session_inv_same_data; [| |exact IH].
    + exact (validate_kept same_data edge_matrix_same_data s).
    + exact (validate_kept keeps_well_formed edge_matrix_keeps_well_formed s).
  - eapply session_inv_same_data; [| |exact IH].
    + apply (stitch_kept same_data edge_matrix_same_data set_center_same_data).
    + apply (stitch_kept keeps_well_formed edge_matrix_keeps_well_formed
               set_center_keeps_well_formed).
Qed.

(** X14.  In a session that is used only through [add_image], [center],
    its setter, [validate] and [stitch], starting without images, every
    match record relates a later image to an earlier one, both in the
    list of images, and holds exactly the candidates of the two images
    that pass the ratio test, of which there are at least
    [matches_threshold]; the two thresholds are the ones of the start. *)
Theorem reachable_records (s0 s : ImageStitcher) :
  reachable s0 s ->
  ratio_threshold s = ratio_threshold s0 /\
  matches_threshold s = matches_threshold s0 /\
  forall i j m, _matches s !! (i, j) = Some m ->
    j < i /\
    exists src dst,
      _images s !! i = Some src /\ _images s !! j = Some dst /\
      m = good_matches s src dst /\
      matches_threshold s <= length m.
Proof.
  intros Hreach.
  destruct (reachable_session_inv s0 s Hreach) as ([Hkeys _] & Hsound & Hr & Hm).
  split_and!; [done..|]. intros i j m Hij.
  split; [apply Hkeys in Hij; cbn in Hij; lia|].
  destruct (Hsound i j m Hij) as (src & dst & Hi & Hj & Hgood).
  exists src, dst. split_and!; [done..| |].
  - rewrite match_features_threshold in Hgood.
    destruct (decide _); by inversion Hgood.
  - rewrite match_features_threshold in Hgood.
    destruct (decide _) as [Hle|]; [|done]. by injection Hgood as <-.
Qed.

End Reachable.

Lemma panorama_three_reachable :
  reachable (VP := Panorama.vision) (GP := Demo.graph)
    new_session Panorama.three.
Proof. do 3 apply reach_add_image. by apply reach_start. Qed.

Lemma reachable_records_witness :
  reachable (VP := Panorama.vision) (GP := Demo.graph)
    new_session Panorama.three /\
  matches_threshold Panorama.three = 10 /\
  forall m, _matches Panorama.three !! (2, 1) = Some m -> 10 <= length m.
Proof.
  split; [exact panorama_three_reachable|].
  destruct (reachable_records (VP := Panorama.vision) (GP := Demo.graph)
              new_session Panorama.three panorama_three_reachable)
    as (_ & Hm & Hrec).
  split; [exact Hm|]. intros m Hlookup.
  destruct (Hrec 2 1 m Hlookup) as (_ & src & dst & _ & _ & _ & Hle).
  exact Hle.
Defined.

(** *** Looking up a record and estimating a transform ([_get_match],
    [_find_homography], lines 269-302) *)

Section Lookup.
Context `{VP : VisionPrimitives}.

(** X15.  [_get_match] does not depend on the order of its two indices:
    in a well-formed session it returns the same record for [(i, j)] and
    for [(j, i)], the record stored under one of the two keys; when there
    is no record under either key it raises [KeyError] with the pair in
    the order opposite to the one of the call. *)
Theorem get_match_either_order (s : ImageStitcher) (i j : nat) :
  well_formed s ->
  match _get_match s i j with
  | Ok m =>
      _get_match s j i = Ok m /\
      (_matches s !! (i, j) = Some m \/ _matches s !! (j, i) = Some m)
  | Raise e =>
      e = KeyError (j, i) /\ _get_match s j i = Raise (KeyError (i, j)) /\
      _matches s !! (i, j) = None /\ _matches s !! (j, i) = None
  end.
Proof.
  intros [Hkeys _]. unfold _get_match.
  destruct (_matches s !! (i, j)) as [a|] eqn:Hij;
    destruct (_matches s !! (j, i)) as [b|] eqn:Hji.
  - apply Hkeys in Hij, Hji. cbn in *. lia.
  - by split; [|left].
  - by split; [|right].
  - done.
Qed.

Lemma selected_points_cases (im : StitchImage) (index : DMatch -> nat)
    (matches : list DMatch) :
  (exists pts, selected_points im index matches = Ok pts /\
               Forall (fun m => index m < length (kp im)) matches) \/
  (selected_points im index matches = Raise IndexError /\
   Exists (fun m => length (kp im) <= index m) matches).
Proof.
  unfold selected_points.
  induction matches as [|m matches IH]; cbn; [left; eauto|].
  unfold getitem at 1 3.
  destruct (kp im !! index m) as [p|] eqn:Hp; cbn.
  - apply lookup_lt_Some in Hp.
    destruct IH as [(pts & -> & Hall)|[-> Hex]]; cbn.
    + left. eexists. split; [done|]. by constructor.
    + right. split; [done|]. by apply Exists_cons_tl.
  - right. split; [done|]. apply Exists_cons_hd. by apply lookup_ge_None.
Qed.

Lemma estimate_errors (a b : result (list point)) (e : exn) :
  estimate a b = Raise e ->
  a = Raise e \/ b = Raise e \/
  e = ValueError "Critical error finding homography - this should not happen".
Proof.
  unfold estimate. destruct a as [src|ea]; cbn; [|intros [= ->]; by left].
  destruct b as [dst|eb]; cbn; [|intros [= ->]; right; by left].
  destruct (findHomography src dst) as [H status_sum].
  destruct (decide _); [|done]. intros [= <-]. by right; right.
Qed.

(** X16.  [_find_homography] raises [IndexError] exactly when a
    correspondence names a keypoint that one of the two images does not
    have, where the query index is read in the source image and the train
    index in the destination image, or the other way round when [swap] is
    set; the only other exception it raises is the [ValueError] for an
    estimate without inliers. *)
Theorem find_homography_errors (src dst : StitchImage)
    (matches : list DMatch) (swap : bool) :
  let on_src := if swap then trainIdx else queryIdx in
  let on_dst := if swap then queryIdx else trainIdx in
  (_find_homography src dst matches swap = Raise IndexError <->
   Exists (fun m => length (kp src) <= on_src m \/
                    length (kp dst) <= on_dst m) matches) /\
  (forall e, _find_homography src dst matches swap = Raise e ->
     e = IndexError \/
     e = ValueError
           "Critical error finding homography - this should not happen").
Proof.
  cbn zeta.
  set (on_src := if swap then trainIdx else queryIdx).
  set (on_dst := if swap then queryIdx else trainIdx).
  assert (_find_homography src dst matches swap
          = estimate (selected_points src on_src matches)
                     (selected_points dst on_dst matches)) as ->.
  { destruct swap; [apply find_homography_swapped|apply find_homography_direct]. }
  split.
  - destruct (selected_points_cases src on_src matches)
      as [(a & -> & Ha)|[-> Ha]];
      destruct (selected_points_cases dst on_dst matches)
        as [(b & -> & Hb)|[-> Hb]]; cbn.
    + split.
      * destruct (findHomography a b) as [H status_sum].
        by destruct (decide _).
      * intros Hex. apply Exists_exists in Hex as (m & Hm & Hout).
        rewrite Forall_forall in Ha, Hb.
        specialize (Ha m Hm). specialize (Hb m Hm). cbn in *. lia.
    + split; [|done]. intros _.
      eapply Exists_impl; [exact Hb|]. cbn. intros m Hm. by right.
    + split; [|done]. intros _.
      eapply Exists_impl; [exact Ha|]. cbn. intros m Hm. by left.
    + split; [|done]. intros _.
      eapply Exists_impl; [exact Ha|]. cbn. intros m Hm. by left.
  - intros e He. apply estimate_errors in He as [He|[He|He]].
    + left. by apply selected_points_error in He.
    + left. by apply selected_points_error in He.
    + by right.
Qed.

End Lookup.

Lemma get_match_either_order_witness :
  well_formed (VP := Demo.vision) Demo.chain /\
  _get_match Demo.chain 0 1 = Ok (Demo.correspondences 20) /\
  _get_match Demo.chain 1 0 = Ok (Demo.correspondences 20).
Proof.
  split; [exact chain_well_formed|]. split; [reflexivity|].
  exact (proj1 (get_match_either_order (VP := Demo.vision) Demo.chain 0 1
                  chain_well_formed)).
Defined.

(** *** The assertion of [paste_image] inside [stitch] (lines 62-75 and
    160-184) *)

Section Fitting.
Context `{VP : VisionPrimitives} `{GP : GraphPrimitives}.

(** [cv2.warpPerspective] returns a buffer of the size it is asked for:
    [size] is [(width, height)]. *)
Definition warp_honours_size : Prop :=
  forall (img : list (list pixel)) (H : matrix) (size : Z * Z),
    has_shape (warpPerspective img H size)
      (Z.to_nat size.2) (Z.to_nat size.1).

(** A result other than the failure of an assertion. *)
Definition calm {A : Type} (r : result A) : Prop := r <> Raise AssertionError.

Definition quiet {A : Type} (m : action A) : Prop :=
  forall s, calm (m s).2.

Lemma calm_ok {A : Type} (a : A) : calm (Ok a).
Proof. done. Qed.

Lemma calm_bind {A B : Type} (r : result A) (k : A -> result B) :
  calm r -> (forall a, r = Ok a -> calm (k a)) -> calm (bind r k).
Proof.
  destruct r as [a|e]; cbn.
  - intros _ Hk. by apply Hk.
  - intros He _ [= ->]. by apply He.
Qed.

Lemma calm_getitem {A : Type} (l : list A) (i : nat) : calm (getitem l i).
Proof. unfold calm, getitem. by destruct (l !! i). Qed.

Lemma calm_py_index {A : Type} (l : list A) (i : Z) : calm (py_index l i).
Proof.
  unfold calm, py_index. cbn zeta. destruct (_ <? 0)%Z; [done|].
  by destruct (l !! _).
Qed.

Lemma calm_traverse {A B : Type} (f : A -> result B) (l : list A) :
  (forall a, a ∈ l -> calm (f a)) -> calm (traverse f l).
Proof.
  induction l as [|a l IH]; intros Hf; cbn; [done|].
  apply calm_bind; [apply Hf; by left|]. intros b _.
  apply calm_bind; [|done]. apply IH. intros a' Ha'. apply Hf. by right.
Qed.

Lemma quiet_and_then {A B : Type} (m : action A) (k : A -> action B) :
  quiet m -> (forall a, quiet (k a)) -> quiet (and_then m k).
Proof.
  intros Hm Hk s. unfold and_then. specialize (Hm s).
  destruct (m s) as [s' [a|e]]; [apply Hk|].
  cbn in *. intros [= ->]. by apply Hm.
Qed.

Lemma quiet_lift {A : Type} (r : result A) : calm r -> quiet (lift r).
Proof. by intros Hr s. Qed.

Lemma quiet_edge_matrix : quiet _edge_matrix.
Proof.
  intros s. unfold _edge_matrix.
  assert (calm (build_edge_matrix s)) as Hbuild.
  { unfold build_edge_matrix. apply calm_bind.
    - unfold py_max. by destruct (_ <$> _).
    - intros longest _. unfold csr_matrix. by destruct (decide _). }
  destruct (decide _); [done|].
  destruct (_current_edge_matrix s) as [current|].
  - destruct (decide _); [done|].
    by destruct (build_edge_matrix s).
  - by destruct (build_edge_matrix s).
Qed.

Lemma quiet_validate : quiet validate.
Proof.
  unfold validate. apply quiet_and_then; [apply quiet_edge_matrix|].
  intros g. destruct (connected_components g) as [cc groups].
  destruct (decide _); [done|].
  apply quiet_and_then; [done|]. intros images.
  apply quiet_and_then; [|done]. apply quiet_lift, calm_traverse.
  intros i _. apply calm_bind; [apply calm_getitem|done].
Qed.

Lemma quiet_find_center : quiet _find_center.
Proof.
  unfold _find_center. apply quiet_and_then; [apply quiet_edge_matrix|].
  intros g. apply quiet_and_then; [done|]. intros images.
  apply quiet_and_then; [|done]. apply quiet_lift, calm_getitem.
Qed.

Lemma quiet_center : quiet center.
Proof.
  unfold center. apply quiet_and_then; [done|]. intros [c|]; [done|].
  apply quiet_and_then; [apply quiet_find_center|]. intros c.
  by apply quiet_and_then.
Qed.

Lemma quiet_spanning_tree : quiet spanning_tree.
Proof.
  unfold spanning_tree. apply quiet_and_then; [apply quiet_validate|].
  intros _. apply quiet_and_then; [apply quiet_center|]. intros c.
  apply quiet_and_then; [done|]. intros images.
  apply quiet_and_then; [apply quiet_lift, calm_getitem|]. intros _.
  apply quiet_and_then; [apply quiet_edge_matrix|done].
Qed.

Lemma calm_find_homography (src dst : StitchImage) (matches : list DMatch)
    (swap : bool) :
  calm (_find_homography src dst matches swap).
Proof.
  unfold _find_homography. apply calm_bind.
  - unfold homography_points. destruct (if swap then _ else _) as [src1 dst1].
    apply calm_bind.
    { apply calm_traverse. intros i _. apply calm_getitem. }
    intros src_data _. apply calm_bind; [|done].
    apply calm_traverse. intros i _. apply calm_getitem.
  - intros pts _. destruct (findHomography _ _) as [H status_sum].
    by destruct (decide _).
Qed.

Lemma calm_next_homography (s : ImageStitcher) (c src_idx : nat)
    (dst_idx : Z) :
  calm (next_homography s c src_idx dst_idx).
Proof.
  unfold next_homography. destruct (decide _); [done|]. cbn zeta.
  apply calm_bind.
  { unfold _get_match. by repeat destruct (_matches s !! _). }
  intros matches _. apply calm_bind; [apply calm_getitem|]. intros src _.
  apply calm_bind; [apply calm_getitem|]. intros dst _.
  apply calm_find_homography.
Qed.

Lemma walk_calm (fuel : nat) (parents : list Z) (next_H : list matrix)
    (c : nat) (st : walk_state) :
  walk fuel parents next_H c st <> Failed AssertionError.
Proof.
  revert st. induction fuel as [|fuel IH]; intros st; cbn; [done|].
  destruct (path st) as [|src_idx rest].
  { destruct (first_unknown _); [apply IH|done]. }
  pose proof (calm_py_index parents src_idx) as Hp.
  destruct (py_index parents src_idx) as [[? dst_idx]|e];
    [|by intros [= ->]].
  destruct (decide _); [apply IH|].
  pose proof (calm_py_index (total_H st) dst_idx) as Ht.
  destruct (py_index (total_H st) dst_idx) as [[? [Hd|]]|e];
    [|apply IH|by intros [= ->]].
  pose proof (calm_py_index next_H src_idx) as Hn.
  destruct (py_index next_H src_idx) as [[i Hs]|e]; [apply IH|].
  by intros [= ->].
Qed.

Lemma total_homographies_calm (fuel : nat) (s : ImageStitcher) (c : nat)
    (parents : list Z) :
  _calculate_total_homographies fuel s c parents <> Failed AssertionError.
Proof.
  unfold _calculate_total_homographies.
  assert (calm (next_homographies s c parents)) as Hnext.
  { apply calm_traverse. intros [src_idx dst_idx] _.
    apply calm_next_homography. }
  destruct (next_homographies s c parents) as [next_H|e];
    [|by intros [= ->]].
  pose proof (calm_getitem next_H c) as Hc.
  destruct (getitem next_H c) as [Hcenter|e]; [|by intros [= ->]].
  cbn zeta.
  pose proof (walk_calm fuel parents next_H c
                (WalkState (<[c := Some Hcenter]>
                              (replicate (length parents) None)) [] [c]))
    as Hwalk.
  destruct (walk _ _ _ _ _) as [st|e|]; [done| |done].
  intros [= ->]. done.
Qed.

Lemma calm_new_corners (s : ImageStitcher) (Hs : list (option matrix)) :
  calm (_calculate_new_corners s Hs).
Proof.
  apply calm_traverse. intros [im [h|]] _; [|done].
  cbn zeta. destruct (decide _); [done|]. apply calm_getitem.
Qed.

Lemma calm_fitting_rectangle (pts : list point) : calm (fitting_rectangle pts).
Proof.
  unfold calm, fitting_rectangle. cbn zeta.
  by repeat destruct (_ (foldl extend _ pts)).
Qed.

(** A buffer that lies inside the destination passes the assertion, also
    when the destination has no rows. *)
Lemma paste_image_inside_ok (base img : list (list pixel)) (x y : Z)
    (H W h w : nat) :
  has_shape base H W -> has_shape img h w ->
  (0 <= x)%Z -> (0 <= y)%Z ->
  Z.to_nat y + h <= H -> Z.to_nat x + w <= W ->
  is_ok (paste_image base img (x, y)) = true.
Proof.
  intros Hbase Himg Hx Hy Hh Hw.
  destruct (decide (H = 0)) as [->|Hpos].
  - assert (h = 0) as -> by lia.
    destruct Hbase as [Hb _], Himg as [Hi _].
    apply nil_length_inv in Hb, Hi. subst base img.
    unfold paste_image. cbn. unfold slice_bound. cbn.
    rewrite decide_True; [done|].
    destruct (x <? 0)%Z, (y <? 0)%Z; lia.
  - apply (paste_image_fits base img x y H W); [done..| | |lia].
    + destruct Himg as [Hi _]. unfold rows. lia.
    + destruct img as [|row img]; [cbn; lia|].
      rewrite (has_shape_cols _ h w Himg); [done|].
      destruct Himg as [Hi _]. cbn in Hi. lia.
Qed.

Lemma paint_calm (s : ImageStitcher) (Hs : list (option matrix))
    (corners : list (list point)) (left top width height : Z)
    (canvas : list (list pixel)) (i : nat) :
  warp_honours_size ->
  _calculate_bounds corners = Ok ((left, top), (width, height)) ->
  has_shape canvas (Z.to_nat height) (Z.to_nat width) ->
  calm (paint s Hs corners (left, top) canvas i).
Proof.
  intros Hwarp Hbounds Hcanvas. unfold paint.
  apply calm_bind; [apply calm_getitem|]. intros im _.
  apply calm_bind; [apply calm_getitem|]. intros quad Hquad.
  apply calm_bind; [apply calm_getitem|]. intros H _.
  apply calm_bind; [apply calm_fitting_rectangle|].
  intros [[l t] [w h]] Hrect. cbn [fst snd].
  destruct H as [H|]; [|done].
  unfold getitem in Hquad.
  destruct (corners !! i) as [q|] eqn:Hq; [|done]. injection Hquad as ->.
  assert (quad ⊆ concat corners) as Hsub.
  { intros p Hp. eapply elem_of_concat; [|exact Hp].
    by eapply list_elem_of_lookup_2. }
  destruct (placement_inside_canvas _ _ _ _ _ _ _ _ _ _ Hsub Hrect Hbounds)
    as [[Hx0 Hx1] [Hy0 Hy1]].
  destruct (fitting_rectangle_size_nonneg _ _ _ _ _ Hrect) as [Hw0 Hh0].
  pose proof (paste_image_inside_ok canvas
                (warpPerspective (image im)
                   (dot (translation (- l) (- t)) H) (w, h))
                (l - left) (t - top) _ _ _ _ Hcanvas (Hwarp _ _ _)
                Hx0 Hy0) as Hok.
  cbn [fst snd] in Hok.
  unfold calm. destruct (paste_image _ _ _); [done|].
  cbn in Hok. exfalso. assert (false = true); [|done]. apply Hok; lia.
Qed.

Lemma fold_paint_calm (s : ImageStitcher) (Hs : list (option matrix))
    (corners : list (list point)) (left top width height : Z)
    (order : list nat) (canvas : list (list pixel)) :
  warp_honours_size ->
  _calculate_bounds corners = Ok ((left, top), (width, height)) ->
  has_shape canvas (Z.to_nat height) (Z.to_nat width) ->
  calm (fold_result (paint s Hs corners (left, top)) order canvas).
Proof.
  intros Hwarp Hbounds. revert canvas.
  induction order as [|i order IH]; intros canvas Hcanvas; cbn; [done|].
  apply calm_bind; [by eapply paint_calm|].
  intros canvas' Hpaint. apply IH. by eapply paint_shape.
Qed.

Lemma compose_canvas_calm (s : ImageStitcher) (c : nat) (parents : list Z)
    (Hs : list (option matrix)) :
  warp_honours_size -> calm (compose_canvas s c parents Hs).
Proof.
  intros Hwarp. unfold compose_canvas.
  apply calm_bind; [apply calm_new_corners|]. intros corners _.
  apply calm_bind; [apply calm_fitting_rectangle|].
  intros [[left top] [width height]] Hbounds. cbn [fst snd].
  apply calm_bind.
  { unfold zeros. by destruct (decide _). }
  intros blank Hblank. eapply fold_paint_calm; [done..|].
  by apply zeros_shape.
Qed.


End Fitting.

Lemma demo_warp_honours_size : warp_honours_size (VP := Demo.vision).
Proof.
  intros img H size. split; [apply length_replicate|].
  apply Forall_replicate, length_replicate.
Qed.

